(** * gradio/networking.py: template rendering, port scan, request handler,
      tunnel set-up and path translation.

    A shallow embedding of [gradio/networking.py].  Python strings are lists
    of characters, dictionaries whose iteration order matters are association
    lists in insertion order, exceptions are the left summand of a result
    type, and the request handler runs in a state-and-exception monad over the
    handler's observable state (response calls, files, collaborator calls). *)

From Stdlib Require Import Ascii String DecimalString DecimalZ.
From Stdlib Require QArith.
From Stdlib Require Import List ZArith Lia Bool Arith Permutation.
Import ListNotations.

Set Implicit Arguments.

(** ** Python strings *)

Module PyStr.

(** A Python [str], one list element per character. *)
Definition pystr := list ascii.

(** A string literal of the source. *)
Definition lit (s : string) : pystr := list_ascii_of_string s.

Definition pystr_eq_dec : forall a b : pystr, {a = b} + {a <> b} :=
  list_eq_dec ascii_dec.

(** [a == b] on strings. *)
Fixpoint pystr_eqb (a b : pystr) : bool :=
  match a, b with
  | [], [] => true
  | x :: a', y :: b' => Ascii.eqb x y && pystr_eqb a' b'
  | _, _ => false
  end.

(** [s.startswith(p)] *)
Fixpoint startswith (p s : pystr) : bool :=
  match p, s with
  | [], _ => true
  | _ :: _, [] => false
  | a :: p', b :: s' => Ascii.eqb a b && startswith p' s'
  end.

(** The scan of [str.replace] for a non-empty [old]: left to right, the
    leftmost match is replaced and the scan resumes after it, so matches do
    not overlap.  [skip] counts the characters of a match still to pass. *)
Fixpoint replace_from (old new : pystr) (skip : nat) (s : pystr) : pystr :=
  match s with
  | [] => []
  | c :: s' =>
      match skip with
      | S k => replace_from old new k s'
      | O =>
          if startswith old s
          then new ++ replace_from old new (length old - 1) s'
          else c :: replace_from old new 0 s'
      end
  end.

(** [s.replace(old, new)].  With an empty [old] Python puts [new] before
    every character and at the end. *)
Definition str_replace (s old new : pystr) : pystr :=
  match old with
  | [] => new ++ flat_map (fun c => c :: new) s
  | _ :: _ => replace_from old new 0 s
  end.

(** [sep.join(parts)] *)
Fixpoint join (sep : pystr) (parts : list pystr) : pystr :=
  match parts with
  | [] => []
  | p :: rest =>
      match rest with
      | [] => p
      | _ :: _ => p ++ sep ++ join sep rest
      end
  end.

(** [old in s]: the text [old] occurs somewhere in [s]. *)
Definition occurs (old s : pystr) : Prop :=
  exists pre post, s = pre ++ old ++ post.

(** [str(n)] for an integer. *)
Definition str_of_Z (z : Z) : pystr :=
  lit (NilZero.string_of_int (Z.to_int z)).

(** The values the templates are filled with, and [str(value)]. *)
Inductive pyval : Type :=
| PStr (s : pystr)
| PInt (z : Z)
| PBool (b : bool)
| PNone.

Definition py_str (v : pyval) : pystr :=
  match v with
  | PStr s => s
  | PInt z => str_of_Z z
  | PBool true => lit "True"
  | PBool false => lit "False"
  | PNone => lit "None"
  end.

(** [range(start, stop, step)].  The source only uses non-zero steps;
    on a zero step Python raises [ValueError] and the list here is empty. *)
Fixpoint range_from (start step : Z) (n : nat) : list Z :=
  match n with
  | O => []
  | S n' => start :: range_from (start + step) step n'
  end.

Definition py_range (start stop step : Z) : list Z :=
  if (0 <? step)%Z
  then range_from start step (Z.to_nat ((stop - start + step - 1) / step))
  else if (step <? 0)%Z
       then range_from start step (Z.to_nat ((start - stop - step - 1) / (- step)))
       else [].

(** Exceptions, by class and with the text [str(e)] gives; a call that can
    raise returns a result. *)
Inductive exn_class : Type :=
| OSError
| RuntimeError
| KeyError
| TypeError
| ValueError
| OverflowError
| OtherError.

Record exn : Type := Exn { exn_cls : exn_class; exn_str : pystr }.

Definition res (A : Type) : Type := (exn + A)%type.

Lemma pystr_eqb_eq (a b : pystr) : pystr_eqb a b = true <-> a = b.
Proof.
  revert b. induction a as [|x a IH]; intros [|y b]; cbn [pystr_eqb];
    try (split; [discriminate | congruence]); [tauto|].
  rewrite andb_true_iff, Ascii.eqb_eq, IH. split; [intros [-> ->] | intros [= -> ->]]; auto.
Qed.

Lemma pystr_eqb_refl (a : pystr) : pystr_eqb a a = true.
Proof. now apply pystr_eqb_eq. Qed.

Lemma pystr_eqb_neq (a b : pystr) : a <> b -> pystr_eqb a b = false.
Proof.
  intros H. destruct (pystr_eqb a b) eqn:E; [|reflexivity].
  apply pystr_eqb_eq in E. contradiction.
Qed.

Lemma startswith_app (p s : pystr) : startswith p (p ++ s) = true.
Proof.
  induction p as [|a p IH]; simpl; [reflexivity|].
  now rewrite Ascii.eqb_refl, IH.
Qed.

Lemma startswith_spec (p s : pystr) :
  startswith p s = true <-> exists t, s = p ++ t.
Proof.
  revert s; induction p as [|a p IH]; intros s; simpl.
  - split; [intros _; now exists s | reflexivity].
  - destruct s as [|b s].
    + split; [discriminate | intros [t Ht]; discriminate].
    + rewrite andb_true_iff, Ascii.eqb_eq, IH. split.
      * intros [-> [t ->]]. now exists t.
      * intros [t Ht]. injection Ht as -> ->. split; [reflexivity | now exists t].
Qed.

Lemma startswith_occurs (p s : pystr) : startswith p s = true -> occurs p s.
Proof.
  intros H. apply startswith_spec in H as [t ->]. now exists [], t.
Qed.

Lemma occurs_cons (old : pystr) (c : ascii) (s : pystr) :
  occurs old s -> occurs old (c :: s).
Proof.
  intros (pre & post & ->). now exists (c :: pre), post.
Qed.

Lemma occurs_cons_inv (old : pystr) (c : ascii) (s : pystr) :
  occurs old (c :: s) -> startswith old (c :: s) = true \/ occurs old s.
Proof.
  intros (pre & post & H). destruct pre as [|d pre]; simpl in H.
  - left. rewrite H. apply startswith_app.
  - right. injection H as _ ->. now exists pre, post.
Qed.

(** Passing the rest of a match: the scan resumes right after it. *)
Lemma replace_from_skip (old new p s : pystr) :
  replace_from old new (length p) (p ++ s) = replace_from old new 0 s.
Proof.
  induction p as [|a p IH]; simpl; [|exact IH].
  destruct s; reflexivity.
Qed.

(** The scan, one step at a time, without the counter. *)
Lemma replace_from_match (old new t : pystr) :
  old <> [] ->
  replace_from old new 0 (old ++ t) = new ++ replace_from old new 0 t.
Proof.
  intros Hne. destruct old as [|a old]; [congruence|].
  pose proof (startswith_app (a :: old) t) as E.
  change ((a :: old) ++ t) with (a :: old ++ t) in *.
  cbn [replace_from]. rewrite E.
  cbn [length]. rewrite Nat.sub_succ, Nat.sub_0_r.
  now rewrite replace_from_skip.
Qed.

Lemma replace_from_nomatch (old new : pystr) (c : ascii) (s : pystr) :
  startswith old (c :: s) = false ->
  replace_from old new 0 (c :: s) = c :: replace_from old new 0 s.
Proof.
  intros H. cbn [replace_from]. now rewrite H.
Qed.

(** A text in which [old] does not occur is returned as it is. *)
Lemma replace_from_absent (old new s : pystr) :
  ~ occurs old s -> replace_from old new 0 s = s.
Proof.
  induction s as [|c s IH]; intros H; [reflexivity|].
  rewrite replace_from_nomatch.
  - f_equal. apply IH. intros Ho. apply H. now apply occurs_cons.
  - destruct (startswith old (c :: s)) eqn:E; [|reflexivity].
    exfalso. apply H. now apply startswith_occurs.
Qed.

Lemma str_replace_absent (s old new : pystr) :
  ~ occurs old s -> str_replace s old new = s.
Proof.
  intros H. destruct old as [|a old].
  - exfalso. apply H. now exists [], s.
  - now apply replace_from_absent.
Qed.

End PyStr.

(** ** Template renderer: [render_string_or_list_with_tags] *)

Module Renderer.
Import PyStr.

(** The context dictionary, as [context.items()] lists it. *)
Definition context := list (pystr * pyval).

Definition lbrace : ascii := "{"%char.
Definition rbrace : ascii := "}"%char.

(** [r"{{" + key + r"}}"] *)
Definition tag (key : pystr) : pystr := lit "{{" ++ key ++ lit "}}".

(** The inner loop:
    [for key, value in context.items(): line = line.replace(tag, str(value))]. *)
Fixpoint replace_tags (ctx : context) (line : pystr) : pystr :=
  match ctx with
  | [] => line
  | (key, value) :: rest =>
      replace_tags rest (str_replace line (tag key) (py_str value))
  end.

(** The argument [old_lines] is a string or a list of lines
    ([isinstance(old_lines, str)] tells them apart). *)
Inductive text : Type :=
| Str (s : pystr)
| Lines (ls : list pystr).

(** The outer loop of the list case, [new_lines] being the accumulator. *)
Fixpoint render_lines (ctx : context) (old_lines new_lines : list pystr) : list pystr :=
  match old_lines with
  | [] => new_lines
  | line :: rest => render_lines ctx rest (new_lines ++ [replace_tags ctx line])
  end.

Definition render_string_or_list_with_tags (old_lines : text) (ctx : context) : text :=
  match old_lines with
  | Str s => Str (replace_tags ctx s)
  | Lines ls => Lines (render_lines ctx ls [])
  end.

(** *** What the renderer is specified against *)

(** All occurrences of [old] in a text replaced by [new]: either there is
    none, or the leftmost one is replaced and so are all those of the text
    that follows it. *)
Inductive replaces_all (old new : pystr) : pystr -> pystr -> Prop :=
| ra_absent s :
    ~ occurs old s -> replaces_all old new s s
| ra_leftmost pre post r :
    ~ occurs old (pre ++ removelast old) ->
    replaces_all old new post r ->
    replaces_all old new (pre ++ old ++ post) (pre ++ new ++ r).

(** The tags of the context replaced key after key, in the context's order. *)
Inductive renders : context -> pystr -> pystr -> Prop :=
| renders_nil s : renders [] s s
| renders_cons key value rest s s' r :
    replaces_all (tag key) (py_str value) s s' ->
    renders rest s' r ->
    renders ((key, value) :: rest) s r.

(** A template cut into its pieces: literal text and tags. *)
Inductive segment : Type :=
| Lit (s : pystr)
| Tag (key : pystr).

Definition flatten_segment (g : segment) : pystr :=
  match g with
  | Lit s => s
  | Tag key => tag key
  end.

Definition flatten (t : list segment) : pystr := flat_map flatten_segment t.

(** The value of a key in the context, [None] for a key that is not in it. *)
Fixpoint lookup (key : pystr) (ctx : context) : option pyval :=
  match ctx with
  | [] => None
  | (k, v) :: rest => if pystr_eq_dec k key then Some v else lookup key rest
  end.

(** A tag whose key is in the context becomes the stringified value; any
    other tag, and the literal text, stay as they are. *)
Definition fill_segment (ctx : context) (g : segment) : segment :=
  match g with
  | Lit s => Lit s
  | Tag key =>
      match lookup key ctx with
      | Some v => Lit (py_str v)
      | None => Tag key
      end
  end.

(** Tags are well delimited when keys hold no brace and the text around
    them, like the values put in, holds no opening brace. *)
Definition no_open_brace (s : pystr) : Prop := Forall (fun c => c <> lbrace) s.
Definition brace_free (s : pystr) : Prop :=
  Forall (fun c => c <> lbrace /\ c <> rbrace) s.

Definition segment_ok (g : segment) : Prop :=
  match g with
  | Lit s => no_open_brace s
  | Tag key => brace_free key
  end.

Definition template_ok (t : list segment) : Prop := Forall segment_ok t.

Definition context_ok (ctx : context) : Prop :=
  Forall (fun kv => brace_free (fst kv) /\ no_open_brace (py_str (snd kv))) ctx.

(** Simultaneous substitution, for comparison: one pass over the text, and at
    each position the first entry of the context whose tag starts there is
    substituted; what has been substituted is not looked at again. *)
Fixpoint tag_at (ctx : context) (s : pystr) : option (pystr * pyval) :=
  match ctx with
  | [] => None
  | (k, v) :: rest => if startswith (tag k) s then Some (k, v) else tag_at rest s
  end.

Fixpoint simultaneous_from (ctx : context) (skip : nat) (s : pystr) : pystr :=
  match s with
  | [] => []
  | c :: s' =>
      match skip with
      | S n => simultaneous_from ctx n s'
      | O =>
          match tag_at ctx s with
          | Some (k, v) => py_str v ++ simultaneous_from ctx (length (tag k) - 1) s'
          | None => c :: simultaneous_from ctx 0 s'
          end
      end
  end.

Definition render_simultaneous (ctx : context) (s : pystr) : pystr :=
  simultaneous_from ctx 0 s.

(** No tag of the context occurs in the text. *)
Definition unrelated (ctx : context) (t : text) : Prop :=
  match t with
  | Str s => forall k v, In (k, v) ctx -> ~ occurs (tag k) s
  | Lines ls => forall line, In line ls -> forall k v, In (k, v) ctx -> ~ occurs (tag k) line
  end.

(** [old in s], decided. *)
Fixpoint contains (old s : pystr) : bool :=
  startswith old s ||
  match s with
  | [] => false
  | _ :: s' => contains old s'
  end.

Lemma contains_spec (old s : pystr) : contains old s = true <-> occurs old s.
Proof.
  induction s as [|c s IH].
  - simpl. rewrite orb_false_r. split.
    + apply startswith_occurs.
    + intros (pre & post & H). destruct pre; [|discriminate].
      simpl in H. rewrite H. apply startswith_app.
  - cbn [contains]. rewrite orb_true_iff, IH. split.
    + intros [H|H]; [now apply startswith_occurs | now apply occurs_cons].
    + apply occurs_cons_inv.
Qed.

Lemma contains_false (old s : pystr) : contains old s = false -> ~ occurs old s.
Proof.
  intros H Ho. apply contains_spec in Ho. congruence.
Qed.

Lemma tag_unfold (key : pystr) :
  tag key = lbrace :: lbrace :: key ++ [rbrace; rbrace].
Proof. reflexivity. Qed.

Lemma tag_not_nil (key : pystr) : tag key <> [].
Proof. rewrite tag_unfold. discriminate. Qed.

(** One pass of the loop over a template: the tags of [key] are filled. *)
Definition fill_one (key new : pystr) (g : segment) : segment :=
  match g with
  | Lit s => Lit s
  | Tag k => if pystr_eq_dec key k then Lit new else Tag k
  end.

(** *** The scan of [str.replace] replaces all occurrences *)

Lemma occurs_length (old s : pystr) : occurs old s -> length old <= length s.
Proof.
  intros (pre & post & ->). rewrite !length_app. lia.
Qed.

Lemma not_occurs_removelast (old : pystr) : old <> [] -> ~ occurs old (removelast old).
Proof.
  intros Hne Ho. apply occurs_length in Ho.
  rewrite (app_removelast_last "000"%char Hne) in Ho at 1.
  rewrite length_app in Ho. simpl in Ho. lia.
Qed.

Lemma startswith_app_r (p x y : pystr) :
  startswith p x = true -> startswith p (x ++ y) = true.
Proof.
  intros H. apply startswith_spec in H as [t ->].
  rewrite <- app_assoc. apply startswith_app.
Qed.

Lemma str_replace_nonempty (s old new : pystr) :
  old <> [] -> str_replace s old new = replace_from old new 0 s.
Proof.
  destruct old; [congruence | reflexivity].
Qed.

Lemma replaces_all_cons (old new : pystr) (c : ascii) (s r : pystr) :
  old <> [] ->
  startswith old (c :: s) = false ->
  replaces_all old new s r ->
  replaces_all old new (c :: s) (c :: r).
Proof.
  intros Hne E H. destruct H as [s Habs | pre post r Hleft Hrest].
  - apply ra_absent. intros Ho.
    apply occurs_cons_inv in Ho as [Ho|Ho]; [congruence | contradiction].
  - apply (ra_leftmost (old:=old) (new:=new) (c :: pre) (post:=post) (r:=r)); [|exact Hrest].
    intros Ho. change ((c :: pre) ++ removelast old) with (c :: pre ++ removelast old) in Ho.
    apply occurs_cons_inv in Ho as [Ho|Ho]; [|contradiction].
    apply (startswith_app_r _ _ ([last old "000"%char] ++ post)) in Ho.
    change ((c :: pre ++ removelast old) ++ [last old "000"%char] ++ post)
      with (c :: (pre ++ removelast old) ++ [last old "000"%char] ++ post) in Ho.
    rewrite <- app_assoc, (app_assoc (removelast old)) in Ho.
    rewrite <- (app_removelast_last "000"%char Hne) in Ho. congruence.
Qed.

Lemma replace_from_replaces_all (old new : pystr) :
  old <> [] ->
  forall n s, length s <= n -> replaces_all old new s (replace_from old new 0 s).
Proof.
  intros Hne. induction n as [|n IH]; intros s Hlen.
  - destruct s; [|simpl in Hlen; lia]. apply ra_absent.
    intros Ho. apply occurs_length in Ho. destruct old; [congruence | simpl in Ho; lia].
  - destruct s as [|c s]; [apply (IH []); simpl; lia|].
    destruct (startswith old (c :: s)) eqn:E.
    + destruct (proj1 (startswith_spec _ _) E) as [t Ht]. rewrite Ht.
      rewrite replace_from_match by exact Hne.
      apply (ra_leftmost (old:=old) (new:=new) [] (post:=t)).
      * now apply not_occurs_removelast.
      * apply IH. apply (f_equal (@length ascii)) in Ht.
        rewrite length_app in Ht. simpl in Ht, Hlen.
        destruct old; [congruence | simpl in Ht; lia].
    + rewrite replace_from_nomatch by exact E.
      apply replaces_all_cons; [exact Hne | exact E |].
      apply IH. simpl in Hlen. lia.
Qed.

Lemma str_replace_replaces_all (s old new : pystr) :
  old <> [] -> replaces_all old new s (str_replace s old new).
Proof.
  intros Hne. rewrite str_replace_nonempty by exact Hne.
  now apply replace_from_replaces_all with (n := length s).
Qed.

Lemma replace_tags_renders (ctx : context) :
  forall s, renders ctx s (replace_tags ctx s).
Proof.
  induction ctx as [|[k v] ctx IH]; intros s; simpl.
  - constructor.
  - econstructor; [|apply IH]. apply str_replace_replaces_all, tag_not_nil.
Qed.

(** *** The scan over a well-delimited template *)

Lemma brace_free_no_open (k : pystr) : brace_free k -> no_open_brace k.
Proof.
  unfold brace_free, no_open_brace. apply Forall_impl. tauto.
Qed.

Lemma startswith_tag_head (k : pystr) (c : ascii) (s : pystr) :
  c <> lbrace -> startswith (tag k) (c :: s) = false.
Proof.
  intros Hc. rewrite tag_unfold. cbn [startswith].
  destruct (Ascii.eqb lbrace c) eqn:E; [|reflexivity].
  apply Ascii.eqb_eq in E. congruence.
Qed.

(** Text without an opening brace is passed as it is. *)
Lemma replace_from_no_open (k new pre s : pystr) :
  no_open_brace pre ->
  replace_from (tag k) new 0 (pre ++ s) = pre ++ replace_from (tag k) new 0 s.
Proof.
  induction 1 as [|c pre Hc _ IH]; [reflexivity|].
  cbn [app]. rewrite replace_from_nomatch by now apply startswith_tag_head.
  now rewrite IH.
Qed.

Lemma key_startswith_inj (k k' s : pystr) :
  brace_free k -> brace_free k' ->
  startswith (k ++ [rbrace; rbrace]) (k' ++ [rbrace; rbrace] ++ s) = true ->
  k = k'.
Proof.
  intros Hk. revert k'. induction Hk as [|a k [_ Ha] _ IH]; intros k' Hk' H.
  - destruct Hk' as [|c k' [_ Hc] _]; [reflexivity|].
    cbn [app startswith] in H. apply andb_true_iff in H as [H _].
    apply Ascii.eqb_eq in H. congruence.
  - destruct Hk' as [|c k' _ Hk'].
    + cbn [app startswith] in H. apply andb_true_iff in H as [H _].
      apply Ascii.eqb_eq in H. congruence.
    + cbn [app startswith] in H. apply andb_true_iff in H as [H1 H2].
      apply Ascii.eqb_eq in H1. subst c. f_equal. now apply IH.
Qed.

Lemma tag_startswith_inj (k k' s : pystr) :
  brace_free k -> brace_free k' ->
  startswith (tag k) (tag k' ++ s) = true -> k = k'.
Proof.
  intros Hk Hk' H. rewrite !tag_unfold in H.
  cbn [app startswith] in H.
  apply andb_true_iff in H as [_ H]. apply andb_true_iff in H as [_ H].
  rewrite <- app_assoc in H. now apply key_startswith_inj in H.
Qed.

(** The tag of another key is passed as it is. *)
Lemma replace_from_other_tag (k k' new s : pystr) :
  brace_free k -> brace_free k' -> k <> k' ->
  replace_from (tag k) new 0 (tag k' ++ s) = tag k' ++ replace_from (tag k) new 0 s.
Proof.
  intros Hk Hk' Hne.
  assert (E0 : startswith (tag k) (tag k' ++ s) = false).
  { destruct (startswith (tag k) (tag k' ++ s)) eqn:E; [|reflexivity].
    apply tag_startswith_inj in E; [contradiction | assumption | assumption]. }
  assert (Hpre : no_open_brace (k' ++ [rbrace; rbrace])).
  { apply Forall_app. split; [now apply brace_free_no_open|].
    repeat constructor; discriminate. }
  rewrite (tag_unfold k') in *. cbn [app] in *.
  rewrite replace_from_nomatch by exact E0. f_equal.
  rewrite replace_from_nomatch.
  - f_equal. now apply replace_from_no_open.
  - rewrite tag_unfold. cbn [startswith]. rewrite Ascii.eqb_refl. cbn [andb].
    inversion Hpre as [E|c l Hc Hl E].
    + destruct k'; discriminate E.
    + cbn [app].
      destruct (Ascii.eqb lbrace c) eqn:Ec; [|reflexivity].
      apply Ascii.eqb_eq in Ec. congruence.
Qed.

Lemma replace_from_flatten (k new : pystr) (t : list segment) :
  brace_free k -> template_ok t ->
  replace_from (tag k) new 0 (flatten t) = flatten (map (fill_one k new) t).
Proof.
  intros Hk Ht. induction Ht as [|g t Hg _ IH]; [reflexivity|].
  unfold flatten in *. cbn [flat_map map]. destruct g as [s|k']; cbn [flatten_segment fill_one].
  - rewrite replace_from_no_open by exact Hg. now rewrite IH.
  - destruct (pystr_eq_dec k k') as [<-|Hne]; cbn [flatten_segment].
    + rewrite replace_from_match by apply tag_not_nil. now rewrite IH.
    + rewrite replace_from_other_tag by assumption. now rewrite IH.
Qed.

Lemma fill_one_ok (k new : pystr) (t : list segment) :
  no_open_brace new -> template_ok t -> template_ok (map (fill_one k new) t).
Proof.
  intros Hn Ht. induction Ht as [|g t Hg _ IH]; constructor; [|exact IH].
  destruct g as [s|k']; cbn; [exact Hg|].
  destruct (pystr_eq_dec k k'); [exact Hn | exact Hg].
Qed.

Lemma fill_segment_cons (k : pystr) (v : pyval) (rest : context) (g : segment) :
  fill_segment rest (fill_one k (py_str v) g) = fill_segment ((k, v) :: rest) g.
Proof.
  destruct g as [s|k']; cbn; [reflexivity|].
  destruct (pystr_eq_dec k k'); reflexivity.
Qed.

Lemma fill_segment_nil (g : segment) : fill_segment [] g = g.
Proof. destruct g; reflexivity. Qed.

Lemma replace_tags_flatten (ctx : context) :
  context_ok ctx ->
  forall t, template_ok t ->
  replace_tags ctx (flatten t) = flatten (map (fill_segment ctx) t).
Proof.
  induction 1 as [|[k v] ctx [Hk Hv] _ IH]; intros t Ht.
  - cbn [replace_tags]. f_equal. rewrite <- (map_id t) at 1.
    apply map_ext. intros g. now rewrite fill_segment_nil.
  - cbn [replace_tags fst snd] in *.
    rewrite str_replace_nonempty by apply tag_not_nil.
    rewrite replace_from_flatten by assumption.
    rewrite IH by now apply fill_one_ok.
    rewrite map_map. f_equal. apply map_ext. intros g. apply fill_segment_cons.
Qed.

Lemma render_lines_map (ctx : context) (ls acc : list pystr) :
  render_lines ctx ls acc = acc ++ map (replace_tags ctx) ls.
Proof.
  revert acc. induction ls as [|l ls IH]; intros acc; cbn [render_lines map].
  - now rewrite app_nil_r.
  - rewrite IH, <- app_assoc. reflexivity.
Qed.

(** *** Tags of other keys in any text *)

Lemma key_prefix_before_tag (k pre rest : pystr) :
  brace_free k ->
  startswith (k ++ [rbrace; rbrace]) (pre ++ lbrace :: lbrace :: rest) = true ->
  exists pre', pre = k ++ [rbrace; rbrace] ++ pre'.
Proof.
  intros Hk. revert pre. induction Hk as [|a k [Ha _] _ IH]; intros pre H.
  - destruct pre as [|x [|y pre]]; cbn [app startswith] in H.
    + apply andb_true_iff in H as [H _]. apply Ascii.eqb_eq in H. discriminate H.
    + apply andb_true_iff in H as [_ H]. apply andb_true_iff in H as [H _].
      apply Ascii.eqb_eq in H. discriminate H.
    + apply andb_true_iff in H as [Hx H]. apply andb_true_iff in H as [Hy _].
      apply Ascii.eqb_eq in Hx, Hy. subst x y. now exists pre.
  - destruct pre as [|x pre]; cbn [app startswith] in H;
      apply andb_true_iff in H as [Hx H]; apply Ascii.eqb_eq in Hx.
    + congruence.
    + subst x. destruct (IH pre H) as (pre' & ->). now exists pre'.
Qed.

(** A tag that starts before the tag of another key ends before it: the two
    do not overlap. *)
Lemma tag_before_tag (k k' pre post : pystr) :
  brace_free k -> brace_free k' -> pre <> [] ->
  startswith (tag k) (pre ++ tag k' ++ post) = true ->
  exists pre', pre = tag k ++ pre'.
Proof.
  intros Hk Hk' Hne H. rewrite (tag_unfold k), (tag_unfold k') in *.
  destruct pre as [|x [|y pre]]; [congruence| |]; cbn [app startswith] in H.
  - exfalso. apply andb_true_iff in H as [_ H]. apply andb_true_iff in H as [_ H].
    destruct Hk as [|a k [Ha _] _]; cbn [app startswith] in H;
      apply andb_true_iff in H as [H _]; apply Ascii.eqb_eq in H;
      [discriminate H | congruence].
  - apply andb_true_iff in H as [Hx H]. apply andb_true_iff in H as [Hy H].
    apply Ascii.eqb_eq in Hx, Hy. subst x y.
    destruct (@key_prefix_before_tag k pre _ Hk H) as (pre' & ->).
    exists pre'. cbn [app]. now rewrite <- app_assoc.
Qed.

Lemma occurs_app_l (old a s : pystr) : occurs old s -> occurs old (a ++ s).
Proof.
  intros (pre & post & ->). exists (a ++ pre), post. now rewrite <- app_assoc.
Qed.

(** Replacing the tags of one key keeps the tags of any other key. *)
Lemma replace_from_keeps_tag (k k' new : pystr) :
  brace_free k -> brace_free k' -> k <> k' ->
  forall n pre post,
    length pre <= n ->
    occurs (tag k') (replace_from (tag k) new 0 (pre ++ tag k' ++ post)).
Proof.
  intros Hk Hk' Hne. induction n as [|n IH]; intros pre post Hlen.
  - destruct pre; [|cbn in Hlen; lia]. cbn [app].
    rewrite replace_from_other_tag by assumption. now exists [], (replace_from (tag k) new 0 post).
  - destruct pre as [|c pre]; [apply IH; cbn; lia|].
    destruct (startswith (tag k) ((c :: pre) ++ tag k' ++ post)) eqn:E.
    + destruct (@tag_before_tag k k' (c :: pre) post Hk Hk') as (pre' & Hpre);
        [discriminate | exact E |].
      rewrite Hpre, <- app_assoc.
      rewrite replace_from_match by apply tag_not_nil.
      apply occurs_app_l, IH.
      apply (f_equal (@length ascii)) in Hpre.
      rewrite length_app, tag_unfold in Hpre. cbn [length] in Hpre, Hlen. lia.
    + cbn [app] in *. rewrite replace_from_nomatch by exact E.
      apply occurs_cons, IH. cbn [length] in Hlen. lia.
Qed.

Lemma replace_tags_keeps_tag (key : pystr) (ctx : context) :
  brace_free key ->
  Forall (fun kv => brace_free (fst kv) /\ fst kv <> key) ctx ->
  forall s, occurs (tag key) s -> occurs (tag key) (replace_tags ctx s).
Proof.
  intros Hkey. induction 1 as [|[k v] ctx [Hk Hne] _ IH]; intros s Hs; [exact Hs|].
  cbn [replace_tags fst] in *. apply IH.
  rewrite str_replace_nonempty by apply tag_not_nil.
  destruct Hs as (pre & post & ->).
  now apply replace_from_keeps_tag with (n := length pre).
Qed.

Lemma replace_tags_unrelated (ctx : context) (s : pystr) :
  (forall k v, In (k, v) ctx -> ~ occurs (tag k) s) -> replace_tags ctx s = s.
Proof.
  induction ctx as [|[k v] ctx IH]; intros H; cbn [replace_tags]; [reflexivity|].
  rewrite str_replace_absent by (apply (H k v); now left).
  apply IH. intros k' v' Hin. apply (H k' v'). now right.
Qed.

Lemma str_replace_whole (old new : pystr) : old <> [] -> str_replace old old new = new.
Proof.
  intros Hne. rewrite str_replace_nonempty by exact Hne.
  pose proof (replace_from_match new [] Hne) as E.
  rewrite app_nil_r in E. rewrite E. cbn [replace_from]. apply app_nil_r.
Qed.

(** *** A tag of an absent key stays where it is *)

Lemma startswith_more (old a b : pystr) :
  startswith old a = true -> startswith old (a ++ b) = true.
Proof.
  intros H. apply startswith_spec in H as [t ->]. rewrite <- app_assoc. apply startswith_app.
Qed.

(** Replacing the tags of one key passes the tag of another key where it
    is, the text before it and the text after it being scanned on their
    own. *)
Lemma replace_from_around_tag (k k' new : pystr) :
  brace_free k -> brace_free k' -> k <> k' ->
  forall n pre post,
    length pre <= n ->
    replace_from (tag k) new 0 (pre ++ tag k' ++ post)
    = replace_from (tag k) new 0 pre ++ tag k' ++ replace_from (tag k) new 0 post.
Proof.
  intros Hk Hk' Hne. induction n as [|n IH]; intros pre post Hlen.
  - destruct pre; [|cbn in Hlen; lia]. cbn [app replace_from].
    now apply replace_from_other_tag.
  - destruct pre as [|c pre]; [apply IH; cbn; lia|].
    destruct (startswith (tag k) ((c :: pre) ++ tag k' ++ post)) eqn:E.
    + destruct (@tag_before_tag k k' (c :: pre) post Hk Hk') as (pre' & Hpre);
        [discriminate | exact E |].
      rewrite Hpre, <- app_assoc.
      rewrite !(@replace_from_match (tag k) new _ (@tag_not_nil k)), <- app_assoc.
      f_equal. apply IH.
      apply (f_equal (@length ascii)) in Hpre.
      rewrite length_app, tag_unfold in Hpre. cbn [length] in Hpre, Hlen. lia.
    + assert (startswith (tag k) (c :: pre) = false) as E'.
      { destruct (startswith (tag k) (c :: pre)) eqn:E'; [|reflexivity].
        apply startswith_more with (b := tag k' ++ post) in E'. congruence. }
      cbn [app] in *. rewrite !replace_from_nomatch by assumption.
      cbn [app]. f_equal. apply IH. cbn [length] in Hlen. lia.
Qed.

Lemma replace_tags_around_tag (key : pystr) (ctx : context) :
  brace_free key ->
  Forall (fun kv => brace_free (fst kv) /\ fst kv <> key) ctx ->
  forall pre post,
    replace_tags ctx (pre ++ tag key ++ post)
    = replace_tags ctx pre ++ tag key ++ replace_tags ctx post.
Proof.
  intros Hkey. induction 1 as [|[k v] ctx [Hk Hne] _ IH]; intros pre post; [reflexivity|].
  cbn [replace_tags fst] in *.
  rewrite !str_replace_nonempty by apply tag_not_nil.
  rewrite (@replace_from_around_tag k key (py_str v) Hk Hkey Hne (length pre) pre post (le_n _)).
  apply IH.
Qed.

Lemma lookup_none (key : pystr) (ctx : context) :
  lookup key ctx = None -> Forall (fun kv => fst kv <> key) ctx.
Proof.
  induction ctx as [|[k v] ctx IH]; cbn [lookup]; [constructor|].
  destruct (pystr_eq_dec k key) as [->|Hne]; [discriminate|].
  intros H. constructor; [exact Hne | now apply IH].
Qed.

(** *** The claims on the renderer *)

(** C2, amended: for every text and every context the renderer raises no
    error and replaces, key after key in the context's order, all occurrences
    of the key's tag by the stringified value.  When the keys of the context
    hold no brace, a tag whose key holds no brace and is not in the context
    remains verbatim where it is, the text before it and the text after it
    being rendered on their own; when moreover no value and no literal text
    of the template holds an opening brace, the result is the template with
    every tag of a key of the context filled and the rest verbatim.  On a list
    of lines each line is rendered as the string case renders it, the number
    and the order of the lines being kept. *)
Theorem render_replaces_tags (ctx : context) :
  (forall s, exists r,
      render_string_or_list_with_tags (Str s) ctx = Str r /\
      renders ctx s r) /\
  (Forall (fun kv => brace_free (fst kv)) ctx ->
   forall key, brace_free key -> lookup key ctx = None ->
   forall pre post, exists rpre rpost,
     render_string_or_list_with_tags (Str pre) ctx = Str rpre /\
     render_string_or_list_with_tags (Str post) ctx = Str rpost /\
     render_string_or_list_with_tags (Str (pre ++ tag key ++ post)) ctx
     = Str (rpre ++ tag key ++ rpost)) /\
  (context_ok ctx ->
   forall t, template_ok t ->
     render_string_or_list_with_tags (Str (flatten t)) ctx
     = Str (flatten (map (fill_segment ctx) t))) /\
  (forall ls, exists out,
      render_string_or_list_with_tags (Lines ls) ctx = Lines out /\
      length out = length ls /\
      forall i, option_map Str (nth_error out i)
                = option_map (fun line => render_string_or_list_with_tags (Str line) ctx)
                    (nth_error ls i)).
Proof.
  split; [|split; [|split]].
  - intros s. exists (replace_tags ctx s). split; [reflexivity|].
    apply replace_tags_renders.
  - intros Hkeys key Hkey Habsent pre post.
    exists (replace_tags ctx pre), (replace_tags ctx post).
    split; [reflexivity|]. split; [reflexivity|].
    cbn [render_string_or_list_with_tags]. f_equal.
    apply replace_tags_around_tag; [exact Hkey|].
    apply lookup_none in Habsent. rewrite Forall_forall in *.
    intros kv Hin. split; [now apply Hkeys | now apply Habsent].
  - intros Hctx t Ht. cbn [render_string_or_list_with_tags].
    f_equal. now apply replace_tags_flatten.
  - intros ls. exists (map (replace_tags ctx) ls).
    cbn [render_string_or_list_with_tags].
    rewrite render_lines_map. cbn [app]. split; [reflexivity|].
    split; [apply length_map|].
    intros i. rewrite nth_error_map. now destruct (nth_error ls i).
Qed.

Lemma render_hello_example :
  render_string_or_list_with_tags
    (Str (lit "Hello {{name}}! {{missing}}")) [(lit "name", PStr (lit "X"))]
  = Str (lit "Hello X! {{missing}}").
Proof.
  refine (proj1 (proj2 (proj2 (render_replaces_tags [(lit "name", PStr (lit "X"))]))) _
            [Lit (lit "Hello "); Tag (lit "name"); Lit (lit "! "); Tag (lit "missing")] _).
  - repeat constructor; cbn; intros E; discriminate E.
  - repeat constructor; cbn; intros E; discriminate E.
Defined.

(** C2 as the spec states it fails where a key holds braces: the tag of the
    key [x}}{{m] is the text [{{x}}{{m}}], so rendering that text with the
    context [{x}}{{m: V}] gives [V], and the tags of [x] and of [m], keys that
    are not in the context, are gone. *)
Lemma render_absent_tag_counterexample :
  lookup (lit "x") [(lit "x}}{{m", PStr (lit "V"))] = None /\
  lookup (lit "m") [(lit "x}}{{m", PStr (lit "V"))] = None /\
  contains (tag (lit "x")) (lit "{{x}}{{m}}") = true /\
  contains (tag (lit "m")) (lit "{{x}}{{m}}") = true /\
  render_string_or_list_with_tags (Str (lit "{{x}}{{m}}")) [(lit "x}}{{m", PStr (lit "V"))]
  = Str (lit "V") /\
  contains (tag (lit "x")) (lit "V") = false /\
  contains (tag (lit "m")) (lit "V") = false.
Proof. repeat split; reflexivity. Qed.

(** C9: when no tag of the context occurs in the text, rendering returns the
    text as it is, so rendering it twice returns it too. *)
Theorem render_unrelated_is_identity (ctx : context) (t : text) :
  unrelated ctx t ->
  render_string_or_list_with_tags t ctx = t /\
  render_string_or_list_with_tags (render_string_or_list_with_tags t ctx) ctx = t.
Proof.
  intros H.
  assert (E : render_string_or_list_with_tags t ctx = t).
  { destruct t as [s|ls]; cbn [render_string_or_list_with_tags unrelated] in *.
    - f_equal. now apply replace_tags_unrelated.
    - f_equal. rewrite render_lines_map. cbn [app].
      rewrite <- (map_id ls) at 2. apply map_ext_in.
      intros line Hin. apply replace_tags_unrelated. now apply H. }
  split; [exact E | now rewrite E].
Qed.

Lemma render_unrelated_example :
  render_string_or_list_with_tags
    (Str (lit "Hello {{missing}}!")) [(lit "name", PStr (lit "X"))]
  = Str (lit "Hello {{missing}}!").
Proof.
  apply (render_unrelated_is_identity
           [(lit "name", PStr (lit "X"))] (Str (lit "Hello {{missing}}!"))).
  intros k v [E|[]]. injection E as <- <-.
  apply contains_false. vm_compute. reflexivity.
Defined.

(** C10: the substitutions are applied one after the other in the context's
    order.  The value put in for a key is itself rendered with the entries
    that follow, so a tag of a later key inside it is replaced too; the result
    can differ from that of simultaneous substitution and can depend on the
    order of the entries. *)
Theorem render_is_sequential :
  (forall k v rest,
      replace_tags ((k, v) :: rest) (tag k) = replace_tags rest (py_str v)) /\
  (forall k1 k2 v2,
      render_string_or_list_with_tags (Str (tag k1)) [(k1, PStr (tag k2)); (k2, v2)]
      = Str (py_str v2)) /\
  (exists s ctx ctx',
      Permutation ctx ctx' /\
      render_string_or_list_with_tags (Str s) ctx
        <> render_string_or_list_with_tags (Str s) ctx' /\
      render_string_or_list_with_tags (Str s) ctx <> Str (render_simultaneous ctx s)).
Proof.
  assert (Hseq : forall k v rest,
             replace_tags ((k, v) :: rest) (tag k) = replace_tags rest (py_str v)).
  { intros k v rest. cbn [replace_tags].
    now rewrite str_replace_whole by apply tag_not_nil. }
  split; [exact Hseq | split].
  - intros k1 k2 v2. cbn [render_string_or_list_with_tags]. f_equal.
    rewrite Hseq. cbn [py_str]. rewrite Hseq. reflexivity.
  - exists (lit "{{a}}"),
      [(lit "a", PStr (lit "{{b}}")); (lit "b", PStr (lit "X"))],
      [(lit "b", PStr (lit "X")); (lit "a", PStr (lit "{{b}}"))].
    split; [apply perm_swap|].
    split; intros E; vm_compute in E; discriminate E.
Qed.

(** *** The order of the entries *)

Lemma lookup_in (ctx : context) (key : pystr) (v : pyval) :
  NoDup (map fst ctx) -> (lookup key ctx = Some v <-> In (key, v) ctx).
Proof.
  induction ctx as [|[k w] ctx IH]; intros Hnd; cbn [lookup In map fst] in *.
  - split; [discriminate | tauto].
  - inversion Hnd as [|? ? Hk Hnd']; subst.
    destruct (pystr_eq_dec k key) as [->|Hne].
    + split.
      * intros [= ->]. now left.
      * intros [[= ->] | Hin]; [reflexivity|].
        exfalso. apply Hk. change key with (fst (key, v)). now apply in_map.
    + rewrite (IH Hnd'). split; [tauto|].
      intros [[= -> _] | Hin]; [contradiction | exact Hin].
Qed.

Lemma lookup_permutation (ctx ctx' : context) (key : pystr) :
  NoDup (map fst ctx) -> Permutation ctx ctx' -> lookup key ctx = lookup key ctx'.
Proof.
  intros Hnd Hperm.
  assert (NoDup (map fst ctx')) as Hnd'.
  { eapply Permutation_NoDup; [|exact Hnd]. now apply Permutation_map. }
  destruct (lookup key ctx) as [v|] eqn:E.
  - symmetry. apply (@lookup_in ctx' key v Hnd'), (Permutation_in _ Hperm), (@lookup_in ctx key v Hnd), E.
  - destruct (lookup key ctx') as [v|] eqn:E'; [|reflexivity].
    apply (@lookup_in ctx' key v Hnd'), (Permutation_in _ (Permutation_sym Hperm)),
      (@lookup_in ctx key v Hnd) in E'.
    congruence.
Qed.

(** X9: on a well-delimited template the order of the entries of the context
    does not matter: two contexts with the same entries, no key twice (as in
    a dictionary) and no opening brace in a value, render the template to the
    same text. *)
Theorem render_order_irrelevant_on_templates (ctx ctx' : context) (t : list segment) :
  context_ok ctx ->
  NoDup (map fst ctx) ->
  Permutation ctx ctx' ->
  template_ok t ->
  render_string_or_list_with_tags (Str (flatten t)) ctx
  = render_string_or_list_with_tags (Str (flatten t)) ctx'.
Proof.
  intros Hok Hnd Hperm Ht. cbn [render_string_or_list_with_tags]. f_equal.
  assert (context_ok ctx') as Hok'.
  { unfold context_ok in *. eapply Permutation_Forall; eassumption. }
  rewrite !replace_tags_flatten by assumption.
  f_equal. apply map_ext. intros [s|key]; cbn [fill_segment]; [reflexivity|].
  now rewrite (@lookup_permutation ctx ctx' key Hnd Hperm).
Qed.

Lemma render_order_example :
  render_string_or_list_with_tags
    (Str (flatten [Tag (lit "a"); Lit (lit " and "); Tag (lit "b")]))
    [(lit "a", PStr (lit "x}}")); (lit "b", PInt 2)]
  = render_string_or_list_with_tags
      (Str (flatten [Tag (lit "a"); Lit (lit " and "); Tag (lit "b")]))
      [(lit "b", PInt 2); (lit "a", PStr (lit "x}}"))].
Proof.
  apply (@render_order_irrelevant_on_templates
           [(lit "a", PStr (lit "x}}")); (lit "b", PInt 2)]
           [(lit "b", PInt 2); (lit "a", PStr (lit "x}}"))]
           [Tag (lit "a"); Lit (lit " and "); Tag (lit "b")]).
  - repeat constructor; cbn; repeat constructor; discriminate.
  - repeat constructor; cbn; intuition discriminate.
  - apply perm_swap.
  - repeat constructor; cbn; repeat constructor; discriminate.
Defined.

End Renderer.

(** ** Port allocation: [get_first_available_port] *)

Module Ports.
Import PyStr.

(** [s.bind((LOCALHOST_NAME, port))] takes a port of 0 to 65535; for any
    other number it raises [OverflowError], which is no [OSError]. *)
Definition valid_port (port : Z) : bool := ((0 <=? port) && (port <=? 65535))%Z.

Definition port_out_of_range : exn :=
  Exn OverflowError (lit "bind(): port must be 0-65535.").

Section Scan.

(** Whether [s.bind((LOCALHOST_NAME, port))] succeeds for a port of 0 to
    65535 when it is tried; when it does not, it raises [OSError]. *)
Variable bind_ok : Z -> bool.

(** The loop body in its [try]: a successful bind returns the port, an
    [OSError] is passed over and the next port is tried; the [OverflowError]
    of a number that is no port is not caught and ends the scan. *)
Fixpoint try_ports (ports : list Z) : res (option Z) :=
  match ports with
  | [] => inr None
  | port :: rest =>
      if valid_port port
      then if bind_ok port then inr (Some port) else try_ports rest
      else inl port_out_of_range
  end.

(** ["All ports from {} to {} are in use. Please close a port.".format(initial, final)] *)
Definition all_in_use (initial final : Z) : pystr :=
  lit "All ports from " ++ str_of_Z initial ++ lit " to " ++ str_of_Z final
  ++ lit " are in use. Please close a port.".

Definition get_first_available_port (initial final : Z) : res Z :=
  match try_ports (py_range initial final 1) with
  | inl e => inl e
  | inr (Some port) => inr port
  | inr None => inl (Exn OSError (all_in_use initial final))
  end.

(** The bind of [q] is tried and fails with [OSError]. *)
Definition in_use (q : Z) : Prop := valid_port q = true /\ bind_ok q = false.

Lemma py_range_step1 (initial final : Z) :
  py_range initial final 1 = range_from initial 1 (Z.to_nat (final - initial)).
Proof.
  unfold py_range. cbn [Z.ltb Z.compare]. do 2 f_equal.
  rewrite Z.div_1_r. lia.
Qed.

Lemma try_ports_some (n : nat) :
  forall start port,
    try_ports (range_from start 1 n) = inr (Some port) <->
    (start <= port < start + Z.of_nat n)%Z /\ valid_port port = true /\
    bind_ok port = true /\
    (forall q, (start <= q < port)%Z -> in_use q).
Proof.
  unfold in_use.
  induction n as [|n IH]; intros start port; cbn [range_from try_ports].
  - split; [discriminate | lia].
  - destruct (valid_port start) eqn:V.
    + destruct (bind_ok start) eqn:E.
      * split.
        -- intros [= <-]. split; [lia|]. split; [exact V|]. split; [exact E | lia].
        -- intros (Hr & Hv & Hp & Hq). do 2 f_equal.
           destruct (Z.eq_dec start port) as [|Hne]; [assumption|].
           destruct (Hq start) as [_ Hq']; [lia | congruence].
      * rewrite IH. split.
        -- intros (Hr & Hv & Hp & Hq). split; [lia|]. split; [exact Hv|].
           split; [exact Hp|].
           intros q Hq'. destruct (Z.eq_dec q start) as [->|]; [now split | apply Hq; lia].
        -- intros (Hr & Hv & Hp & Hq).
           assert (start <> port) by congruence.
           split; [lia|]. split; [exact Hv|]. split; [exact Hp | intros q Hq'; apply Hq; lia].
    + split; [discriminate|].
      intros (Hr & Hv & Hp & Hq).
      destruct (Z.eq_dec start port) as [->|Hne]; [congruence|].
      destruct (Hq start) as [Hq' _]; [lia | congruence].
Qed.

Lemma try_ports_none (n : nat) :
  forall start,
    try_ports (range_from start 1 n) = inr None <->
    (forall q, (start <= q < start + Z.of_nat n)%Z -> in_use q).
Proof.
  unfold in_use.
  induction n as [|n IH]; intros start; cbn [range_from try_ports].
  - split; [lia | reflexivity].
  - destruct (valid_port start) eqn:V.
    + destruct (bind_ok start) eqn:E.
      * split; [discriminate|]. intros H. destruct (H start) as [_ H']; [lia | congruence].
      * rewrite IH. split.
        -- intros H q Hq. destruct (Z.eq_dec q start) as [->|]; [now split | apply H; lia].
        -- intros H q Hq. apply H. lia.
    + split; [discriminate|]. intros H. destruct (H start) as [H' _]; [lia | congruence].
Qed.

Lemma try_ports_overflow (n : nat) :
  forall start e,
    try_ports (range_from start 1 n) = inl e <->
    e = port_out_of_range /\
    exists p, (start <= p < start + Z.of_nat n)%Z /\ valid_port p = false /\
              (forall q, (start <= q < p)%Z -> in_use q).
Proof.
  unfold in_use.
  induction n as [|n IH]; intros start e; cbn [range_from try_ports].
  - split; [discriminate | intros (_ & p & Hp & _); lia].
  - destruct (valid_port start) eqn:V.
    + destruct (bind_ok start) eqn:E.
      * split; [discriminate|]. intros (_ & p & Hr & Hv & Hq).
        destruct (Z.eq_dec start p) as [->|Hne]; [congruence|].
        destruct (Hq start) as [_ Hq']; [lia | congruence].
      * rewrite IH. split.
        -- intros (He & p & Hr & Hv & Hq). split; [exact He|].
           exists p. split; [lia|]. split; [exact Hv|].
           intros q Hq'. destruct (Z.eq_dec q start) as [->|]; [now split | apply Hq; lia].
        -- intros (He & p & Hr & Hv & Hq). split; [exact He|].
           assert (start <> p) by congruence.
           exists p. split; [lia|]. split; [exact Hv | intros q Hq'; apply Hq; lia].
    + split.
      * intros [= <-]. split; [reflexivity|]. exists start. split; [lia|]. split; [exact V | lia].
      * intros (-> & _). reflexivity.
Qed.

(** The outcomes of the scan, whatever the numbers of the range are. *)
Lemma get_first_available_port_found (initial final port : Z) :
  get_first_available_port initial final = inr port <->
  (initial <= port < final)%Z /\ valid_port port = true /\ bind_ok port = true /\
  (forall q, (initial <= q < port)%Z -> in_use q).
Proof.
  unfold get_first_available_port. rewrite py_range_step1.
  pose proof (try_ports_some (Z.to_nat (final - initial)) initial port) as H.
  destruct (try_ports (range_from initial 1 (Z.to_nat (final - initial)))) as [e|[p|]].
  - split; [discriminate|]. intros (Hr & Hrest).
    assert (E : @inl exn (option Z) e = inr (Some port)); [|discriminate E].
    apply H. split; [lia | exact Hrest].
  - split.
    + intros [= ->]. destruct (proj1 H eq_refl) as (Hr & Hrest). split; [lia | exact Hrest].
    + intros (Hr & Hrest). f_equal.
      assert (E : @inr exn (option Z) (Some p) = inr (Some port)); [|now injection E].
      apply H. split; [lia | exact Hrest].
  - split; [discriminate|]. intros (Hr & Hrest).
    assert (E : @inr exn (option Z) None = inr (Some port)); [|discriminate E].
    apply H. split; [lia | exact Hrest].
Qed.

Lemma get_first_available_port_exhausted (initial final : Z) :
  get_first_available_port initial final = inl (Exn OSError (all_in_use initial final)) <->
  (forall q, (initial <= q < final)%Z -> in_use q).
Proof.
  unfold get_first_available_port. rewrite py_range_step1.
  pose proof (try_ports_none (Z.to_nat (final - initial)) initial) as H.
  pose proof (try_ports_overflow (Z.to_nat (final - initial)) initial) as Ho.
  destruct (try_ports (range_from initial 1 (Z.to_nat (final - initial)))) as [e|[p|]].
  - destruct (proj1 (Ho e) eq_refl) as (-> & p & Hr & Hv & _).
    split; [discriminate|]. intros Hall.
    destruct (Hall p) as [Hv' _]; [lia | congruence].
  - split; [discriminate|]. intros Hall.
    assert (E : @inr exn (option Z) (Some p) = inr None); [|discriminate E].
    apply H. intros q Hq. apply Hall. lia.
  - split; [|reflexivity]. intros _ q Hq. apply (proj1 H eq_refl). lia.
Qed.

Lemma get_first_available_port_overflow (initial final : Z) :
  get_first_available_port initial final = inl port_out_of_range <->
  exists p, (initial <= p < final)%Z /\ valid_port p = false /\
            (forall q, (initial <= q < p)%Z -> in_use q).
Proof.
  unfold get_first_available_port. rewrite py_range_step1.
  pose proof (try_ports_overflow (Z.to_nat (final - initial)) initial) as Ho.
  destruct (try_ports (range_from initial 1 (Z.to_nat (final - initial)))) as [e|[p|]].
  - destruct (proj1 (Ho e) eq_refl) as (-> & p & Hr & Hv & Hq).
    split; [|reflexivity]. intros _. exists p. split; [lia | now split].
  - split; [discriminate|]. intros (q & Hr & Hv & Hq).
    assert (E : @inr exn (option Z) (Some p) = inl port_out_of_range); [|discriminate E].
    apply Ho. split; [reflexivity|]. exists q. split; [lia | now split].
  - split; [discriminate|]. intros (q & Hr & Hv & Hq).
    assert (E : @inr exn (option Z) None = inl port_out_of_range); [|discriminate E].
    apply Ho. split; [reflexivity|]. exists q. split; [lia | now split].
Qed.

Lemma valid_port_range (initial final q : Z) :
  (0 <= initial)%Z -> (final <= 65536)%Z -> (initial <= q < final)%Z -> valid_port q = true.
Proof. unfold valid_port. intros. apply andb_true_iff. split; apply Z.leb_le; lia. Qed.

(** C3, amended: on a range of port numbers, [0 <= initial] and
    [final <= 65536], the ports of [initial, final) are tried in increasing
    order and the first one that binds is returned, so the lowest free port
    of the range; when no port of the range binds, [OSError] is raised.  With
    7860 to 7864 taken and 7865 free, the scan from 7860 to 7960 returns 7865.
    A number outside 0 to 65535 is no port: on any range, when the scan
    reaches such a number before a port binds, the [OverflowError] of [bind]
    leaves the function. *)
Theorem get_first_available_port_lowest_free (initial final : Z) :
  ((0 <= initial)%Z -> (final <= 65536)%Z ->
   (forall port,
       get_first_available_port initial final = inr port <->
       (initial <= port < final)%Z /\ bind_ok port = true /\
       (forall q, (initial <= q < port)%Z -> bind_ok q = false)) /\
   (get_first_available_port initial final
    = inl (Exn OSError (all_in_use initial final)) <->
    (forall q, (initial <= q < final)%Z -> bind_ok q = false))) /\
  (get_first_available_port initial final = inl port_out_of_range <->
   exists p, (initial <= p < final)%Z /\ valid_port p = false /\
             (forall q, (initial <= q < p)%Z -> valid_port q = true /\ bind_ok q = false)) /\
  ((forall q, (7860 <= q < 7865)%Z -> bind_ok q = false) ->
   bind_ok 7865 = true ->
   get_first_available_port 7860 7960 = inr 7865%Z).
Proof.
  split; [|split].
  - intros Hlow Hhigh. split.
    + intros port. rewrite get_first_available_port_found. unfold in_use. split.
      * intros (Hr & _ & Hp & Hq). split; [exact Hr|]. split; [exact Hp|].
        intros q Hq'. now apply Hq.
      * intros (Hr & Hp & Hq). split; [exact Hr|].
        split; [apply valid_port_range with (initial := initial) (final := final); lia|]. split; [exact Hp|].
        intros q Hq'. split; [apply valid_port_range with (initial := initial) (final := final); lia | now apply Hq].
    + rewrite get_first_available_port_exhausted. unfold in_use. split.
      * intros H q Hq. now apply H.
      * intros H q Hq. split; [apply valid_port_range with (initial := initial) (final := final); lia | now apply H].
  - apply get_first_available_port_overflow.
  - intros Hbusy Hfree. apply get_first_available_port_found.
    split; [lia|]. split; [reflexivity|]. split; [exact Hfree|].
    intros q Hq. split; [apply valid_port_range with (initial := 7860%Z) (final := 7960%Z); lia | now apply Hbusy].
Qed.

End Scan.

Lemma port_7865_example :
  get_first_available_port (fun port => (7865 <=? port)%Z) 7860 7960 = inr 7865%Z.
Proof.
  apply (proj2 (proj2 (get_first_available_port_lowest_free
                         (fun port => (7865 <=? port)%Z) 7860 7960))).
  - intros q Hq. apply Z.leb_gt. lia.
  - reflexivity.
Defined.

(** C3 as the spec states it fails on a range that leaves the port numbers:
    with every port taken, the scan from 65530 to 65540 does not end in the
    [OSError] of a range in use; [bind] raises [OverflowError] at 65536 and
    that error leaves the function. *)
Lemma port_65536_counterexample :
  get_first_available_port (fun _ => false) 65530 65540
  = inl (Exn OverflowError (lit "bind(): port must be 0-65535.")).
Proof. reflexivity. Qed.

(** *** Starting the server: [start_simple_server] *)

Definition INITIAL_PORT_VALUE : Z := 7860.
Definition TRY_NUM_PORTS : Z := 100.

Section Start.

Variable bind_ok : Z -> bool.
(** The server object, and [serve_files_in_background(interface, port,
    directory_to_serve)] for the interface and the directory of the call:
    the server it starts, or what it raises. *)
Variable Httpd : Type.
Variable serve_files_in_background : Z -> res Httpd.

Definition start_simple_server : res (Z * Httpd) :=
  match get_first_available_port bind_ok INITIAL_PORT_VALUE
          (INITIAL_PORT_VALUE + TRY_NUM_PORTS) with
  | inl e => inl e
  | inr port =>
      match serve_files_in_background port with
      | inl e => inl e
      | inr httpd => inr (port, httpd)
      end
  end.

Lemma default_ports_found (port : Z) :
  get_first_available_port bind_ok 7860 7960 = inr port <->
  (7860 <= port < 7960)%Z /\ bind_ok port = true /\
  (forall q, (7860 <= q < port)%Z -> bind_ok q = false).
Proof.
  rewrite get_first_available_port_found. unfold in_use. split.
  - intros (Hr & _ & Hp & Hq). split; [exact Hr|]. split; [exact Hp|].
    intros q Hq'. now apply Hq.
  - intros (Hr & Hp & Hq). split; [exact Hr|].
    split; [apply valid_port_range with (initial := 7860%Z) (final := 7960%Z); lia|]. split; [exact Hp|].
    intros q Hq'. split; [apply valid_port_range with (initial := 7860%Z) (final := 7960%Z); lia | now apply Hq].
Qed.

Lemma default_ports_exhausted :
  (forall q, (7860 <= q < 7960)%Z -> bind_ok q = false) ->
  get_first_available_port bind_ok 7860 7960
  = inl (Exn OSError (all_in_use 7860 7960)).
Proof.
  intros Hall. apply get_first_available_port_exhausted.
  intros q Hq. split; [apply valid_port_range with (initial := 7860%Z) (final := 7960%Z); lia | now apply Hall].
Qed.

(** X13: [start_simple_server] returns a port and a server exactly when the
    port is the lowest of 7860 to 7959 that binds and the server was started
    on that very port; when none of these hundred ports binds it raises
    [OSError] with the text "All ports from 7860 to 7960 are in use. Please
    close a port.", whatever starting a server would have done. *)
Theorem start_simple_server_on_lowest_free_port :
  (forall port httpd,
      start_simple_server = inr (port, httpd) <->
      (7860 <= port < 7960)%Z /\ bind_ok port = true /\
      (forall q, (7860 <= q < port)%Z -> bind_ok q = false) /\
      serve_files_in_background port = inr httpd) /\
  ((forall q, (7860 <= q < 7960)%Z -> bind_ok q = false) ->
   start_simple_server
   = inl (Exn OSError (lit "All ports from 7860 to 7960 are in use. Please close a port."))).
Proof.
  unfold start_simple_server.
  change (INITIAL_PORT_VALUE + TRY_NUM_PORTS)%Z with 7960%Z.
  change INITIAL_PORT_VALUE with 7860%Z.
  split.
  - intros port httpd.
    destruct (get_first_available_port bind_ok 7860 7960) as [e|p] eqn:Hport.
    + split; [discriminate|]. intros (Hr & Hp & Hq & _).
      assert (get_first_available_port bind_ok 7860 7960 = inr port) as E
          by (apply default_ports_found; auto).
      congruence.
    + split.
      * destruct (serve_files_in_background p) as [e|h] eqn:Hserve; [discriminate|].
        intros [= <- <-].
        apply default_ports_found in Hport as (Hr & Hp & Hq). auto.
      * intros (Hr & Hp & Hq & Hserve).
        assert (get_first_available_port bind_ok 7860 7960 = inr port) as E
            by (apply default_ports_found; auto).
        assert (p = port) as -> by congruence.
        now rewrite Hserve.
  - intros Hall. now rewrite (default_ports_exhausted Hall).
Qed.

End Start.

End Ports.

(** ** JSON values, [json.dumps] and the lines of a text file *)

Module Json.
Import PyStr.

(** What [json.loads] returns and [json.dumps] accepts: [None], booleans,
    integers, strings, lists, and dictionaries with string keys in insertion
    order.  Floating-point numbers are left out. *)
#[warnings="-register-all"]
Inductive json : Type :=
| JNull
| JBool (b : bool)
| JInt (z : Z)
| JStr (s : pystr)
| JList (l : list json)
| JDict (d : list (pystr * json)).

Definition newline : ascii := "010"%char.
Definition dquote : ascii := "034"%char.
Definition backslash : ascii := "\"%char.

(** [d[key]] on the items of a dictionary. *)
Fixpoint assoc (key : pystr) (d : list (pystr * json)) : option json :=
  match d with
  | [] => None
  | (k, v) :: rest => if pystr_eqb k key then Some v else assoc key rest
  end.

(** [repr(key)], as [str(KeyError(key))] shows it. *)
Definition py_repr (key : pystr) : pystr := lit "'" ++ key ++ lit "'".

(** [obj[key]] with a string key: [KeyError] on a dictionary without the
    key, [TypeError] on anything that is not a dictionary. *)
Definition getitem (obj : json) (key : pystr) : res json :=
  match obj with
  | JDict d =>
      match assoc key d with
      | Some v => inr v
      | None => inl (Exn KeyError (py_repr key))
      end
  | _ => inl (Exn TypeError (lit "indices must be integers or the object is not subscriptable"))
  end.

(** [d[key] = value]: the value of a key already there is replaced in place,
    a new key goes to the end. *)
Fixpoint setitem (d : list (pystr * json)) (key : pystr) (value : json)
  : list (pystr * json) :=
  match d with
  | [] => [(key, value)]
  | (k, v) :: rest =>
      if pystr_eqb k key then (k, value) :: rest
      else (k, v) :: setitem rest key value
  end.

Definition hex_digit (n : N) : ascii :=
  nth (N.to_nat n) (lit "0123456789abcdef") "0"%char.

(** One character of a string as [json.dumps] writes it ([ensure_ascii] is
    on): the short escapes, the printable ASCII characters as they are, and
    [\u00XX] for the others. *)
Definition escape_char (c : ascii) : pystr :=
  let n := N_of_ascii c in
  if Ascii.eqb c backslash then [backslash; backslash]
  else if Ascii.eqb c dquote then [backslash; dquote]
  else if Ascii.eqb c "008"%char then [backslash; "b"%char]
  else if Ascii.eqb c "012"%char then [backslash; "f"%char]
  else if Ascii.eqb c newline then [backslash; "n"%char]
  else if Ascii.eqb c "013"%char then [backslash; "r"%char]
  else if Ascii.eqb c "009"%char then [backslash; "t"%char]
  else if ((32 <=? n) && (n <=? 126))%N then [c]
  else lit "\u00" ++ [hex_digit (n / 16); hex_digit (n mod 16)].

Definition encode_string (s : pystr) : pystr :=
  dquote :: flat_map escape_char s ++ [dquote].

(** [json.dumps(obj)] with the default separators and no indentation. *)
Fixpoint json_dumps (obj : json) : pystr :=
  match obj with
  | JNull => lit "null"
  | JBool true => lit "true"
  | JBool false => lit "false"
  | JInt z => str_of_Z z
  | JStr s => encode_string s
  | JList l => lit "[" ++ join (lit ", ") (map json_dumps l) ++ lit "]"
  | JDict d =>
      lit "{"
      ++ join (lit ", ")
           (map (fun kv => encode_string (fst kv) ++ lit ": " ++ json_dumps (snd kv)) d)
      ++ lit "}"
  end.

(** The lines of a text, without their terminators, as iterating over the
    open file gives them. *)
Fixpoint read_lines (s : pystr) : list pystr :=
  match s with
  | [] => []
  | c :: s' =>
      if Ascii.eqb c newline then [] :: read_lines s'
      else match read_lines s' with
           | [] => [[c]]
           | l :: ls => (c :: l) :: ls
           end
  end.

(** A text that holds no newline. *)
Definition one_line (s : pystr) : Prop := ~ In newline s.

(** *** Reading JSON back

    [json.loads] on texts of this fragment: the scanner of the [json]
    module, strict about control characters in strings and about leading
    zeros.  A text that needs a float or a character above 255 is outside the
    fragment and gives [None], as a malformed text does. *)

Definition is_ws (c : ascii) : bool :=
  Ascii.eqb c " "%char || Ascii.eqb c "009"%char || Ascii.eqb c newline
  || Ascii.eqb c "013"%char.

Fixpoint skip_ws (s : pystr) : pystr :=
  match s with
  | [] => []
  | c :: s' => if is_ws c then skip_ws s' else s
  end.

Definition is_digit (c : ascii) : bool :=
  let n := N_of_ascii c in ((48 <=? n) && (n <=? 57))%N.

(** The digits a text starts with, and what follows them. *)
Fixpoint span_digits (s : pystr) : pystr * pystr :=
  match s with
  | [] => ([], [])
  | c :: s' =>
      if is_digit c
      then let (ds, rest) := span_digits s' in (c :: ds, rest)
      else ([], s)
  end.

(** The integer part of a JSON number: [0], or digits that do not start
    with [0]. *)
Definition valid_digits (ds : pystr) : bool :=
  match ds with
  | [] => false
  | c :: rest =>
      match rest with
      | [] => true
      | _ :: _ => negb (Ascii.eqb c "0"%char)
      end
  end.

Definition parse_digits (negative : bool) (s : pystr) : option (json * pystr) :=
  let (ds, rest) := span_digits s in
  if valid_digits ds
  then match NilEmpty.uint_of_string (string_of_list_ascii ds) with
       | Some d =>
           Some (JInt (Z.of_int (if negative then Decimal.Neg d else Decimal.Pos d)), rest)
       | None => None
       end
  else None.

Definition parse_int (s : pystr) : option (json * pystr) :=
  match s with
  | [] => None
  | c :: s' => if Ascii.eqb c "-"%char then parse_digits true s' else parse_digits false s
  end.

Definition hex_value (c : ascii) : option N :=
  let n := N_of_ascii c in
  if ((48 <=? n) && (n <=? 57))%N then Some (n - 48)%N
  else if ((97 <=? n) && (n <=? 102))%N then Some (n - 87)%N
  else if ((65 <=? n) && (n <=? 70))%N then Some (n - 55)%N
  else None.

(** The character a [\uXXXX] escape stands for, when it is below 256. *)
Definition unicode_escape (h1 h2 h3 h4 : ascii) : option ascii :=
  match hex_value h1, hex_value h2, hex_value h3, hex_value h4 with
  | Some a, Some b, Some c, Some d =>
      let n := (((a * 16 + b) * 16 + c) * 16 + d)%N in
      if (n <? 256)%N then Some (ascii_of_N n) else None
  | _, _, _, _ => None
  end.

(** The character a short escape stands for. *)
Definition short_escape (e : ascii) : option ascii :=
  if Ascii.eqb e dquote then Some dquote
  else if Ascii.eqb e backslash then Some backslash
  else if Ascii.eqb e "/"%char then Some "/"%char
  else if Ascii.eqb e "b"%char then Some "008"%char
  else if Ascii.eqb e "f"%char then Some "012"%char
  else if Ascii.eqb e "n"%char then Some newline
  else if Ascii.eqb e "r"%char then Some "013"%char
  else if Ascii.eqb e "t"%char then Some "009"%char
  else None.

(** The characters of a string up to its closing quote, [acc] holding those
    read so far, last first. *)
Fixpoint parse_chars (s acc : pystr) : option (pystr * pystr) :=
  match s with
  | [] => None
  | c :: s1 =>
      if Ascii.eqb c dquote then Some (rev acc, s1)
      else if Ascii.eqb c backslash then
        match s1 with
        | [] => None
        | e :: s2 =>
            if Ascii.eqb e "u"%char then
              match s2 with
              | h1 :: h2 :: h3 :: h4 :: s3 =>
                  match unicode_escape h1 h2 h3 h4 with
                  | Some x => parse_chars s3 (x :: acc)
                  | None => None
                  end
              | _ => None
              end
            else match short_escape e with
                 | Some x => parse_chars s2 (x :: acc)
                 | None => None
                 end
        end
      else if (N_of_ascii c <? 32)%N then None
      else parse_chars s1 (c :: acc)
  end.

(** The rest of a keyword is expected next; [v] is the keyword's value. *)
Definition keyword (kw : pystr) (v : json) (s : pystr) : option (json * pystr) :=
  if startswith kw s then Some (v, skipn (length kw) s) else None.

(** The items of a list after its first bracket, [pv] reading a value. *)
Fixpoint parse_items (pv : pystr -> option (json * pystr)) (n : nat)
    (s : pystr) (acc : list json) : option (list json * pystr) :=
  match n with
  | O => None
  | S n' =>
      match pv s with
      | None => None
      | Some (v, rest) =>
          match skip_ws rest with
          | [] => None
          | c :: rest' =>
              if Ascii.eqb c ","%char then parse_items pv n' rest' (v :: acc)
              else if Ascii.eqb c "]"%char then Some (rev (v :: acc), rest')
              else None
          end
      end
  end.

(** The members of a dictionary after its first brace. *)
Fixpoint parse_members (pv : pystr -> option (json * pystr)) (n : nat)
    (s : pystr) (acc : list (pystr * json)) : option (list (pystr * json) * pystr) :=
  match n with
  | O => None
  | S n' =>
      match skip_ws s with
      | [] => None
      | c :: s1 =>
          if Ascii.eqb c dquote then
            match parse_chars s1 [] with
            | None => None
            | Some (key, s2) =>
                match skip_ws s2 with
                | [] => None
                | c2 :: s3 =>
                    if Ascii.eqb c2 ":"%char then
                      match pv s3 with
                      | None => None
                      | Some (v, s4) =>
                          match skip_ws s4 with
                          | [] => None
                          | c3 :: s5 =>
                              if Ascii.eqb c3 ","%char
                              then parse_members pv n' s5 (setitem acc key v)
                              else if Ascii.eqb c3 "}"%char
                                   then Some (setitem acc key v, s5)
                                   else None
                          end
                      end
                    else None
                end
            end
          else None
      end
  end.

Definition with_rest {A B : Type} (f : A -> B) (r : option (A * pystr)) : option (B * pystr) :=
  match r with
  | Some (a, rest) => Some (f a, rest)
  | None => None
  end.

(** A value and the text after it; [fuel] bounds the nesting and the number
    of items. *)
Fixpoint parse_value (fuel : nat) (s : pystr) : option (json * pystr) :=
  match fuel with
  | O => None
  | S f =>
      match skip_ws s with
      | [] => None
      | c :: rest =>
          if Ascii.eqb c "n"%char then keyword (lit "ull") JNull rest
          else if Ascii.eqb c "t"%char then keyword (lit "rue") (JBool true) rest
          else if Ascii.eqb c "f"%char then keyword (lit "alse") (JBool false) rest
          else if Ascii.eqb c dquote then with_rest JStr (parse_chars rest [])
          else if Ascii.eqb c "["%char then
            match skip_ws rest with
            | [] => None
            | c' :: rest' =>
                if Ascii.eqb c' "]"%char then Some (JList [], rest')
                else with_rest JList (parse_items (parse_value f) f rest [])
            end
          else if Ascii.eqb c "{"%char then
            match skip_ws rest with
            | [] => None
            | c' :: rest' =>
                if Ascii.eqb c' "}"%char then Some (JDict [], rest')
                else with_rest JDict (parse_members (parse_value f) f rest [])
            end
          else parse_int (c :: rest)
      end
  end.

(** [json.loads(s)]: a value, with nothing but white space after it. *)
Definition json_loads (s : pystr) : option json :=
  match parse_value (length s) s with
  | Some (v, rest) =>
      match skip_ws rest with
      | [] => Some v
      | _ :: _ => None
      end
  | None => None
  end.

(** The number of values in a value. *)
Fixpoint size (obj : json) : nat :=
  match obj with
  | JList l => S (list_sum (map size l))
  | JDict d => S (list_sum (map (fun kv => size (snd kv)) d))
  | _ => 1
  end.

Lemma json_induction (P : json -> Prop) :
  P JNull ->
  (forall b, P (JBool b)) ->
  (forall z, P (JInt z)) ->
  (forall s, P (JStr s)) ->
  (forall l, Forall P l -> P (JList l)) ->
  (forall d, Forall (fun kv => P (snd kv)) d -> P (JDict d)) ->
  forall j, P j.
Proof.
  intros Hnull Hbool Hint Hstr Hlist Hdict.
  fix IH 1. intros [|b|z|s|l|d].
  - exact Hnull.
  - apply Hbool.
  - apply Hint.
  - apply Hstr.
  - apply Hlist. induction l as [|x l IHl]; constructor; [apply IH | exact IHl].
  - apply Hdict. induction d as [|[k v] d IHd]; constructor; [apply IH | exact IHd].
Qed.

Lemma one_line_app (a b : pystr) : one_line (a ++ b) <-> one_line a /\ one_line b.
Proof.
  unfold one_line. rewrite in_app_iff. tauto.
Qed.

Lemma one_line_forallb (s : pystr) :
  forallb (fun c => negb (Ascii.eqb c newline)) s = true -> one_line s.
Proof.
  intros H Hin. rewrite forallb_forall in H. specialize (H _ Hin).
  now rewrite Ascii.eqb_refl in H.
Qed.

Lemma escape_char_one_line (c : ascii) : one_line (escape_char c).
Proof.
  apply one_line_forallb.
  destruct c as [[|] [|] [|] [|] [|] [|] [|] [|]]; reflexivity.
Qed.

Lemma encode_string_one_line (s : pystr) : one_line (encode_string s).
Proof.
  unfold encode_string.
  change (dquote :: flat_map escape_char s ++ [dquote])
    with ([dquote] ++ flat_map escape_char s ++ [dquote]).
  rewrite !one_line_app. split; [|split].
  - apply one_line_forallb. reflexivity.
  - induction s as [|c s IH]; cbn [flat_map]; [intros []|].
    rewrite one_line_app. split; [apply escape_char_one_line | exact IH].
  - apply one_line_forallb. reflexivity.
Qed.

Lemma string_of_uint_one_line (d : Decimal.uint) :
  one_line (lit (NilEmpty.string_of_uint d)).
Proof.
  induction d; cbn [NilEmpty.string_of_uint lit list_ascii_of_string];
    [intros [] | intros [E|Hin]; [discriminate E | now apply IHd] ..].
Qed.

Lemma str_of_Z_one_line (z : Z) : one_line (str_of_Z z).
Proof.
  unfold str_of_Z, NilZero.string_of_int.
  destruct (Z.to_int z) as [d|d]; unfold NilZero.string_of_uint.
  - destruct d; try apply (string_of_uint_one_line (_ _)).
    apply one_line_forallb. reflexivity.
  - cbn [lit list_ascii_of_string].
    intros [E|Hin]; [discriminate E|]. revert Hin.
    destruct d; try apply (string_of_uint_one_line (_ _)).
    apply one_line_forallb. reflexivity.
Qed.

Lemma join_one_line (sep : pystr) (parts : list pystr) :
  one_line sep -> Forall one_line parts -> one_line (join sep parts).
Proof.
  intros Hsep H. induction H as [|p rest Hp Hrest IH]; [intros []|].
  cbn [join]. destruct rest as [|q rest]; [exact Hp|].
  rewrite !one_line_app. auto.
Qed.

(** [json.dumps] never writes a newline: a record stays on its line. *)
Lemma json_dumps_one_line (obj : json) : one_line (json_dumps obj).
Proof.
  induction obj as [|b|z|s|l IH|d IH] using json_induction; cbn [json_dumps].
  - apply one_line_forallb. reflexivity.
  - destruct b; apply one_line_forallb; reflexivity.
  - apply str_of_Z_one_line.
  - apply encode_string_one_line.
  - rewrite !one_line_app. split; [|split]; try (apply one_line_forallb; reflexivity).
    apply join_one_line; [apply one_line_forallb; reflexivity|].
    induction IH; constructor; assumption.
  - rewrite !one_line_app. split; [|split]; try (apply one_line_forallb; reflexivity).
    apply join_one_line; [apply one_line_forallb; reflexivity|].
    induction IH as [|kv d Hkv _ IHd]; constructor; [|exact IHd].
    rewrite !one_line_app. split; [apply encode_string_one_line|].
    split; [apply one_line_forallb; reflexivity | exact Hkv].
Qed.

(** *** What [json.dumps] writes, [json.loads] reads *)

(** The text after a number does not go on with a digit. *)
Definition delimited (rest : pystr) : Prop :=
  match rest with
  | [] => True
  | c :: _ => is_digit c = false
  end.

(** A line [json.loads] reads. *)
Definition parseable (line : pystr) : Prop := exists obj, json_loads line = Some obj.

Lemma string_of_uint_digits (d : Decimal.uint) :
  Forall (fun c => is_digit c = true) (lit (NilEmpty.string_of_uint d)).
Proof.
  induction d; cbn [NilEmpty.string_of_uint lit list_ascii_of_string];
    constructor; (reflexivity || assumption).
Qed.

Lemma span_digits_app (ds rest : pystr) :
  Forall (fun c => is_digit c = true) ds -> delimited rest ->
  span_digits (ds ++ rest) = (ds, rest).
Proof.
  intros Hds Hrest. induction Hds as [|c ds Hc _ IH]; cbn [app span_digits].
  - destruct rest as [|c rest]; [reflexivity|]. cbn [span_digits delimited] in *.
    now rewrite Hrest.
  - now rewrite Hc, IH.
Qed.

Lemma nzhead_not_zero (d : Decimal.uint) :
  match Decimal.nzhead d with
  | Decimal.D0 _ => False
  | _ => True
  end.
Proof. induction d; cbn [Decimal.nzhead]; auto. Qed.

Lemma valid_digits_nzhead (d : Decimal.uint) :
  Decimal.nzhead d = d -> d <> Decimal.Nil ->
  valid_digits (lit (NilEmpty.string_of_uint d)) = true.
Proof.
  intros E Hne. pose proof (nzhead_not_zero d) as H. rewrite E in H.
  destruct d as [|d|d|d|d|d|d|d|d|d|d]; try contradiction; try congruence;
    cbn [NilEmpty.string_of_uint lit list_ascii_of_string valid_digits];
    now destruct (list_ascii_of_string (NilEmpty.string_of_uint d)).
Qed.

Lemma valid_digits_unorm (d : Decimal.uint) :
  Decimal.unorm d = d -> valid_digits (lit (NilEmpty.string_of_uint d)) = true.
Proof.
  intros E. unfold Decimal.unorm in E.
  destruct (Decimal.nzhead d) eqn:Hz; try (subst d; reflexivity);
    rewrite <- Hz in E; (apply valid_digits_nzhead; [exact E | rewrite <- E, Hz; discriminate]).
Qed.

Lemma parse_digits_uint (negative : bool) (d : Decimal.uint) (rest : pystr) :
  valid_digits (lit (NilEmpty.string_of_uint d)) = true ->
  delimited rest ->
  exists v, parse_digits negative (lit (NilEmpty.string_of_uint d) ++ rest) = Some (v, rest).
Proof.
  intros Hvalid Hrest. unfold parse_digits.
  rewrite (@span_digits_app _ rest (string_of_uint_digits d) Hrest), Hvalid.
  unfold lit. rewrite string_of_list_ascii_of_string, NilEmpty.usu. eauto.
Qed.

Lemma to_int_norm (z : Z) : Decimal.norm (Z.to_int z) = Z.to_int z.
Proof. now rewrite <- DecimalZ.to_of, DecimalZ.of_to. Qed.

Lemma parse_int_dumps (z : Z) (rest : pystr) :
  delimited rest -> exists v, parse_int (str_of_Z z ++ rest) = Some (v, rest).
Proof.
  intros Hrest. unfold str_of_Z, NilZero.string_of_int.
  pose proof (to_int_norm z) as Hnorm.
  destruct (Z.to_int z) as [d|d]; cbn [Decimal.norm] in Hnorm.
  - injection Hnorm as Hnorm. pose proof (valid_digits_unorm Hnorm) as Hvalid.
    assert (E : NilZero.string_of_uint d = NilEmpty.string_of_uint d).
    { unfold NilZero.string_of_uint. destruct d; try reflexivity.
      unfold Decimal.unorm in Hnorm. discriminate Hnorm. }
    rewrite E. destruct (@parse_digits_uint false d rest Hvalid Hrest) as (v & Hv).
    exists v. rewrite <- Hv. unfold parse_int.
    pose proof (string_of_uint_digits d) as Hd.
    destruct (lit (NilEmpty.string_of_uint d)) as [|c ds] eqn:Es; [discriminate Hvalid|].
    cbn [app]. inversion Hd as [|? ? Hc _]; subst.
    destruct c as [[|] [|] [|] [|] [|] [|] [|] [|]]; try discriminate Hc; reflexivity.
  - assert (Hz : Decimal.nzhead d = d /\ d <> Decimal.Nil).
    { destruct (Decimal.nzhead d) eqn:Hz; try discriminate Hnorm;
        injection Hnorm as <-; split; (reflexivity || discriminate). }
    destruct Hz as [Hz Hne]. pose proof (valid_digits_nzhead Hz Hne) as Hvalid.
    assert (E : NilZero.string_of_uint d = NilEmpty.string_of_uint d).
    { unfold NilZero.string_of_uint. destruct d; try reflexivity. congruence. }
    rewrite E. destruct (@parse_digits_uint true d rest Hvalid Hrest) as (v & Hv).
    exists v. rewrite <- Hv. reflexivity.
Qed.

Lemma parse_chars_escape (c : ascii) (rest acc : pystr) :
  parse_chars (escape_char c ++ rest) acc = parse_chars rest (c :: acc).
Proof.
  destruct c as [[|] [|] [|] [|] [|] [|] [|] [|]]; reflexivity.
Qed.

Lemma parse_chars_encoded (s rest acc : pystr) :
  parse_chars (flat_map escape_char s ++ dquote :: rest) acc = Some (rev acc ++ s, rest).
Proof.
  revert acc. induction s as [|c s IH]; intros acc.
  - cbn [flat_map app parse_chars]. rewrite Ascii.eqb_refl. now rewrite app_nil_r.
  - cbn [flat_map]. rewrite <- app_assoc, parse_chars_escape, IH.
    cbn [rev]. now rewrite <- app_assoc.
Qed.

Lemma parse_chars_key (key rest : pystr) :
  parse_chars (flat_map escape_char key ++ [dquote] ++ rest) [] = Some (key, rest).
Proof. apply (parse_chars_encoded key rest []). Qed.

Lemma number_start (c : ascii) :
  is_digit c = true \/ c = "-"%char ->
  is_ws c = false /\ Ascii.eqb c "]"%char = false /\
  forall f t, parse_value (S f) (c :: t) = parse_int (c :: t).
Proof.
  destruct c as [[|] [|] [|] [|] [|] [|] [|] [|]]; intros [H|H];
    try discriminate H; repeat split; reflexivity.
Qed.

Lemma str_of_Z_head (z : Z) :
  exists c t, str_of_Z z = c :: t /\ (is_digit c = true \/ c = "-"%char).
Proof.
  unfold str_of_Z, NilZero.string_of_int, NilZero.string_of_uint.
  destruct (Z.to_int z) as [d|d].
  - destruct d; cbn [NilEmpty.string_of_uint lit list_ascii_of_string];
      eexists; eexists; (split; [reflexivity | left; reflexivity]).
  - cbn [lit list_ascii_of_string]. eexists. eexists. split; [reflexivity | now right].
Qed.

(** A value's text starts with a character that is no white space and no
    closing bracket. *)
Lemma json_dumps_head (obj : json) :
  exists c t, json_dumps obj = c :: t /\ is_ws c = false /\ Ascii.eqb c "]"%char = false.
Proof.
  destruct obj as [|[|]|z|s|l|d]; cbn [json_dumps encode_string lit list_ascii_of_string app];
    try (eexists; eexists; repeat split; reflexivity).
  destruct (str_of_Z_head z) as (c & t & E & Hc).
  exists c, t. split; [exact E|]. destruct (number_start Hc) as (Hws & Hbr & _). now split.
Qed.

Lemma join_head (sep p : pystr) (ps : list pystr) :
  exists tail, join sep (p :: ps) = p ++ tail.
Proof.
  cbn [join]. destruct ps; [exists []; now rewrite app_nil_r | eauto].
Qed.

Lemma parse_value_space (f : nat) (s : pystr) :
  parse_value f (" "%char :: s) = parse_value f s.
Proof. destruct f; reflexivity. Qed.

Lemma parse_items_space (pv : pystr -> option (json * pystr)) (n : nat)
    (s : pystr) (acc : list json) :
  (forall t, pv (" "%char :: t) = pv t) ->
  parse_items pv n (" "%char :: s) acc = parse_items pv n s acc.
Proof. intros H. destruct n; cbn [parse_items]; [reflexivity | now rewrite H]. Qed.

(** How a value [x] is read by [pv], whatever follows it. *)
Definition reads (pv : pystr -> option (json * pystr)) (x : json) : Prop :=
  forall rest, delimited rest -> exists v, pv (json_dumps x ++ rest) = Some (v, rest).

Lemma parse_items_dumps (pv : pystr -> option (json * pystr)) (l : list json) :
  (forall t, pv (" "%char :: t) = pv t) ->
  Forall (reads pv) l -> l <> [] ->
  forall n rest acc,
    length l <= n ->
    exists vs,
      parse_items pv n (join (lit ", ") (map json_dumps l) ++ "]"%char :: rest) acc
      = Some (vs, rest).
Proof.
  intros Hspace Hl. induction Hl as [|x l Hx Hl IH]; intros Hne n rest acc Hn; [congruence|].
  destruct n as [|n]; [cbn in Hn; lia|].
  cbn [map join]. destruct l as [|y l].
  - cbn [map parse_items]. destruct (Hx ("]"%char :: rest) eq_refl) as (v & ->).
    eexists. reflexivity.
  - change (map json_dumps (y :: l)) with (json_dumps y :: map json_dumps l).
    cbv iota. rewrite <- !app_assoc. cbn [parse_items].
    destruct (Hx (lit ", " ++ join (lit ", ") (json_dumps y :: map json_dumps l)
                    ++ "]"%char :: rest) eq_refl) as (v & ->).
    cbn [lit list_ascii_of_string app skip_ws].
    change (is_ws ","%char) with false. cbv iota.
    change (Ascii.eqb ","%char ","%char) with true. cbv iota.
    rewrite parse_items_space by exact Hspace.
    apply (IH ltac:(discriminate) n rest (v :: acc)). cbn [length] in *. lia.
Qed.

Lemma parse_members_space (pv : pystr -> option (json * pystr)) (n : nat)
    (s : pystr) (acc : list (pystr * json)) :
  parse_members pv n (" "%char :: s) acc = parse_members pv n s acc.
Proof. destruct n; reflexivity. Qed.

Lemma encode_string_app (k t : pystr) :
  encode_string k ++ t = dquote :: flat_map escape_char k ++ [dquote] ++ t.
Proof. unfold encode_string. cbn [app]. now rewrite <- app_assoc. Qed.

Lemma parse_members_dumps (pv : pystr -> option (json * pystr)) (d : list (pystr * json)) :
  (forall t, pv (" "%char :: t) = pv t) ->
  Forall (fun kv => reads pv (snd kv)) d -> d <> [] ->
  forall n rest acc,
    length d <= n ->
    exists ms,
      parse_members pv n
        (join (lit ", ")
           (map (fun kv => encode_string (fst kv) ++ lit ": " ++ json_dumps (snd kv)) d)
         ++ "}"%char :: rest) acc
      = Some (ms, rest).
Proof.
  intros Hspace Hd. induction Hd as [|[k x] d Hx Hd IH]; intros Hne n rest acc Hn; [congruence|].
  destruct n as [|n]; [cbn in Hn; lia|].
  cbn [map join fst snd] in *. destruct d as [|[k' y] d].
  - cbn [map]. rewrite <- !app_assoc, encode_string_app.
    cbn [parse_members skip_ws]. change (is_ws dquote) with false. cbv iota.
    rewrite Ascii.eqb_refl, parse_chars_key.
    cbn [lit list_ascii_of_string app skip_ws].
    change (is_ws ":"%char) with false. cbv iota.
    change (Ascii.eqb ":"%char ":"%char) with true. cbv iota.
    rewrite Hspace. destruct (Hx ("}"%char :: rest) eq_refl) as (v & ->).
    eexists. reflexivity.
  - set (more := map (fun kv => encode_string (fst kv) ++ lit ": " ++ json_dumps (snd kv))
                   ((k', y) :: d)) in *.
    assert (Hmore : exists m ms, more = m :: ms) by (subst more; cbn [map]; eauto).
    destruct Hmore as (m & ms & Em). rewrite Em. cbv iota. rewrite <- Em.
    rewrite <- !app_assoc, encode_string_app.
    cbn [parse_members skip_ws]. change (is_ws dquote) with false. cbv iota.
    rewrite Ascii.eqb_refl, parse_chars_key.
    cbn [lit list_ascii_of_string app skip_ws].
    change (is_ws ":"%char) with false. cbv iota.
    change (Ascii.eqb ":"%char ":"%char) with true. cbv iota.
    rewrite Hspace.
    destruct (Hx (","%char :: " "%char :: join [","%char; " "%char] more ++ "}"%char :: rest)
                eq_refl) as (v & ->).
    cbn [skip_ws]. change (is_ws ","%char) with false. cbv iota.
    change (Ascii.eqb ","%char ","%char) with true. cbv iota.
    rewrite parse_members_space.
    apply (IH ltac:(discriminate) n rest (setitem acc k v)). cbn [length] in *. lia.
Qed.

Lemma size_pos (obj : json) : 1 <= size obj.
Proof. destruct obj; simpl; lia. Qed.

Lemma length_le_sizes (l : list json) : length l <= list_sum (map size l).
Proof.
  induction l as [|x l IH]; simpl; [lia|].
  pose proof (size_pos x). lia.
Qed.

Lemma size_le_sizes (x : json) (l : list json) :
  In x l -> size x <= list_sum (map size l).
Proof.
  induction l as [|y l IH]; [intros []|].
  intros [->|H]; simpl; [lia|]. specialize (IH H). lia.
Qed.

(** A value written by [json.dumps] is read by [parse_value], given fuel for
    its size. *)
Lemma parse_value_dumps (obj : json) :
  forall fuel, size obj <= fuel -> reads (parse_value fuel) obj.
Proof.
  induction obj as [|b|z|s|l IH|d IH] using json_induction;
    intros [|f] Hsize rest Hrest; try (cbn [size] in Hsize; lia).
  - eexists. reflexivity.
  - destruct b; eexists; reflexivity.
  - cbn [json_dumps]. destruct (str_of_Z_head z) as (c & t & E & Hc).
    destruct (@parse_int_dumps z rest Hrest) as (v & Hv). exists v.
    rewrite E in *. cbn [app] in *. now rewrite (proj2 (proj2 (number_start Hc))).
  - cbn [json_dumps encode_string app]. rewrite <- app_assoc.
    change (parse_value (S f) (dquote :: flat_map escape_char s ++ [dquote] ++ rest))
      with (with_rest JStr (parse_chars (flat_map escape_char s ++ [dquote] ++ rest) [])).
    rewrite parse_chars_key. eexists. reflexivity.
  - cbn [json_dumps size] in *.
    cbn [lit list_ascii_of_string app]. rewrite <- app_assoc. cbn [app].
    destruct l as [|x l]; [eexists; reflexivity|].
    assert (Hitems : exists vs,
               parse_items (parse_value f) f
                 (join [","%char; " "%char] (map json_dumps (x :: l)) ++ "]"%char :: rest) []
               = Some (vs, rest)).
    { apply parse_items_dumps; [apply parse_value_space | | discriminate |].
      - apply Forall_forall. intros y Hy. rewrite Forall_forall in IH.
        apply (IH y Hy). pose proof (size_le_sizes y (x :: l) Hy). lia.
      - pose proof (length_le_sizes (x :: l)). lia. }
    destruct Hitems as (vs & Hvs). exists (JList vs).
    destruct (json_dumps_head x) as (c & t & E & Hws & Hbr).
    destruct (join_head [","%char; " "%char] (json_dumps x) (map json_dumps l)) as (tail & Et).
    change (map json_dumps (x :: l)) with (json_dumps x :: map json_dumps l) in *.
    cbn [parse_value skip_ws]. change (is_ws "["%char) with false. cbv iota.
    change (Ascii.eqb "["%char "n"%char) with false.
    change (Ascii.eqb "["%char "t"%char) with false.
    change (Ascii.eqb "["%char "f"%char) with false.
    change (Ascii.eqb "["%char dquote) with false.
    change (Ascii.eqb "["%char "["%char) with true. cbv iota.
    assert (Eskip : exists t', skip_ws (join [","%char; " "%char] (json_dumps x :: map json_dumps l)
                                   ++ "]"%char :: rest) = c :: t').
    { rewrite Et, E. cbn [app skip_ws]. rewrite Hws. eauto. }
    destruct Eskip as (t' & ->). rewrite Hbr, Hvs. reflexivity.
  - cbn [json_dumps size] in *.
    cbn [lit list_ascii_of_string app]. rewrite <- app_assoc. cbn [app].
    destruct d as [|[k x] d]; [eexists; reflexivity|].
    set (members := map (fun kv => encode_string (fst kv) ++ ":"%char :: " "%char :: json_dumps (snd kv))
                      ((k, x) :: d)) in *.
    assert (Hmembers : exists ms,
               parse_members (parse_value f) f
                 (join [","%char; " "%char] members ++ "}"%char :: rest) []
               = Some (ms, rest)).
    { apply parse_members_dumps; [apply parse_value_space | | discriminate |].
      - apply Forall_forall. intros kv Hkv. rewrite Forall_forall in IH.
        apply (IH kv Hkv).
        pose proof (size_le_sizes (snd kv) (map snd ((k, x) :: d)) (in_map snd _ _ Hkv)) as Hle.
        rewrite map_map in Hle. lia.
      - pose proof (length_le_sizes (map snd ((k, x) :: d))) as Hle.
        rewrite map_map, length_map in Hle. lia. }
    destruct Hmembers as (ms & Hms). exists (JDict ms).
    cbn [parse_value skip_ws]. change (is_ws "{"%char) with false. cbv iota.
    change (Ascii.eqb "{"%char "n"%char) with false.
    change (Ascii.eqb "{"%char "t"%char) with false.
    change (Ascii.eqb "{"%char "f"%char) with false.
    change (Ascii.eqb "{"%char dquote) with false.
    change (Ascii.eqb "{"%char "["%char) with false.
    change (Ascii.eqb "{"%char "{"%char) with true. cbv iota.
    assert (Eskip : exists t', skip_ws (join [","%char; " "%char] members ++ "}"%char :: rest)
                               = dquote :: t').
    { subst members. destruct d as [|kv d]; cbn [map fst snd join]; unfold encode_string at 1;
        cbn [app skip_ws]; change (is_ws dquote) with false; cbv iota; eauto. }
    destruct Eskip as (t' & ->).
    change (Ascii.eqb dquote "}"%char) with false. cbv iota.
    rewrite Hms. reflexivity.
Qed.

Lemma join_length (sep : pystr) (parts : list pystr) :
  list_sum (map (@length ascii) parts) <= length (join sep parts).
Proof.
  induction parts as [|p parts IH]; [simpl; lia|].
  cbn [join]. destruct parts as [|q parts].
  - simpl. lia.
  - rewrite !length_app. change (map (@length ascii) (p :: q :: parts))
      with (length p :: map (@length ascii) (q :: parts)).
    change (list_sum (length p :: map (@length ascii) (q :: parts)))
      with (length p + list_sum (map (@length ascii) (q :: parts))).
    lia.
Qed.

Lemma size_le_length (obj : json) : size obj <= length (json_dumps obj).
Proof.
  induction obj as [|b|z|s|l IH|d IH] using json_induction; cbn [json_dumps size].
  - simpl. lia.
  - destruct b; simpl; lia.
  - destruct (str_of_Z_head z) as (c & t & -> & _). simpl. lia.
  - unfold encode_string. simpl. lia.
  - rewrite !length_app.
    change (length (lit "[")) with 1. change (length (lit "]")) with 1.
    pose proof (join_length (lit ", ") (map json_dumps l)) as Hj.
    assert (list_sum (map size l) <= list_sum (map (@length ascii) (map json_dumps l))); [|lia].
    clear Hj. induction IH as [|x l Hx _ IHl]; simpl in *; lia.
  - rewrite !length_app.
    change (length (lit "{")) with 1. change (length (lit "}")) with 1.
    pose proof (join_length (lit ", ")
                  (map (fun kv => encode_string (fst kv) ++ lit ": " ++ json_dumps (snd kv)) d)) as Hj.
    assert (list_sum (map (fun kv => size (snd kv)) d)
            <= list_sum (map (@length ascii)
                 (map (fun kv => encode_string (fst kv) ++ lit ": " ++ json_dumps (snd kv)) d)));
      [|lia].
    clear Hj. induction IH as [|kv d Hkv _ IHd]; [simpl; lia|].
    change (list_sum (map (fun kv0 => size (snd kv0)) (kv :: d)))
      with (size (snd kv) + list_sum (map (fun kv0 => size (snd kv0)) d)).
    change (list_sum (map (@length ascii)
              (map (fun kv0 => encode_string (fst kv0) ++ lit ": " ++ json_dumps (snd kv0)) (kv :: d))))
      with (length (encode_string (fst kv) ++ lit ": " ++ json_dumps (snd kv))
            + list_sum (map (@length ascii)
                (map (fun kv0 => encode_string (fst kv0) ++ lit ": " ++ json_dumps (snd kv0)) d))).
    rewrite !length_app. lia.
Qed.

(** What [json.dumps] writes is read back by [json.loads]. *)
Lemma json_dumps_parseable (obj : json) : parseable (json_dumps obj).
Proof.
  destruct (@parse_value_dumps obj (length (json_dumps obj)) (size_le_length obj) [] I)
    as (v & Hv).
  exists v. unfold json_loads. rewrite app_nil_r in Hv. now rewrite Hv.
Qed.

Lemma read_lines_line (l rest : pystr) :
  one_line l -> read_lines (l ++ newline :: rest) = l :: read_lines rest.
Proof.
  induction l as [|c l IH]; intros Hl.
  - cbn [app read_lines]. now rewrite Ascii.eqb_refl.
  - cbn [app read_lines].
    destruct (Ascii.eqb c newline) eqn:E.
    + apply Ascii.eqb_eq in E. exfalso. apply Hl. now left.
    + rewrite IH; [reflexivity|]. intros Hin. apply Hl. now right.
Qed.

Lemma read_lines_records (ls : list pystr) :
  Forall one_line ls ->
  read_lines (flat_map (fun l => l ++ [newline]) ls) = ls.
Proof.
  induction 1 as [|l ls Hl _ IH]; [reflexivity|].
  cbn [flat_map]. rewrite <- app_assoc. cbn [app].
  rewrite read_lines_line by exact Hl. now rewrite IH.
Qed.

(** *** Reading back exactly what was written *)

(** A value as Python holds it: no dictionary has a key twice. *)
Fixpoint well_keyed (obj : json) : Prop :=
  match obj with
  | JList l => fold_right (fun x rest => well_keyed x /\ rest) True l
  | JDict d =>
      NoDup (map fst d) /\ fold_right (fun kv rest => well_keyed (snd kv) /\ rest) True d
  | _ => True
  end.

Lemma well_keyed_items (l : list json) :
  fold_right (fun x rest => well_keyed x /\ rest) True l <-> Forall well_keyed l.
Proof.
  induction l as [|x l IH]; cbn [fold_right].
  - split; [constructor | trivial].
  - rewrite IH. split; [intros [Hx Hl]; now constructor | intros H; now inversion H].
Qed.

Lemma well_keyed_members (d : list (pystr * json)) :
  fold_right (fun kv rest => well_keyed (snd kv) /\ rest) True d
  <-> Forall (fun kv => well_keyed (snd kv)) d.
Proof.
  induction d as [|kv d IH]; cbn [fold_right].
  - split; [constructor | trivial].
  - rewrite IH. split; [intros [Hx Hl]; now constructor | intros H; now inversion H].
Qed.

Lemma parse_digits_exact (negative : bool) (d : Decimal.uint) (rest : pystr) :
  valid_digits (lit (NilEmpty.string_of_uint d)) = true ->
  delimited rest ->
  parse_digits negative (lit (NilEmpty.string_of_uint d) ++ rest)
  = Some (JInt (Z.of_int (if negative then Decimal.Neg d else Decimal.Pos d)), rest).
Proof.
  intros Hvalid Hrest. unfold parse_digits.
  rewrite (@span_digits_app _ rest (string_of_uint_digits d) Hrest), Hvalid.
  unfold lit. now rewrite string_of_list_ascii_of_string, NilEmpty.usu.
Qed.

Lemma parse_int_exact (z : Z) (rest : pystr) :
  delimited rest -> parse_int (str_of_Z z ++ rest) = Some (JInt z, rest).
Proof.
  intros Hrest. unfold str_of_Z, NilZero.string_of_int.
  pose proof (DecimalZ.of_to z) as Hof.
  pose proof (to_int_norm z) as Hnorm.
  destruct (Z.to_int z) as [d|d]; cbn [Decimal.norm] in Hnorm.
  - injection Hnorm as Hnorm. pose proof (valid_digits_unorm Hnorm) as Hvalid.
    assert (E : NilZero.string_of_uint d = NilEmpty.string_of_uint d).
    { unfold NilZero.string_of_uint. destruct d; try reflexivity.
      unfold Decimal.unorm in Hnorm. discriminate Hnorm. }
    rewrite E. rewrite <- Hof.
    rewrite <- (@parse_digits_exact false d rest Hvalid Hrest). unfold parse_int.
    pose proof (string_of_uint_digits d) as Hd.
    destruct (lit (NilEmpty.string_of_uint d)) as [|c ds] eqn:Es; [discriminate Hvalid|].
    cbn [app]. inversion Hd as [|? ? Hc _]; subst.
    destruct c as [[|] [|] [|] [|] [|] [|] [|] [|]]; try discriminate Hc; reflexivity.
  - assert (Hz : Decimal.nzhead d = d /\ d <> Decimal.Nil).
    { destruct (Decimal.nzhead d) eqn:Hz; try discriminate Hnorm;
        injection Hnorm as <-; split; (reflexivity || discriminate). }
    destruct Hz as [Hz Hne]. pose proof (valid_digits_nzhead Hz Hne) as Hvalid.
    assert (E : NilZero.string_of_uint d = NilEmpty.string_of_uint d).
    { unfold NilZero.string_of_uint. destruct d; try reflexivity. congruence. }
    rewrite E. rewrite <- Hof.
    rewrite <- (@parse_digits_exact true d rest Hvalid Hrest). reflexivity.
Qed.

(** [pv] reads the text of [x] as [x], whatever follows it. *)
Definition reads_back (pv : pystr -> option (json * pystr)) (x : json) : Prop :=
  forall rest, delimited rest -> pv (json_dumps x ++ rest) = Some (x, rest).

Lemma parse_items_exact (pv : pystr -> option (json * pystr)) (l : list json) :
  (forall t, pv (" "%char :: t) = pv t) ->
  Forall (reads_back pv) l -> l <> [] ->
  forall n rest acc,
    length l <= n ->
    parse_items pv n (join (lit ", ") (map json_dumps l) ++ "]"%char :: rest) acc
    = Some (rev acc ++ l, rest).
Proof.
  intros Hspace Hl. induction Hl as [|x l Hx Hl IH]; intros Hne n rest acc Hn; [congruence|].
  destruct n as [|n]; [cbn in Hn; lia|].
  cbn [map join]. destruct l as [|y l].
  - cbn [map parse_items]. rewrite (Hx ("]"%char :: rest) eq_refl).
    reflexivity.
  - change (map json_dumps (y :: l)) with (json_dumps y :: map json_dumps l).
    cbv iota. rewrite <- !app_assoc. cbn [parse_items].
    rewrite (Hx (lit ", " ++ join (lit ", ") (json_dumps y :: map json_dumps l)
                   ++ "]"%char :: rest) eq_refl).
    cbn [lit list_ascii_of_string app skip_ws].
    change (is_ws ","%char) with false. cbv iota.
    change (Ascii.eqb ","%char ","%char) with true. cbv iota.
    rewrite parse_items_space by exact Hspace.
    assert (length (y :: l) <= n) as Hn' by (cbn [length] in *; lia).
    etransitivity; [exact (IH ltac:(discriminate) n rest (x :: acc) Hn')|].
    cbn [rev]. now rewrite <- app_assoc.
Qed.

Lemma setitem_new (d : list (pystr * json)) (key : pystr) (value : json) :
  ~ In key (map fst d) -> setitem d key value = d ++ [(key, value)].
Proof.
  induction d as [|[k v] d IH]; intros Hnew; cbn [setitem app]; [reflexivity|].
  cbn [map fst In] in Hnew.
  rewrite pystr_eqb_neq by tauto. rewrite IH by tauto. reflexivity.
Qed.

Lemma new_key (acc : list (pystr * json)) (k : pystr) (x : json) (d : list (pystr * json)) :
  NoDup (map fst (acc ++ (k, x) :: d)) ->
  ~ In k (map fst acc) /\ NoDup (map fst ((acc ++ [(k, x)]) ++ d)).
Proof.
  intros H. split.
  - rewrite map_app in H. cbn [map fst] in H.
    apply NoDup_remove_2 in H. rewrite in_app_iff in H. tauto.
  - now rewrite <- app_assoc.
Qed.

Lemma parse_members_exact (pv : pystr -> option (json * pystr)) (d : list (pystr * json)) :
  (forall t, pv (" "%char :: t) = pv t) ->
  Forall (fun kv => reads_back pv (snd kv)) d -> d <> [] ->
  forall n rest acc,
    length d <= n ->
    NoDup (map fst (acc ++ d)) ->
    parse_members pv n
      (join (lit ", ")
         (map (fun kv => encode_string (fst kv) ++ lit ": " ++ json_dumps (snd kv)) d)
       ++ "}"%char :: rest) acc
    = Some (acc ++ d, rest).
Proof.
  intros Hspace Hd.
  induction Hd as [|[k x] d Hx Hd IH]; intros Hne n rest acc Hn Hkeys; [congruence|].
  destruct n as [|n]; [cbn in Hn; lia|].
  destruct (new_key _ _ _ _ Hkeys) as (Hnew & Hkeys').
  cbn [map join fst snd] in *. destruct d as [|[k' y] d].
  - cbn [map]. rewrite <- !app_assoc, encode_string_app.
    cbn [parse_members skip_ws]. change (is_ws dquote) with false. cbv iota.
    rewrite Ascii.eqb_refl, parse_chars_key.
    cbn [lit list_ascii_of_string app skip_ws].
    change (is_ws ":"%char) with false. cbv iota.
    change (Ascii.eqb ":"%char ":"%char) with true. cbv iota.
    rewrite Hspace. rewrite (Hx ("}"%char :: rest) eq_refl).
    cbn [skip_ws]. change (is_ws "}"%char) with false. cbv iota.
    change (Ascii.eqb "}"%char ","%char) with false.
    change (Ascii.eqb "}"%char "}"%char) with true. cbv iota.
    now rewrite setitem_new.
  - set (more := map (fun kv => encode_string (fst kv) ++ lit ": " ++ json_dumps (snd kv))
                   ((k', y) :: d)) in *.
    assert (Hmore : exists m ms, more = m :: ms) by (subst more; cbn [map]; eauto).
    destruct Hmore as (m & ms & Em). rewrite Em. cbv iota. rewrite <- Em.
    rewrite <- !app_assoc, encode_string_app.
    cbn [parse_members skip_ws]. change (is_ws dquote) with false. cbv iota.
    rewrite Ascii.eqb_refl, parse_chars_key.
    cbn [lit list_ascii_of_string app skip_ws].
    change (is_ws ":"%char) with false. cbv iota.
    change (Ascii.eqb ":"%char ":"%char) with true. cbv iota.
    rewrite Hspace.
    rewrite (Hx (","%char :: " "%char :: join [","%char; " "%char] more ++ "}"%char :: rest)
               eq_refl).
    cbn [skip_ws]. change (is_ws ","%char) with false. cbv iota.
    change (Ascii.eqb ","%char ","%char) with true. cbv iota.
    rewrite parse_members_space, setitem_new by exact Hnew.
    assert (length ((k', y) :: d) <= n) as Hn' by (cbn [length] in *; lia).
    etransitivity; [exact (IH ltac:(discriminate) n rest (acc ++ [(k, x)]) Hn' Hkeys')|].
    now rewrite <- app_assoc.
Qed.

(** A value written by [json.dumps] is read back as it was, given fuel for
    its size. *)
Lemma parse_value_exact (obj : json) :
  well_keyed obj ->
  forall fuel, size obj <= fuel -> reads_back (parse_value fuel) obj.
Proof.
  induction obj as [|b|z|s|l IH|d IH] using json_induction;
    intros Hkeys [|f] Hsize rest Hrest; try (cbn [size] in Hsize; lia).
  - reflexivity.
  - destruct b; reflexivity.
  - cbn [json_dumps]. destruct (str_of_Z_head z) as (c & t & E & Hc).
    pose proof (@parse_int_exact z rest Hrest) as Hv.
    rewrite E in *. cbn [app] in *. now rewrite (proj2 (proj2 (number_start Hc))).
  - cbn [json_dumps encode_string app]. rewrite <- app_assoc.
    change (parse_value (S f) (dquote :: flat_map escape_char s ++ [dquote] ++ rest))
      with (with_rest JStr (parse_chars (flat_map escape_char s ++ [dquote] ++ rest) [])).
    rewrite parse_chars_key. reflexivity.
  - cbn [well_keyed] in Hkeys. apply well_keyed_items in Hkeys.
    cbn [json_dumps size] in *.
    cbn [lit list_ascii_of_string app]. rewrite <- app_assoc. cbn [app].
    destruct l as [|x l]; [reflexivity|].
    assert (Hitems :
               parse_items (parse_value f) f
                 (join [","%char; " "%char] (map json_dumps (x :: l)) ++ "]"%char :: rest) []
               = Some (x :: l, rest)).
    { apply (@parse_items_exact (parse_value f) (x :: l)); [apply parse_value_space | | discriminate |].
      - apply Forall_forall. intros y Hy. rewrite Forall_forall in IH, Hkeys.
        apply (IH y Hy (Hkeys y Hy)). pose proof (size_le_sizes y (x :: l) Hy). lia.
      - pose proof (length_le_sizes (x :: l)). lia. }
    destruct (json_dumps_head x) as (c & t & E & Hws & Hbr).
    destruct (join_head [","%char; " "%char] (json_dumps x) (map json_dumps l)) as (tail & Et).
    change (map json_dumps (x :: l)) with (json_dumps x :: map json_dumps l) in *.
    cbn [parse_value skip_ws]. change (is_ws "["%char) with false. cbv iota.
    change (Ascii.eqb "["%char "n"%char) with false.
    change (Ascii.eqb "["%char "t"%char) with false.
    change (Ascii.eqb "["%char "f"%char) with false.
    change (Ascii.eqb "["%char dquote) with false.
    change (Ascii.eqb "["%char "["%char) with true. cbv iota.
    assert (Eskip : exists t', skip_ws (join [","%char; " "%char] (json_dumps x :: map json_dumps l)
                                   ++ "]"%char :: rest) = c :: t').
    { rewrite Et, E. cbn [app skip_ws]. rewrite Hws. eauto. }
    destruct Eskip as (t' & ->). rewrite Hbr, Hitems. reflexivity.
  - cbn [well_keyed] in Hkeys. destruct Hkeys as [Hnodup Hkeys].
    apply well_keyed_members in Hkeys.
    cbn [json_dumps size] in *.
    cbn [lit list_ascii_of_string app]. rewrite <- app_assoc. cbn [app].
    destruct d as [|[k x] d]; [reflexivity|].
    set (members := map (fun kv => encode_string (fst kv) ++ ":"%char :: " "%char :: json_dumps (snd kv))
                      ((k, x) :: d)) in *.
    assert (Hmembers :
               parse_members (parse_value f) f
                 (join [","%char; " "%char] members ++ "}"%char :: rest) []
               = Some ((k, x) :: d, rest)).
    { apply (@parse_members_exact (parse_value f) ((k, x) :: d));
        [apply parse_value_space | | discriminate | | exact Hnodup].
      - apply Forall_forall. intros kv Hkv. rewrite Forall_forall in IH, Hkeys.
        apply (IH kv Hkv (Hkeys kv Hkv)).
        pose proof (size_le_sizes (snd kv) (map snd ((k, x) :: d)) (in_map snd _ _ Hkv)) as Hle.
        rewrite map_map in Hle. lia.
      - pose proof (length_le_sizes (map snd ((k, x) :: d))) as Hle.
        rewrite map_map, length_map in Hle. lia. }
    cbn [parse_value skip_ws]. change (is_ws "{"%char) with false. cbv iota.
    change (Ascii.eqb "{"%char "n"%char) with false.
    change (Ascii.eqb "{"%char "t"%char) with false.
    change (Ascii.eqb "{"%char "f"%char) with false.
    change (Ascii.eqb "{"%char dquote) with false.
    change (Ascii.eqb "{"%char "["%char) with false.
    change (Ascii.eqb "{"%char "{"%char) with true. cbv iota.
    assert (Eskip : exists t', skip_ws (join [","%char; " "%char] members ++ "}"%char :: rest)
                               = dquote :: t').
    { subst members. destruct d as [|kv d]; cbn [map fst snd join]; unfold encode_string at 1;
        cbn [app skip_ws]; change (is_ws dquote) with false; cbv iota; eauto. }
    destruct Eskip as (t' & ->).
    change (Ascii.eqb dquote "}"%char) with false. cbv iota.
    rewrite Hmembers. reflexivity.
Qed.

(** [json.loads(json.dumps(obj)) == obj] *)
Lemma json_loads_dumps (obj : json) :
  well_keyed obj -> json_loads (json_dumps obj) = Some obj.
Proof.
  intros Hkeys.
  pose proof (@parse_value_exact obj Hkeys (length (json_dumps obj)) (size_le_length obj) [] I)
    as Hv.
  unfold json_loads. rewrite app_nil_r in Hv. now rewrite Hv.
Qed.

End Json.

(** ** [os.path] on POSIX *)

Module OsPath.
Import PyStr.

Definition sep : ascii := "/"%char.

(** [s.endswith("/")] *)
Definition ends_with_sep (s : pystr) : bool :=
  match rev s with
  | c :: _ => Ascii.eqb c sep
  | [] => false
  end.

(** [os.path.join(a, b)]: an absolute [b] replaces [a]; otherwise [b] is
    appended, after a separator unless [a] is empty or ends with one. *)
Definition join (a b : pystr) : pystr :=
  if startswith [sep] b then b
  else if (match a with [] => true | _ :: _ => false end) || ends_with_sep a
       then a ++ b
       else a ++ sep :: b.

Definition curdir : pystr := lit ".".
Definition pardir : pystr := lit "..".

(** [s.split("/")] *)
Fixpoint split_sep (s : pystr) : list pystr :=
  match s with
  | [] => [[]]
  | c :: s' =>
      if Ascii.eqb c sep then [] :: split_sep s'
      else match split_sep s' with
           | [] => [[c]]
           | w :: ws => (c :: w) :: ws
           end
  end.

(** The truth value of a string and of a list. *)
Definition nonempty {A : Type} (l : list A) : bool :=
  match l with
  | [] => false
  | _ :: _ => true
  end.

(** One turn of the loop of [normpath] over the components. *)
Definition normpath_comp (initial_slashes : nat) (new_comps : list pystr) (comp : pystr)
  : list pystr :=
  if pystr_eqb comp [] || pystr_eqb comp curdir then new_comps
  else if negb (pystr_eqb comp pardir)
          || ((initial_slashes =? 0) && negb (nonempty new_comps))
          || (nonempty new_comps && pystr_eqb (last new_comps []) pardir)
       then new_comps ++ [comp]
       else removelast new_comps.

(** [posixpath.normpath(path)] *)
Definition normpath (path : pystr) : pystr :=
  match path with
  | [] => curdir
  | _ :: _ =>
      let initial_slashes :=
        if startswith [sep] path
        then if startswith [sep; sep] path && negb (startswith [sep; sep; sep] path)
             then 2 else 1
        else 0 in
      let comps := fold_left (normpath_comp initial_slashes) (split_sep path) [] in
      match repeat sep initial_slashes ++ PyStr.join [sep] comps with
      | [] => curdir
      | c :: p => c :: p
      end
  end.

Definition isabs (p : pystr) : bool := startswith [sep] p.

(** [os.path.commonprefix([a, b])] on two lists of components. *)
Fixpoint commonprefix (a b : list pystr) : list pystr :=
  match a, b with
  | x :: a', y :: b' => if pystr_eqb x y then x :: commonprefix a' b' else []
  | _, _ => []
  end.

(** [os.path.join(p, *rest)] *)
Definition join_all (p : pystr) (rest : list pystr) : pystr := fold_left join rest p.

Section Cwd.

(** [os.getcwd()] *)
Variable cwd : pystr.

Definition abspath (p : pystr) : pystr :=
  normpath (if isabs p then p else join cwd p).

(** [os.path.relpath(path, start)] *)
Definition relpath (path start : pystr) : res pystr :=
  match path with
  | [] => inl (Exn ValueError (lit "no path specified"))
  | _ :: _ =>
      let start_list := filter nonempty (split_sep (abspath start)) in
      let path_list := filter nonempty (split_sep (abspath path)) in
      let i := length (commonprefix start_list path_list) in
      let rel_list := repeat pardir (length start_list - i) ++ skipn i path_list in
      match rel_list with
      | [] => inr curdir
      | p :: rest => inr (join_all p rest)
      end
  end.

End Cwd.

(** A plain file or directory name: not empty, without a separator, and
    neither [.] nor [..]. *)
Definition slash_free (w : pystr) : Prop := ~ In sep w.

Definition plain_name (w : pystr) : Prop :=
  w <> [] /\ slash_free w /\ w <> curdir /\ w <> pardir.

(** The path [/n1/.../nk] of the directory with these names from the root. *)
Definition absolute (names : list pystr) : pystr := sep :: PyStr.join [sep] names.

(** The relative path of these names: [.] for none. *)
Definition relative (names : list pystr) : pystr :=
  match names with
  | [] => curdir
  | _ :: _ => PyStr.join [sep] names
  end.

Lemma split_sep_not_nil (s : pystr) : split_sep s <> [].
Proof.
  destruct s as [|c s]; cbn [split_sep]; [discriminate|].
  destruct (Ascii.eqb c sep); [discriminate|]. destruct (split_sep s); discriminate.
Qed.

Lemma split_sep_app (w s : pystr) :
  slash_free w -> split_sep (w ++ sep :: s) = w :: split_sep s.
Proof.
  induction w as [|c w IH]; intros Hw; cbn [app split_sep].
  - now rewrite Ascii.eqb_refl.
  - destruct (Ascii.eqb c sep) eqn:E.
    + apply Ascii.eqb_eq in E. exfalso. apply Hw. now left.
    + rewrite IH; [reflexivity|]. intros Hin. apply Hw. now right.
Qed.

Lemma split_sep_word (w : pystr) : slash_free w -> split_sep w = [w].
Proof.
  induction w as [|c w IH]; intros Hw; cbn [split_sep]; [reflexivity|].
  destruct (Ascii.eqb c sep) eqn:E.
  - apply Ascii.eqb_eq in E. exfalso. apply Hw. now left.
  - rewrite IH; [reflexivity|]. intros Hin. apply Hw. now right.
Qed.

Lemma split_sep_slash_free (s : pystr) : Forall slash_free (split_sep s).
Proof.
  induction s as [|c s IH]; cbn [split_sep].
  - repeat constructor. intros [].
  - destruct (Ascii.eqb c sep) eqn:E.
    + constructor; [intros [] | exact IH].
    + destruct (split_sep s) as [|w ws]; inversion IH; subst.
      * repeat constructor. intros [H|[]]. subst c. now rewrite Ascii.eqb_refl in E.
      * constructor; [|assumption]. intros [H|H]; [|contradiction].
        subst c. now rewrite Ascii.eqb_refl in E.
Qed.

(** The components of a joined path, with or without a slash at its end:
    the names, then empty components only. *)
Lemma split_sep_join (names : list pystr) (tail : pystr) :
  Forall slash_free names ->
  tail = [] \/ tail = [sep] ->
  exists empties,
    split_sep (PyStr.join [sep] names ++ tail) = names ++ empties /\
    Forall (fun w => w = []) empties.
Proof.
  intros Hnames Htail. induction Hnames as [|w names Hw Hnames IH].
  - cbn [PyStr.join app]. exists (split_sep tail). split; [reflexivity|].
    destruct Htail as [->| ->]; cbn; repeat constructor.
  - cbn [PyStr.join]. destruct names as [|w' names].
    + destruct Htail as [->| ->].
      * exists []. rewrite !app_nil_r. split; [now apply split_sep_word | constructor].
      * exists [[]]. rewrite split_sep_app by exact Hw. split; [reflexivity|].
        repeat constructor.
    + destruct IH as (empties & E & Hempty).
      exists empties. split; [|exact Hempty].
      rewrite <- !app_assoc. cbn [app]. rewrite split_sep_app by exact Hw.
      cbn [app]. f_equal. exact E.
Qed.

Lemma normpath_comp_plain (k : nat) (acc : list pystr) (w : pystr) :
  plain_name w -> normpath_comp k acc w = acc ++ [w].
Proof.
  intros (Hne & _ & Hcur & Hpar). unfold normpath_comp.
  rewrite (pystr_eqb_neq Hne), (pystr_eqb_neq Hcur), (pystr_eqb_neq Hpar).
  reflexivity.
Qed.

Lemma normpath_comp_empty (k : nat) (acc : list pystr) : normpath_comp k acc [] = acc.
Proof. reflexivity. Qed.

Lemma fold_normpath_comp (k : nat) (names empties : list pystr) :
  Forall plain_name names ->
  Forall (fun w => w = []) empties ->
  forall acc, fold_left (normpath_comp k) (names ++ empties) acc = acc ++ names.
Proof.
  intros Hnames Hempty. induction Hnames as [|w names Hw _ IH]; intros acc; cbn [app fold_left].
  - rewrite app_nil_r. revert acc.
    induction Hempty as [|e empties -> _ IHe]; intros acc; [reflexivity|].
    cbn [fold_left]. rewrite normpath_comp_empty. apply IHe.
  - rewrite normpath_comp_plain by exact Hw. rewrite IH, <- app_assoc. reflexivity.
Qed.

Lemma plain_slash_free (names : list pystr) :
  Forall plain_name names -> Forall slash_free names.
Proof. apply Forall_impl. intros w H. apply H. Qed.

Lemma filter_nonempty_plain (names : list pystr) :
  Forall plain_name names -> filter nonempty names = names.
Proof.
  induction 1 as [|w names Hw _ IH]; [reflexivity|].
  cbn [filter]. destruct w; [now destruct Hw | cbn; now rewrite IH].
Qed.

Lemma filter_nonempty_empties (empties : list pystr) :
  Forall (fun w => w = []) empties -> filter nonempty empties = [].
Proof.
  induction 1 as [|e empties -> _ IH]; [reflexivity | exact IH].
Qed.

(** The components of [sep * k + "/".join(names)], empty ones left out. *)
Lemma components_of_joined (k : nat) (names : list pystr) :
  Forall plain_name names ->
  filter nonempty (split_sep (repeat sep k ++ PyStr.join [sep] names)) = names.
Proof.
  intros Hnames. induction k as [|k IH]; cbn [repeat app].
  - destruct (@split_sep_join names [] (plain_slash_free Hnames) (or_introl eq_refl))
      as (empties & E & Hempty).
    rewrite app_nil_r in E. rewrite E, filter_app.
    rewrite filter_nonempty_plain, filter_nonempty_empties by assumption.
    apply app_nil_r.
  - cbn [split_sep]. rewrite Ascii.eqb_refl. cbn [filter nonempty]. exact IH.
Qed.

(** The components of the normal form of an absolute path made of plain
    names, whether or not it ends with a slash. *)
Lemma components_of_normpath (names : list pystr) (tail : pystr) :
  Forall plain_name names ->
  tail = [] \/ tail = [sep] ->
  filter nonempty (split_sep (normpath (absolute names ++ tail))) = names.
Proof.
  intros Hnames Htail. unfold absolute, normpath. cbn [app].
  destruct (@split_sep_join names tail (plain_slash_free Hnames) Htail) as (empties & E & Hempty).
  cbn [split_sep]. rewrite Ascii.eqb_refl. cbn [fold_left].
  rewrite normpath_comp_empty, E, fold_normpath_comp by assumption. cbn [app].
  set (k := if startswith [sep] (sep :: PyStr.join [sep] names ++ tail)
            then if startswith [sep; sep] (sep :: PyStr.join [sep] names ++ tail)
                    && negb (startswith [sep; sep; sep] (sep :: PyStr.join [sep] names ++ tail))
                 then 2 else 1
            else 0).
  assert (Hk : exists k', k = S k').
  { subst k. cbn [startswith]. rewrite Ascii.eqb_refl. cbn [andb].
    destruct (_ && _); eauto. }
  destruct Hk as (k' & ->).
  pose proof (components_of_joined (S k') Hnames) as C.
  cbn [repeat app] in *. exact C.
Qed.

Lemma ends_with_sep_snoc (s : pystr) (c : ascii) :
  ends_with_sep (s ++ [c]) = Ascii.eqb c sep.
Proof. unfold ends_with_sep. now rewrite rev_unit. Qed.

Lemma plain_name_last (w : pystr) :
  plain_name w -> exists s c, w = s ++ [c] /\ c <> sep.
Proof.
  intros (Hne & Hfree & _). destruct (exists_last Hne) as (s & c & ->).
  exists s, c. split; [reflexivity|]. intros ->. apply Hfree, in_or_app. right. now left.
Qed.

Lemma join_last (names : list pystr) :
  Forall plain_name names -> names <> [] ->
  exists s c, PyStr.join [sep] names = s ++ [c] /\ c <> sep.
Proof.
  induction 1 as [|w names Hw Hnames IH]; intros Hne; [congruence|].
  cbn [PyStr.join]. destruct names as [|w' names].
  - now apply plain_name_last.
  - destruct IH as (s & c & E & Hc); [discriminate|].
    exists (w ++ [sep] ++ s), c. split; [|exact Hc].
    rewrite E, <- !app_assoc. reflexivity.
Qed.

Lemma join_snoc (names : list pystr) (w : pystr) :
  names <> [] ->
  PyStr.join [sep] (names ++ [w]) = PyStr.join [sep] names ++ sep :: w.
Proof.
  induction names as [|a names IH]; intros Hne; [congruence|].
  destruct names as [|b names]; [reflexivity|].
  change ((a :: b :: names) ++ [w]) with (a :: (b :: names) ++ [w]).
  cbn [PyStr.join] in *. cbn [app] in *.
  rewrite IH by discriminate. now rewrite <- !app_assoc.
Qed.

Lemma plain_not_absolute (w : pystr) : plain_name w -> startswith [sep] w = false.
Proof.
  intros (Hne & Hfree & _). destruct w as [|c w]; [congruence|].
  cbn [startswith]. destruct (Ascii.eqb sep c) eqn:E; [|reflexivity].
  apply Ascii.eqb_eq in E. exfalso. apply Hfree. now left.
Qed.

(** A plain name joined to the path of a directory. *)
Lemma join_absolute (names : list pystr) (w : pystr) :
  Forall plain_name names -> plain_name w ->
  join (absolute names) w = absolute (names ++ [w]).
Proof.
  intros Hnames Hw. unfold join, absolute.
  rewrite (plain_not_absolute Hw). cbn [orb].
  destruct names as [|a names].
  - reflexivity.
  - destruct (join_last Hnames) as (s & c & E & Hc); [discriminate|].
    rewrite join_snoc by discriminate.
    rewrite E. change (sep :: s ++ [c]) with ((sep :: s) ++ [c]).
    rewrite ends_with_sep_snoc. apply Ascii.eqb_neq in Hc. rewrite Hc.
    reflexivity.
Qed.

(** The same for relative paths. *)
Lemma join_relative (names : list pystr) (w : pystr) :
  Forall plain_name names -> names <> [] -> plain_name w ->
  join (PyStr.join [sep] names) w = PyStr.join [sep] (names ++ [w]).
Proof.
  intros Hnames Hne Hw. unfold join.
  rewrite (plain_not_absolute Hw).
  destruct (join_last Hnames Hne) as (s & c & E & Hc).
  rewrite join_snoc by exact Hne. rewrite E, ends_with_sep_snoc.
  apply Ascii.eqb_neq in Hc. rewrite Hc.
  destruct (s ++ [c]) eqn:Es; [now destruct s | reflexivity].
Qed.

Lemma join_all_plain (rest : list pystr) :
  Forall plain_name rest ->
  forall names, Forall plain_name names -> names <> [] ->
  join_all (PyStr.join [sep] names) rest = PyStr.join [sep] (names ++ rest).
Proof.
  unfold join_all.
  induction 1 as [|w rest Hw _ IH]; intros names Hnames Hne; cbn [fold_left].
  - now rewrite app_nil_r.
  - rewrite join_relative by assumption.
    rewrite IH.
    + now rewrite <- app_assoc.
    + apply Forall_app. split; [exact Hnames | now constructor].
    + now destruct names.
Qed.

Lemma commonprefix_app (a b : list pystr) : commonprefix a (a ++ b) = a.
Proof.
  induction a as [|x a IH]; [reflexivity|].
  cbn [app commonprefix]. now rewrite pystr_eqb_refl, IH.
Qed.

(** The relative path from a directory to a path below it: the names that
    lead from the one to the other. *)
Lemma relpath_below (names more : list pystr) (tail : pystr) :
  Forall plain_name names -> Forall plain_name more ->
  tail = [] \/ tail = [sep] ->
  relpath (absolute names) (absolute (names ++ more) ++ tail) (absolute names)
  = inr (relative more).
Proof.
  intros Hnames Hmore Htail. unfold relpath, abspath.
  assert (Hall : Forall plain_name (names ++ more)) by (apply Forall_app; now split).
  change (absolute (names ++ more) ++ tail)
    with (sep :: (PyStr.join [sep] (names ++ more) ++ tail)) at 1.
  cbv iota.
  replace (isabs (absolute (names ++ more) ++ tail)) with true by reflexivity.
  replace (isabs (absolute names)) with true by reflexivity.
  assert (Hstart : filter nonempty (split_sep (normpath (absolute names))) = names).
  { rewrite <- (app_nil_r (absolute names)).
    apply (components_of_normpath Hnames (or_introl eq_refl)). }
  rewrite (components_of_normpath Hall Htail), !Hstart.
  rewrite commonprefix_app, Nat.sub_diag, skipn_app, skipn_all, Nat.sub_diag.
  cbn [repeat app skipn].
  destruct more as [|p rest]; [reflexivity|].
  cbn [relative]. f_equal.
  inversion Hmore as [|? ? Hp Hrest]; subst.
  apply (join_all_plain Hrest (names := [p])); [now constructor | discriminate].
Qed.

End OsPath.

(** ** The collaborators: [gradio.inputs] and [gradio.outputs] *)

Module inputs.
Import PyStr Json.

(** An input interface, by the methods the handler calls and by what they
    return to it.  [Processed] is what the model takes, [Image] a PIL image.
    The classes are not part of this module: what [rebuild_flagged] and
    [save_to_file] save of their own under the directory they are given is
    outside the model. *)
Record AbstractInput (Processed Image : Type) : Type := {
  preprocess : json -> res Processed;
  rebuild_flagged : pystr -> json -> res json;
  save_to_file : pystr -> Image -> res json
}.

End inputs.

Module outputs.
Import PyStr Json.

(** An output interface, by what its methods return; [Prediction] is what
    the model returns. *)
Record AbstractOutput (Prediction : Type) : Type := {
  postprocess : Prediction -> res json;
  rebuild_flagged : pystr -> json -> res json
}.

End outputs.

(** ** The request handler: [HTTPHandler.do_POST] *)

Module Server.
Import PyStr Json.

Definition FLAGGING_DIRECTORY : pystr := lit "static/flagged/".
Definition FLAGGING_FILENAME : pystr := lit "data.txt".

(** What the handler does to its connection, call by call. *)
Inductive response_event : Type :=
| SendResponse (code : Z)
| SendHeader (keyword value : pystr)
| EndHeaders
| Write (data : pystr)
| SendError (code : Z) (message : pystr).

(** A POST request: [self.path], [self.headers["Content-Length"]], which is
    the text of the header or [None] when the request has no such header, and
    the bytes [self.rfile] holds. *)
Record request : Type := {
  path : pystr;
  content_length_header : option pystr;
  rfile : pystr
}.

(** The bytes [self.rfile.read(n)] returns: [n] of them, all of them for a
    negative [n]. *)
Definition rfile_read (req : request) (n : Z) : pystr :=
  if (n <? 0)%Z then rfile req else firstn (Z.to_nat n) (rfile req).

(** The lengths the buffered reader takes: -1, for all the bytes, or a
    length that is not negative; on any other number [read] raises
    [ValueError]. *)
Definition read_takes (n : Z) : bool := (-1 <=? n)%Z.

Definition bad_read_length : exn :=
  Exn ValueError (lit "read length must be non-negative or -1").

(** The files of the serve directory, by path. *)
Definition filesystem := list (pystr * pystr).

Fixpoint read_file (name : pystr) (fs : filesystem) : option pystr :=
  match fs with
  | [] => None
  | (p, content) :: rest => if pystr_eqb p name then Some content else read_file name rest
  end.

(** [open(name, 'a+')] followed by [f.write(data)]: the file is created when
    it is not there, and the data go to its end. *)
Fixpoint append_file (name data : pystr) (fs : filesystem) : filesystem :=
  match fs with
  | [] => [(name, data)]
  | (p, content) :: rest =>
      if pystr_eqb p name then (p, content ++ data) :: rest
      else (p, content) :: append_file name data rest
  end.

Section Handler.

Variables Processed Prediction Image : Type.

(** The interface object the server is started with. *)
Record Interface : Type := {
  input_interface : inputs.AbstractInput Processed Image;
  output_interface : outputs.AbstractOutput Prediction;
  predict : Processed -> res Prediction;
  (** [None], or the saliency function applied to [model_obj], with
      [tolist()] taken of its result *)
  saliency : option (Processed -> Prediction -> res json)
}.

(** The state a request is handled in: the calls made on the connection so
    far, the files and directories as the handler's own writes leave them,
    and the inputs [interface.predict] has been called with. *)
Record state : Type := {
  sent : list response_event;
  files : filesystem;
  dirs : list pystr;
  predicted : list Processed
}.

(** State and exceptions. *)
Definition M (A : Type) : Type := state -> res A * state.

Definition ret {A : Type} (a : A) : M A := fun st => (inr a, st).

Definition bind {A B : Type} (m : M A) (k : A -> M B) : M B :=
  fun st =>
    match m st with
    | (inl e, st') => (inl e, st')
    | (inr a, st') => k a st'
    end.

(** A call that returns or raises, and leaves the state alone. *)
Definition lift {A : Type} (r : res A) : M A := fun st => (r, st).

Notation "x <- m ;; k" := (bind m (fun x => k))
  (at level 61, m at next level, right associativity).
Notation "m ;; k" := (bind m (fun _ => k))
  (at level 61, right associativity).

Definition send (ev : response_event) : M unit :=
  fun st =>
    (inr tt, {| sent := sent st ++ [ev]; files := files st;
                dirs := dirs st; predicted := predicted st |}).

(** [os.makedirs(d, exist_ok=True)] *)
Definition makedirs (d : pystr) : M unit :=
  fun st =>
    (inr tt, {| sent := sent st; files := files st;
                dirs := if existsb (pystr_eqb d) (dirs st) then dirs st else dirs st ++ [d];
                predicted := predicted st |}).

Definition file_append (name data : pystr) : M unit :=
  fun st =>
    (inr tt, {| sent := sent st; files := append_file name data (files st);
                dirs := dirs st; predicted := predicted st |}).

(** The external libraries.  [py_int] is [int] on the text of a header: the
    integer it reads, or the [ValueError] it raises. *)
Variable py_int : pystr -> res Z.
Variable json_loads : pystr -> res json.
Variable decode_base64_to_image : json -> res Image.
Variable convert_RGB : Image -> Image.
Variable resize : Image -> Z * Z -> Image.
Variable rotate : Image -> Z -> Image.
Variable enhance_brightness : Image -> QArith_base.Q -> Image.
(** [np.expand_dims(np.array(img) / 127.5 - 1, axis=0)] *)
Variable model_input : Image -> Processed.

(** The arguments of [serve_files_in_background]. *)
Variable interface : Interface.
Variable directory_to_serve : pystr.

(** [interface.predict(x)], noted in the state. *)
Definition call_predict (x : Processed) : M Prediction :=
  fun st =>
    (predict interface x,
     {| sent := sent st; files := files st; dirs := dirs st;
        predicted := predicted st ++ [x] |}).

Definition _set_headers : M unit :=
  send (SendResponse 200) ;;
  send (SendHeader (lit "Content-type") (lit "application/json")) ;;
  send EndHeaders.

(** [int(self.headers["Content-Length"])]: without the header the argument is
    [None], and [int(None)] raises [TypeError]; with it, [int] reads its text
    or raises [ValueError]. *)
Definition int_of_header (header : option pystr) : res Z :=
  match header with
  | None =>
      inl (Exn TypeError
             (lit "int() argument must be a string, a bytes-like object or a real number, not 'NoneType'"))
  | Some text => py_int text
  end.

(** The length the request announces, when it announces one that [read]
    takes. *)
Definition content_length (req : request) : option Z :=
  match int_of_header (content_length_header req) with
  | inr n => if read_takes n then Some n else None
  | inl _ => None
  end.

(** [self.rfile.read(int(self.headers["Content-Length"]))] *)
Definition read_body (req : request) : M pystr :=
  n <- lift (int_of_header (content_length_header req)) ;;
  if read_takes n then ret (rfile_read req n) else lift (inl bad_read_length).

Definition flag_file (flag_dir : pystr) : pystr :=
  OsPath.join flag_dir FLAGGING_FILENAME.

(** [with open(..., 'a+') as f: f.write(json.dumps(output)); f.write("\n")] *)
Definition write_record (flag_dir : pystr) (output : json) : M unit :=
  file_append (flag_file flag_dir) (json_dumps output) ;;
  file_append (flag_file flag_dir) [newline].

(** A [for] loop. *)
Fixpoint for_each {A : Type} (xs : list A) (body : A -> M unit) : M unit :=
  match xs with
  | [] => ret tt
  | x :: rest => body x ;; for_each rest body
  end.

(** What the two loops over perturbed images share: predict, post-process,
    build the record and append it. *)
Definition flag_perturbed (flag_dir : pystr) (img : Image) (message : pystr) : M unit :=
  prediction <- call_predict (model_input img) ;;
  processed_output <- lift (outputs.postprocess (output_interface interface) prediction) ;;
  i <- lift (inputs.save_to_file (input_interface interface) flag_dir img) ;;
  o <- lift (outputs.rebuild_flagged (output_interface interface) flag_dir
               (JDict [(lit "data", JDict [(lit "output", processed_output)])])) ;;
  write_record flag_dir
    (JDict [(lit "input", i); (lit "output", o); (lit "message", JStr message)]).

Definition rotation_message (deg : Z) : pystr :=
  lit "rotation by " ++ str_of_Z deg ++ lit " degrees".

Definition lighting_message (i : Z) : pystr :=
  lit "brighting adjustment by a factor of " ++ str_of_Z i.

Definition do_POST (req : request) : M unit :=
  if pystr_eqb (path req) (lit "/api/predict/") then
    _set_headers ;;
    data_string <- read_body req ;;
    msg <- lift (json_loads data_string) ;;
    data <- lift (getitem msg (lit "data")) ;;
    processed_input <- lift (inputs.preprocess (input_interface interface) data) ;;
    prediction <- call_predict processed_input ;;
    processed_output <- lift (outputs.postprocess (output_interface interface) prediction) ;;
    let output := [(lit "action", JStr (lit "output")); (lit "data", processed_output)] in
    output <- match saliency interface with
              | None => ret output
              | Some f =>
                  s <- lift (f processed_input prediction) ;;
                  ret (setitem output (lit "saliency") s)
              end ;;
    send (Write (json_dumps (JDict output)))
  else if pystr_eqb (path req) (lit "/api/flag/") then
    _set_headers ;;
    data_string <- read_body req ;;
    msg <- lift (json_loads data_string) ;;
    let flag_dir := OsPath.join directory_to_serve FLAGGING_DIRECTORY in
    makedirs flag_dir ;;
    i <- lift (inputs.rebuild_flagged (input_interface interface) flag_dir msg) ;;
    o <- lift (outputs.rebuild_flagged (output_interface interface) flag_dir msg) ;;
    data <- lift (getitem msg (lit "data")) ;;
    message <- lift (getitem data (lit "message")) ;;
    write_record flag_dir
      (JDict [(lit "input", i); (lit "output", o); (lit "message", message)])
  else if pystr_eqb (path req) (lit "/api/auto/rotation") then
    _set_headers ;;
    data_string <- read_body req ;;
    msg <- lift (json_loads data_string) ;;
    data <- lift (getitem msg (lit "data")) ;;
    img_orig <- lift (decode_base64_to_image data) ;;
    let img_orig := convert_RGB img_orig in
    let img_orig := resize img_orig (224, 224)%Z in
    let flag_dir := OsPath.join directory_to_serve FLAGGING_DIRECTORY in
    makedirs flag_dir ;;
    for_each (py_range (-180) (180 + 45) 45)
      (fun deg => flag_perturbed flag_dir (rotate img_orig deg) (rotation_message deg)) ;;
    send (Write (json_dumps (JDict [])))
  else if pystr_eqb (path req) (lit "/api/auto/lighting") then
    _set_headers ;;
    data_string <- read_body req ;;
    msg <- lift (json_loads data_string) ;;
    data <- lift (getitem msg (lit "data")) ;;
    img_orig <- lift (decode_base64_to_image data) ;;
    let img_orig := convert_RGB img_orig in
    let img_orig := resize img_orig (224, 224)%Z in
    let flag_dir := OsPath.join directory_to_serve FLAGGING_DIRECTORY in
    makedirs flag_dir ;;
    for_each (py_range 0 9 1)
      (fun i =>
         flag_perturbed flag_dir
           (enhance_brightness img_orig (QArith_base.Qmake i 4)) (lighting_message i)) ;;
    send (Write (json_dumps (JDict [])))
  else
    send (SendError 404 (lit "Path not found: " ++ path req)).

(** Requests are handled one at a time, each to its end; an exception that
    leaves the handler is caught by the server, which goes on with the next
    request. *)
Definition handle (st : state) (req : request) : state := snd (do_POST req st).

Definition serve (reqs : list request) (st : state) : state :=
  fold_left handle reqs st.

(** The flag log of the serve directory: the text of
    [static/flagged/data.txt], empty while the file is not there. *)
Definition flag_dir : pystr := OsPath.join directory_to_serve FLAGGING_DIRECTORY.

Definition flag_log (st : state) : pystr :=
  match read_file (flag_file flag_dir) (files st) with
  | Some content => content
  | None => []
  end.

(** *** Running the handler *)

Lemma bind_lift (A B : Type) (r : res A) (a : A) (k : A -> M B) (st : state) :
  r = inr a -> bind (lift r) k st = k a st.
Proof. intros ->. reflexivity. Qed.

Arguments bind_lift {A B r a} k st _.

Lemma bind_step (A B : Type) (m : M A) (a : A) (k : A -> M B) (st st' : state) :
  m st = (inr a, st') -> bind m k st = k a st'.
Proof. intros H. unfold bind. now rewrite H. Qed.

Arguments bind_step {A B m a} k {st st'} _.

Lemma read_body_ok (req : request) (n : Z) (st : state) :
  content_length req = Some n -> read_body req st = (inr (rfile_read req n), st).
Proof.
  unfold content_length, read_body, bind, lift, ret.
  destruct (int_of_header (content_length_header req)) as [e|m]; [discriminate|].
  destruct (read_takes m); [|discriminate].
  now intros [= ->].
Qed.

(** One step of a run: [run H] for a step whose run is [H], [call H] for a
    collaborator's call whose result is [H]. *)
Ltac run H := rewrite (bind_step _ H); cbv beta.
Ltac call H := rewrite (bind_lift _ _ H); cbv beta.

(** The state once the headers of a JSON answer are out. *)
Definition headers_sent (st : state) : state :=
  {| sent := sent st ++ [SendResponse 200;
                         SendHeader (lit "Content-type") (lit "application/json");
                         EndHeaders];
     files := files st; dirs := dirs st; predicted := predicted st |}.

Lemma _set_headers_run (st : state) : _set_headers st = (inr tt, headers_sent st).
Proof.
  unfold _set_headers, bind, send, headers_sent. cbn [sent files dirs predicted].
  now rewrite <- !app_assoc.
Qed.

(** C1: a valid POST to [/api/predict/] with the body [{"data": d}] is
    answered with the JSON text of a dictionary whose ["data"] is
    [postprocess(predict(preprocess(d)))], as the interface computes it and
    with nothing done to it by the server. *)
Theorem predict_answers_with_pipeline_output
    (req : request) (st : state) (n : Z) (msg d : json)
    (x : Processed) (y : Prediction) (out : json) :
  path req = lit "/api/predict/" ->
  content_length req = Some n ->
  json_loads (rfile_read req n) = inr msg ->
  getitem msg (lit "data") = inr d ->
  inputs.preprocess (input_interface interface) d = inr x ->
  predict interface x = inr y ->
  outputs.postprocess (output_interface interface) y = inr out ->
  match saliency interface with
  | None => True
  | Some f => exists s, f x y = inr s
  end ->
  exists response st',
    do_POST req st = (inr tt, st') /\
    sent st' = sent (headers_sent st) ++ [Write (json_dumps response)] /\
    getitem response (lit "data") = inr out /\
    getitem response (lit "action") = inr (JStr (lit "output")) /\
    files st' = files st /\
    predicted st' = predicted st ++ [x].
Proof.
  intros Hpath Hlen Hloads Hdata Hpre Hpred Hpost Hsal.
  unfold do_POST. rewrite Hpath, pystr_eqb_refl.
  run (_set_headers_run st). run (read_body_ok req (headers_sent st) Hlen).
  call Hloads. call Hdata. call Hpre.
  unfold bind at 1, call_predict. rewrite Hpred. call Hpost.
  destruct (saliency interface) as [f|].
  - destruct Hsal as [s Hs].
    unfold bind at 1. call Hs.
    eexists. eexists. split; [reflexivity|].
    cbn [sent files dirs predicted headers_sent]. repeat split; reflexivity.
  - eexists. eexists. split; [reflexivity|].
    cbn [sent files dirs predicted headers_sent]. repeat split; reflexivity.
Qed.

(** C6: a POST to a path that is none of the four API routes is answered
    with [send_error(404, ...)], the message naming the path; nothing is
    written to the flag log or to any file, and [interface.predict] is not
    called. *)
Theorem unknown_path_is_not_found (req : request) (st : state) :
  path req <> lit "/api/predict/" ->
  path req <> lit "/api/flag/" ->
  path req <> lit "/api/auto/rotation" ->
  path req <> lit "/api/auto/lighting" ->
  exists st',
    do_POST req st = (inr tt, st') /\
    sent st' = sent st ++ [SendError 404 (lit "Path not found: " ++ path req)] /\
    files st' = files st /\
    flag_log st' = flag_log st /\
    predicted st' = predicted st.
Proof.
  intros H1 H2 H3 H4. unfold do_POST.
  rewrite (pystr_eqb_neq H1), (pystr_eqb_neq H2), (pystr_eqb_neq H3), (pystr_eqb_neq H4).
  eexists. split; [reflexivity|]. repeat split; reflexivity.
Qed.

(** *** Appending to the flag log *)

(** The state once [os.makedirs(flag_dir, exist_ok=True)] has run. *)
Definition dir_made (st : state) : state :=
  {| sent := sent st; files := files st;
     dirs := if existsb (pystr_eqb flag_dir) (dirs st) then dirs st else dirs st ++ [flag_dir];
     predicted := predicted st |}.

(** The state once a record and its newline have been written. *)
Definition record_written (record : json) (st : state) : state :=
  {| sent := sent st;
     files := append_file (flag_file flag_dir) [newline]
                (append_file (flag_file flag_dir) (json_dumps record) (files st));
     dirs := dirs st; predicted := predicted st |}.

(** The records of a log, each on a line of its own. *)
Definition log_text (records : list json) : pystr :=
  flat_map (fun r => json_dumps r ++ [newline]) records.

(** A request [/api/flag/] handles to its end, and the record it writes:
    the body is JSON with a message under ["data"], and both interfaces
    rebuild their flagged values. *)
Definition flag_request (req : request) (record : json) : Prop :=
  path req = lit "/api/flag/" /\
  exists n msg i o data message,
    content_length req = Some n /\
    json_loads (rfile_read req n) = inr msg /\
    inputs.rebuild_flagged (input_interface interface) flag_dir msg = inr i /\
    outputs.rebuild_flagged (output_interface interface) flag_dir msg = inr o /\
    getitem msg (lit "data") = inr data /\
    getitem data (lit "message") = inr message /\
    record = JDict [(lit "input", i); (lit "output", o); (lit "message", message)].

(** An image the perturbation loops flag, and the record written for it. *)
Definition perturbed_record (img : Image) (message : pystr) (record : json) : Prop :=
  exists y out i o,
    predict interface (model_input img) = inr y /\
    outputs.postprocess (output_interface interface) y = inr out /\
    inputs.save_to_file (input_interface interface) flag_dir img = inr i /\
    outputs.rebuild_flagged (output_interface interface) flag_dir
      (JDict [(lit "data", JDict [(lit "output", out)])]) = inr o /\
    record = JDict [(lit "input", i); (lit "output", o); (lit "message", JStr message)].

Lemma read_file_append_same (name data : pystr) (fs : filesystem) :
  read_file name (append_file name data fs)
  = Some (match read_file name fs with Some c => c | None => [] end ++ data).
Proof.
  induction fs as [|[p c] fs IH]; cbn [append_file read_file].
  - now rewrite pystr_eqb_refl.
  - destruct (pystr_eqb p name) eqn:E; cbn [read_file]; rewrite E; [reflexivity | exact IH].
Qed.

Lemma read_file_append_other (p name data : pystr) (fs : filesystem) :
  p <> name -> read_file p (append_file name data fs) = read_file p fs.
Proof.
  intros Hne. induction fs as [|[q c] fs IH]; cbn [append_file read_file].
  - rewrite pystr_eqb_neq; [reflexivity | congruence].
  - destruct (pystr_eqb q name) eqn:E; cbn [read_file].
    + apply pystr_eqb_eq in E. subst q.
      rewrite pystr_eqb_neq by congruence. reflexivity.
    + destruct (pystr_eqb q p); [reflexivity | exact IH].
Qed.

Lemma flag_log_record_written (record : json) (st : state) :
  flag_log (record_written record st) = flag_log st ++ json_dumps record ++ [newline].
Proof.
  unfold flag_log, record_written. cbn [files].
  rewrite !read_file_append_same, <- app_assoc.
  now destruct (read_file (flag_file flag_dir) (files st)).
Qed.

Lemma other_file_record_written (p : pystr) (record : json) (st : state) :
  p <> flag_file flag_dir ->
  read_file p (files (record_written record st)) = read_file p (files st).
Proof.
  intros Hne. unfold record_written. cbn [files].
  now rewrite !read_file_append_other.
Qed.

Lemma write_record_run (record : json) (st : state) :
  write_record flag_dir record st = (inr tt, record_written record st).
Proof. reflexivity. Qed.

Lemma makedirs_run (st : state) : makedirs flag_dir st = (inr tt, dir_made st).
Proof. reflexivity. Qed.

Lemma flag_request_run (req : request) (record : json) (st : state) :
  flag_request req record ->
  do_POST req st = (inr tt, record_written record (dir_made (headers_sent st))).
Proof.
  intros (Hpath & n & msg & i & o & data & message
          & Hlen & Hloads & Hin & Hout & Hdata & Hmsg & ->).
  unfold do_POST. rewrite Hpath.
  replace (pystr_eqb (lit "/api/flag/") (lit "/api/predict/")) with false by reflexivity.
  rewrite pystr_eqb_refl.
  run (_set_headers_run st). run (read_body_ok req (headers_sent st) Hlen).
  call Hloads. fold flag_dir. run (makedirs_run (headers_sent st)).
  call Hin. call Hout. call Hdata. call Hmsg.
  apply write_record_run.
Qed.

Lemma log_text_lines (records : list json) :
  log_text records = flat_map (fun l => l ++ [newline]) (map json_dumps records).
Proof.
  unfold log_text. induction records as [|r records IH]; [reflexivity|].
  cbn [flat_map map]. now rewrite IH.
Qed.

Lemma serve_cons (req : request) (reqs : list request) (st : state) :
  serve (req :: reqs) st = serve reqs (snd (do_POST req st)).
Proof. reflexivity. Qed.

Lemma serve_flag_requests (reqs : list request) (records : list json) :
  Forall2 flag_request reqs records ->
  forall st,
    flag_log (serve reqs st) = flag_log st ++ log_text records /\
    (forall p, p <> flag_file flag_dir ->
               read_file p (files (serve reqs st)) = read_file p (files st)) /\
    predicted (serve reqs st) = predicted st.
Proof.
  induction 1 as [|req record reqs records Hreq _ IH]; intros st.
  - cbn. rewrite app_nil_r. auto.
  - rewrite !serve_cons, (flag_request_run st Hreq). cbn [snd].
    destruct (IH (record_written record (dir_made (headers_sent st)))) as (Hlog & Hother & Hpred).
    split; [|split].
    + rewrite Hlog, flag_log_record_written. unfold log_text. cbn [flat_map].
      now rewrite <- !app_assoc.
    + intros p Hp. rewrite (Hother p Hp).
      rewrite other_file_record_written by exact Hp. reflexivity.
    + exact Hpred.
Qed.

(** C4: each POST to [/api/flag/] appends one record and its newline to the
    flag log and leaves what the log held in place; after N such requests in
    a row the log holds N more lines, each the JSON text of a dictionary
    [{input, output, message}], on one line, that [json.loads] reads. *)
Theorem flag_appends_one_line_each
    (reqs : list request) (records : list json) (st : state) :
  Forall2 flag_request reqs records ->
  length records = length reqs /\
  flag_log (serve reqs st) = flag_log st ++ log_text records /\
  Forall (fun r => exists i o m,
              r = JDict [(lit "input", i); (lit "output", o); (lit "message", m)])
         records /\
  (forall old_lines,
      Forall one_line old_lines ->
      flag_log st = flat_map (fun l => l ++ [newline]) old_lines ->
      read_lines (flag_log (serve reqs st)) = old_lines ++ map json_dumps records /\
      Forall parseable (map json_dumps records)).
Proof.
  intros H. split; [symmetry; exact (Forall2_length H)|].
  split; [apply (serve_flag_requests H)|]. split.
  - clear st. induction H as [|req r reqs records Hreq _ IH]; constructor; [|exact IH].
    destruct Hreq as (_ & n & msg & i & o & data & m & Hrest).
    exists i, o, m. apply Hrest.
  - intros old_lines Hold Hlog.
    destruct (serve_flag_requests H st) as (-> & _).
    rewrite Hlog, log_text_lines, <- flat_map_app. split.
    + apply read_lines_records. apply Forall_app. split; [exact Hold|].
      apply Forall_map, Forall_forall. intros r _. apply json_dumps_one_line.
    + apply Forall_map, Forall_forall. intros r _. apply json_dumps_parseable.
Qed.

(** *** The perturbation loops *)

(** The state once [interface.predict] has been called with [x]. *)
Definition predicted_with (x : Processed) (st : state) : state :=
  {| sent := sent st; files := files st; dirs := dirs st;
     predicted := predicted st ++ [x] |}.

Lemma flag_perturbed_run (img : Image) (message : pystr) (record : json) (st : state) :
  perturbed_record img message record ->
  flag_perturbed flag_dir img message st
  = (inr tt, record_written record (predicted_with (model_input img) st)).
Proof.
  intros (y & out & i & o & Hpred & Hpost & Hsave & Hout & ->).
  unfold flag_perturbed.
  unfold bind at 1, call_predict. rewrite Hpred. fold (predicted_with (model_input img) st).
  call Hpost. call Hsave. call Hout. apply write_record_run.
Qed.

Lemma for_each_flag_perturbed (A : Type) (image : A -> Image) (message : A -> pystr)
    (xs : list A) (records : list json) :
  Forall2 (fun x record => perturbed_record (image x) (message x) record) xs records ->
  forall st, exists st',
    for_each xs (fun x => flag_perturbed flag_dir (image x) (message x)) st = (inr tt, st') /\
    sent st' = sent st /\
    flag_log st' = flag_log st ++ log_text records /\
    predicted st' = predicted st ++ map (fun x => model_input (image x)) xs.
Proof.
  induction 1 as [|x record xs records Hx _ IH]; intros st; cbn [for_each].
  - exists st. unfold log_text. cbn [flat_map map]. rewrite !app_nil_r. auto.
  - run (flag_perturbed_run st Hx).
    destruct (IH (record_written record (predicted_with (model_input (image x)) st)))
      as (st' & Hrun & Hsent & Hlog & Hpred).
    exists st'. split; [exact Hrun|]. split; [exact Hsent|]. split.
    + rewrite Hlog, flag_log_record_written. unfold log_text. cbn [flat_map].
      now rewrite <- !app_assoc.
    + rewrite Hpred. cbn [predicted record_written predicted_with map].
      now rewrite <- app_assoc.
Qed.

(** The angles of the rotation route. *)
Definition rotation_angles : list Z := [-180; -135; -90; -45; 0; 45; 90; 135; 180]%Z.

Lemma rotation_range : py_range (-180) (180 + 45) 45 = rotation_angles.
Proof. reflexivity. Qed.

(** C5: a POST to [/api/auto/rotation] with a valid encoded image appends
    nine records to the flag log, one for each angle from -180 to 180 in
    steps of 45 and in that order, with the messages ["rotation by -180
    degrees"] to ["rotation by 180 degrees"], and then answers with the empty
    JSON object. *)
Theorem rotation_appends_nine_records
    (req : request) (st : state) (n : Z) (msg d : json) (img : Image)
    (records : list json) :
  path req = lit "/api/auto/rotation" ->
  content_length req = Some n ->
  json_loads (rfile_read req n) = inr msg ->
  getitem msg (lit "data") = inr d ->
  decode_base64_to_image d = inr img ->
  Forall2 (fun deg record =>
             perturbed_record (rotate (resize (convert_RGB img) (224, 224)%Z) deg)
               (rotation_message deg) record)
          rotation_angles records ->
  exists st',
    do_POST req st = (inr tt, st') /\
    flag_log st' = flag_log st ++ log_text records /\
    length records = 9 /\
    map (fun r => getitem r (lit "message")) records
    = map (fun m => inr (JStr (lit m)))
        ["rotation by -180 degrees"; "rotation by -135 degrees";
         "rotation by -90 degrees"; "rotation by -45 degrees";
         "rotation by 0 degrees"; "rotation by 45 degrees";
         "rotation by 90 degrees"; "rotation by 135 degrees";
         "rotation by 180 degrees"]%string /\
    sent st' = sent (headers_sent st) ++ [Write (lit "{}")] /\
    length (predicted st') = length (predicted st) + 9.
Proof.
  intros Hpath Hlen Hloads Hdata Hdecode Hrecords.
  destruct (for_each_flag_perturbed _ _ Hrecords (dir_made (headers_sent st)))
    as (st1 & Hloop & Hsent & Hlog & Hpred).
  exists {| sent := sent st1 ++ [Write (json_dumps (JDict []))]; files := files st1;
            dirs := dirs st1; predicted := predicted st1 |}.
  split; [|split; [|split; [|split; [|split]]]].
  - unfold do_POST. rewrite Hpath.
    replace (pystr_eqb (lit "/api/auto/rotation") (lit "/api/predict/")) with false
      by reflexivity.
    replace (pystr_eqb (lit "/api/auto/rotation") (lit "/api/flag/")) with false
      by reflexivity.
    rewrite pystr_eqb_refl.
    run (_set_headers_run st). run (read_body_ok req (headers_sent st) Hlen).
    call Hloads. call Hdata. call Hdecode. fold flag_dir.
    run (makedirs_run (headers_sent st)).
    rewrite rotation_range. run Hloop. reflexivity.
  - exact Hlog.
  - apply Forall2_length in Hrecords. now rewrite <- Hrecords.
  - unfold rotation_angles in Hrecords.
    repeat match goal with
           | H : Forall2 _ (_ :: _) _ |- _ => inversion H; subst; clear H
           | H : Forall2 _ [] _ |- _ => inversion H; subst; clear H
           | H : perturbed_record _ _ _ |- _ =>
               destruct H as (? & ? & ? & ? & _ & _ & _ & _ & ->)
           end.
    reflexivity.
  - cbn [sent]. rewrite Hsent. reflexivity.
  - cbn [predicted]. rewrite Hpred, length_app, length_map. reflexivity.
Qed.

(** *** What a request can do to the flag log *)

(** From [st] to [st'] the flag log has grown by these records, each with
    its newline, and the handler has written to no other file. *)
Definition appended (st st' : state) (records : list json) : Prop :=
  flag_log st' = flag_log st ++ log_text records /\
  (forall p, p <> flag_file flag_dir -> read_file p (files st') = read_file p (files st)).

(** A computation that, returning or raising, appends at most [bound] whole
    records and writes nothing else. *)
Definition log_safe {A : Type} (m : M A) (bound : nat) : Prop :=
  forall st, exists records,
    length records <= bound /\ appended st (snd (m st)) records.

Lemma appended_refl (st st' : state) : files st' = files st -> appended st st' [].
Proof.
  intros E. unfold appended, flag_log. rewrite E. cbn [log_text flat_map].
  rewrite app_nil_r. auto.
Qed.

Lemma appended_trans (st1 st2 st3 : state) (r1 r2 : list json) :
  appended st1 st2 r1 -> appended st2 st3 r2 -> appended st1 st3 (r1 ++ r2).
Proof.
  intros [L1 O1] [L2 O2]. split.
  - rewrite L2, L1. unfold log_text. now rewrite flat_map_app, app_assoc.
  - intros p Hp. now rewrite O2, O1.
Qed.

Lemma log_safe_same_files (A : Type) (m : M A) :
  (forall st, files (snd (m st)) = files st) -> log_safe m 0.
Proof.
  intros H st. exists []. split; [reflexivity | apply appended_refl, H].
Qed.

Lemma log_safe_ret (A : Type) (a : A) : log_safe (ret a) 0.
Proof. now apply log_safe_same_files. Qed.

Lemma log_safe_lift (A : Type) (r : res A) : log_safe (lift r) 0.
Proof. now apply log_safe_same_files. Qed.

Lemma log_safe_send (ev : response_event) : log_safe (send ev) 0.
Proof. now apply log_safe_same_files. Qed.

Lemma log_safe_makedirs (d : pystr) : log_safe (makedirs d) 0.
Proof. now apply log_safe_same_files. Qed.

Lemma log_safe_call_predict (x : Processed) : log_safe (call_predict x) 0.
Proof. now apply log_safe_same_files. Qed.

Lemma log_safe_write_record (record : json) : log_safe (write_record flag_dir record) 1.
Proof.
  intros st. exists [record]. split; [reflexivity|].
  rewrite write_record_run. cbn [snd]. split.
  - rewrite flag_log_record_written. unfold log_text. cbn [flat_map].
    now rewrite app_nil_r.
  - intros p Hp. now apply other_file_record_written.
Qed.

Lemma log_safe_bind (A B : Type) (m : M A) (k : A -> M B) (a b : nat) :
  log_safe m a -> (forall x, log_safe (k x) b) -> log_safe (bind m k) (a + b).
Proof.
  intros Hm Hk st. destruct (Hm st) as (r1 & Hl1 & H1).
  unfold bind. destruct (m st) as [[e|x] st1]; cbn [snd] in *.
  - exists r1. split; [lia | exact H1].
  - destruct (Hk x st1) as (r2 & Hl2 & H2).
    exists (r1 ++ r2). split; [rewrite length_app; lia|].
    now apply appended_trans with (st2 := st1).
Qed.

Lemma log_safe_weaken (A : Type) (m : M A) (a b : nat) :
  log_safe m a -> a <= b -> log_safe m b.
Proof.
  intros H Hab st. destruct (H st) as (r & Hl & Hr). exists r. split; [lia | exact Hr].
Qed.

Lemma log_safe_for_each (A : Type) (body : A -> M unit) (b : nat) (xs : list A) :
  (forall x, log_safe (body x) b) -> log_safe (for_each xs body) (length xs * b).
Proof.
  intros Hbody. induction xs as [|x xs IH]; cbn [for_each length].
  - apply log_safe_ret.
  - cbn [Nat.mul]. apply log_safe_bind; [apply Hbody | intros _; exact IH].
Qed.

Lemma log_safe_set_headers : log_safe _set_headers 0.
Proof.
  apply log_safe_same_files. intros st. now rewrite _set_headers_run.
Qed.

Lemma log_safe_read_body (req : request) : log_safe (read_body req) 0.
Proof.
  unfold read_body. apply log_safe_bind with (a := 0) (b := 0);
    [apply log_safe_lift|].
  intros n. destruct (read_takes n); [apply log_safe_ret | apply log_safe_lift].
Qed.

Lemma log_safe_flag_perturbed (img : Image) (message : pystr) :
  log_safe (flag_perturbed flag_dir img message) 1.
Proof.
  unfold flag_perturbed.
  apply log_safe_bind with (a := 0) (b := 1); [apply log_safe_call_predict | intros y].
  apply log_safe_bind with (a := 0) (b := 1); [apply log_safe_lift | intros out].
  apply log_safe_bind with (a := 0) (b := 1); [apply log_safe_lift | intros i].
  apply log_safe_bind with (a := 0) (b := 1); [apply log_safe_lift | intros o].
  apply log_safe_write_record.
Qed.

(** The start every API route shares: headers, body, [json.loads]. *)
Ltac log_safe_step :=
  first
    [ apply log_safe_set_headers | apply log_safe_read_body | apply log_safe_lift
    | apply log_safe_makedirs | apply log_safe_send | apply log_safe_call_predict
    | apply log_safe_ret | apply log_safe_write_record ].

Lemma log_safe_do_POST (req : request) : log_safe (do_POST req) 9.
Proof.
  unfold do_POST. fold flag_dir.
  destruct (pystr_eqb (path req) (lit "/api/predict/")).
  { apply log_safe_weaken with (a := 0); [|lia].
    repeat (apply log_safe_bind with (a := 0) (b := 0); [log_safe_step | intros ?]).
    apply log_safe_bind with (a := 0) (b := 0); [|intros ?; log_safe_step].
    destruct (saliency interface); [|log_safe_step].
    apply log_safe_bind with (a := 0) (b := 0); [log_safe_step | intros ?; log_safe_step]. }
  destruct (pystr_eqb (path req) (lit "/api/flag/")).
  { apply log_safe_weaken with (a := 1); [|lia].
    repeat (apply log_safe_bind with (a := 0) (b := 1); [log_safe_step | intros ?]).
    log_safe_step. }
  destruct (pystr_eqb (path req) (lit "/api/auto/rotation")).
  { repeat (apply log_safe_bind with (a := 0) (b := 9); [log_safe_step | intros ?]).
    apply log_safe_bind with (a := 9) (b := 0); [|intros ?; log_safe_step].
    apply log_safe_for_each with (b := 1). intros deg. apply log_safe_flag_perturbed. }
  destruct (pystr_eqb (path req) (lit "/api/auto/lighting")).
  { repeat (apply log_safe_bind with (a := 0) (b := 9); [log_safe_step | intros ?]).
    apply log_safe_bind with (a := 9) (b := 0); [|intros ?; log_safe_step].
    apply log_safe_for_each with (b := 1). intros i. apply log_safe_flag_perturbed. }
  apply log_safe_weaken with (a := 0); [log_safe_step | lia].
Qed.

(** X2: whatever requests are handled, valid or not and on any path, the
    flag log only grows, by whole records with their newlines and by at most
    nine per request; a log that was a sequence of lines is one afterwards,
    each new line holding a record that [json.loads] reads. *)
Theorem flag_log_stays_json_lines (reqs : list request) (st : state) :
  exists records,
    length records <= 9 * length reqs /\
    flag_log (serve reqs st) = flag_log st ++ log_text records /\
    (forall old_lines,
        Forall one_line old_lines ->
        flag_log st = flat_map (fun l => l ++ [newline]) old_lines ->
        read_lines (flag_log (serve reqs st)) = old_lines ++ map json_dumps records /\
        Forall parseable (map json_dumps records)).
Proof.
  assert (H : exists records,
             length records <= 9 * length reqs /\ appended st (serve reqs st) records).
  { revert st. induction reqs as [|req reqs IH]; intros st.
    - exists []. split; [cbn; lia | now apply appended_refl].
    - rewrite serve_cons.
      destruct (log_safe_do_POST req st) as (r1 & Hl1 & H1).
      destruct (IH (snd (do_POST req st))) as (r2 & Hl2 & H2).
      exists (r1 ++ r2). split; [rewrite length_app; cbn [length]; lia|].
      now apply appended_trans with (st2 := snd (do_POST req st)). }
  destruct H as (records & Hlen & Hlog & Hother).
  exists records. split; [exact Hlen|]. split; [exact Hlog|].
  intros old_lines Hold Hst. rewrite Hlog, Hst, log_text_lines, <- flat_map_app. split.
  - apply read_lines_records. apply Forall_app. split; [exact Hold|].
    apply Forall_map, Forall_forall. intros r _. apply json_dumps_one_line.
  - apply Forall_map, Forall_forall. intros r _. apply json_dumps_parseable.
Qed.

(** *** The other routes and the failing runs *)

(** The four routes of the API. *)
Definition api_route (p : pystr) : Prop :=
  p = lit "/api/predict/" \/ p = lit "/api/flag/" \/
  p = lit "/api/auto/rotation" \/ p = lit "/api/auto/lighting".

(** The body cannot be read as JSON, and [e] is what is raised: by [int],
    when the header [Content-Length] is missing or is no number, by [read],
    when the number is no length, or else by [json.loads], the length
    announced being within the bytes sent. *)
Definition body_unreadable (req : request) (e : exn) : Prop :=
  match int_of_header (content_length_header req) with
  | inl e' => e = e'
  | inr n =>
      if read_takes n
      then (n <= Z.of_nat (length (rfile req)))%Z /\ json_loads (rfile_read req n) = inl e
      else e = bad_read_length
  end.

(** The steps of the lighting route: [range(9)], the factor being [i/4]. *)
Definition lighting_steps : list Z := [0; 1; 2; 3; 4; 5; 6; 7; 8]%Z.

Lemma lighting_range : py_range 0 9 1 = lighting_steps.
Proof. reflexivity. Qed.

(** Comparing the path with the routes of the source. *)
Ltac decide_routes :=
  repeat match goal with
         | |- context [pystr_eqb (lit ?a) (lit ?b)] =>
             let v := eval vm_compute in (pystr_eqb (lit a) (lit b)) in
             change (pystr_eqb (lit a) (lit b)) with v
         end;
  cbv iota.

(** X1: a POST to [/api/auto/lighting] with a valid encoded image appends
    nine records to the flag log, one for each [i] from 0 to 8 in that order,
    the image brightened by the factor [i/4] and the message being
    ["brighting adjustment by a factor of i"], and then answers with the
    empty JSON object. *)
Theorem lighting_appends_nine_records
    (req : request) (st : state) (n : Z) (msg d : json) (img : Image)
    (records : list json) :
  path req = lit "/api/auto/lighting" ->
  content_length req = Some n ->
  json_loads (rfile_read req n) = inr msg ->
  getitem msg (lit "data") = inr d ->
  decode_base64_to_image d = inr img ->
  Forall2 (fun i record =>
             perturbed_record
               (enhance_brightness (resize (convert_RGB img) (224, 224)%Z)
                  (QArith_base.Qmake i 4))
               (lighting_message i) record)
          lighting_steps records ->
  exists st',
    do_POST req st = (inr tt, st') /\
    flag_log st' = flag_log st ++ log_text records /\
    length records = 9 /\
    map (fun r => getitem r (lit "message")) records
    = map (fun m => inr (JStr (lit m)))
        ["brighting adjustment by a factor of 0"; "brighting adjustment by a factor of 1";
         "brighting adjustment by a factor of 2"; "brighting adjustment by a factor of 3";
         "brighting adjustment by a factor of 4"; "brighting adjustment by a factor of 5";
         "brighting adjustment by a factor of 6"; "brighting adjustment by a factor of 7";
         "brighting adjustment by a factor of 8"]%string /\
    sent st' = sent (headers_sent st) ++ [Write (lit "{}")] /\
    length (predicted st') = length (predicted st) + 9.
Proof.
  intros Hpath Hlen Hloads Hdata Hdecode Hrecords.
  destruct (for_each_flag_perturbed _ _ Hrecords (dir_made (headers_sent st)))
    as (st1 & Hloop & Hsent & Hlog & Hpred).
  exists {| sent := sent st1 ++ [Write (json_dumps (JDict []))]; files := files st1;
            dirs := dirs st1; predicted := predicted st1 |}.
  split; [|split; [|split; [|split; [|split]]]].
  - unfold do_POST. rewrite Hpath. decide_routes.
    run (_set_headers_run st). run (read_body_ok req (headers_sent st) Hlen).
    call Hloads. call Hdata. call Hdecode. fold flag_dir.
    run (makedirs_run (headers_sent st)).
    rewrite lighting_range. run Hloop. reflexivity.
  - exact Hlog.
  - apply Forall2_length in Hrecords. now rewrite <- Hrecords.
  - unfold lighting_steps in Hrecords.
    repeat match goal with
           | H : Forall2 _ (_ :: _) _ |- _ => inversion H; subst; clear H
           | H : Forall2 _ [] _ |- _ => inversion H; subst; clear H
           | H : perturbed_record _ _ _ |- _ =>
               destruct H as (? & ? & ? & ? & _ & _ & _ & _ & ->)
           end.
    reflexivity.
  - cbn [sent]. rewrite Hsent. reflexivity.
  - cbn [predicted]. rewrite Hpred, length_app, length_map. reflexivity.
Qed.

(** X3: on each of the four API routes the headers of a 200 answer are sent
    before the body is looked at: when the body cannot be read the exception
    leaves the handler with those headers out and nothing else done, no body
    written, no file touched, no prediction made.  The exception is the one
    [int] raises on the header, a [TypeError] when the request has no
    [Content-Length], the [ValueError] of [read] when the header is a
    negative number other than -1, or else the one [json.loads] raises on
    the body. *)
Theorem unreadable_body_raises_after_headers (req : request) (st : state) (e : exn) :
  api_route (path req) ->
  body_unreadable req e ->
  do_POST req st = (inl e, headers_sent st) /\
  (content_length_header req = None -> exn_cls e = TypeError).
Proof.
  intros Hroute Hbody. unfold body_unreadable in Hbody. split.
  - unfold do_POST.
    destruct Hroute as [Hp|[Hp|[Hp|Hp]]]; rewrite Hp; decide_routes;
      run (_set_headers_run st); unfold read_body, bind, lift, ret;
      (destruct (int_of_header (content_length_header req)) as [e'|n];
       [now subst e|];
       destruct (read_takes n); [destruct Hbody as [_ Hbody]; now rewrite Hbody | now subst e]).
  - intros Hnone. rewrite Hnone in Hbody. cbn [int_of_header] in Hbody. now subst e.
Qed.

(** X4: on [/api/predict/] the answer carries a ["saliency"] entry exactly
    when the interface declares a saliency function: it is what the function
    returns for the pre-processed input and the raw prediction, next to
    ["action"] and ["data"], and without such a function the key is
    missing. *)
Theorem predict_saliency_entry
    (req : request) (st : state) (n : Z) (msg d : json)
    (x : Processed) (y : Prediction) (out : json) :
  path req = lit "/api/predict/" ->
  content_length req = Some n ->
  json_loads (rfile_read req n) = inr msg ->
  getitem msg (lit "data") = inr d ->
  inputs.preprocess (input_interface interface) d = inr x ->
  predict interface x = inr y ->
  outputs.postprocess (output_interface interface) y = inr out ->
  match saliency interface with
  | None => True
  | Some f => exists s, f x y = inr s
  end ->
  exists response st',
    do_POST req st = (inr tt, st') /\
    sent st' = sent (headers_sent st) ++ [Write (json_dumps response)] /\
    getitem response (lit "saliency")
    = match saliency interface with
      | Some f => f x y
      | None => inl (Exn KeyError (py_repr (lit "saliency")))
      end /\
    getitem response (lit "data") = inr out.
Proof.
  intros Hpath Hlen Hloads Hdata Hpre Hpred Hpost Hsal.
  unfold do_POST. rewrite Hpath, pystr_eqb_refl.
  run (_set_headers_run st). run (read_body_ok req (headers_sent st) Hlen).
  call Hloads. call Hdata. call Hpre.
  unfold bind at 1, call_predict. rewrite Hpred. call Hpost.
  destruct (saliency interface) as [f|].
  - destruct Hsal as [s Hs].
    unfold bind at 1. call Hs. rewrite Hs.
    exists (JDict (setitem [(lit "action", JStr (lit "output")); (lit "data", out)]
                     (lit "saliency") s)).
    eexists. split; [reflexivity|]. repeat split; reflexivity.
  - exists (JDict [(lit "action", JStr (lit "output")); (lit "data", out)]).
    eexists. split; [reflexivity|]. repeat split; reflexivity.
Qed.

(** X5: on [/api/predict/] a body is written only by a run that returns:
    when any step raises (the body, a missing ["data"], a stage of the
    pipeline, the saliency function) the 200 headers are all that was sent.
    No run touches a file, and [interface.predict] is called once at
    most. *)
Theorem predict_writes_body_only_on_success (req : request) (st : state) :
  path req = lit "/api/predict/" ->
  let (r, st') := do_POST req st in
  files st' = files st /\
  length (predicted st') <= length (predicted st) + 1 /\
  match r with
  | inr _ => exists response, sent st' = sent (headers_sent st) ++ [Write (json_dumps response)]
  | inl _ => sent st' = sent (headers_sent st)
  end.
Proof.
  intros Hpath. unfold do_POST. rewrite Hpath, pystr_eqb_refl.
  run (_set_headers_run st).
  unfold read_body, bind, lift, ret, call_predict, send. cbv beta.
  destruct (int_of_header (content_length_header req)) as [e|n];
    [|destruct (read_takes n);
      [destruct (json_loads (rfile_read req n)) as [e|msg];
       [|destruct (getitem msg (lit "data")) as [e|d];
         [|destruct (inputs.preprocess (input_interface interface) d) as [e|x];
           [|destruct (predict interface x) as [e|y];
             [|destruct (outputs.postprocess (output_interface interface) y) as [e|out];
               [|destruct (saliency interface) as [f|];
                 [destruct (f x y) as [e|s]|]]]]]]|]];
    cbv beta iota; cbn [sent files predicted headers_sent];
    rewrite ?length_app; cbn [length];
    (split; [reflexivity|]); (split; [lia|]); try reflexivity; eexists; reflexivity.
Qed.

(** A step of a perturbation loop that raises [e]: the prediction, its
    post-processing, the saving of the image or the rebuilding of the output
    fails, the stages before it having returned. *)
Definition perturbed_fails (img : Image) (e : exn) : Prop :=
  predict interface (model_input img) = inl e \/
  exists y,
    predict interface (model_input img) = inr y /\
    (outputs.postprocess (output_interface interface) y = inl e \/
     exists out,
       outputs.postprocess (output_interface interface) y = inr out /\
       (inputs.save_to_file (input_interface interface) flag_dir img = inl e \/
        exists i,
          inputs.save_to_file (input_interface interface) flag_dir img = inr i /\
          outputs.rebuild_flagged (output_interface interface) flag_dir
            (JDict [(lit "data", JDict [(lit "output", out)])]) = inl e)).

Lemma flag_perturbed_fails (img : Image) (message : pystr) (e : exn) (st : state) :
  perturbed_fails img e ->
  flag_perturbed flag_dir img message st = (inl e, predicted_with (model_input img) st).
Proof.
  unfold flag_perturbed.
  intros [Hpred | (y & Hpred & [Hpost | (out & Hpost & [Hsave | (i & Hsave & Hout)])])];
    unfold bind at 1, call_predict; rewrite Hpred;
    fold (predicted_with (model_input img) st); try reflexivity.
  - unfold bind, lift. now rewrite Hpost.
  - call Hpost. unfold bind, lift. now rewrite Hsave.
  - call Hpost. call Hsave. unfold bind, lift. now rewrite Hout.
Qed.

Lemma for_each_stops (A : Type) (image : A -> Image) (message : A -> pystr)
    (done : list A) (x : A) (rest : list A) (records : list json) (e : exn) :
  Forall2 (fun x record => perturbed_record (image x) (message x) record) done records ->
  perturbed_fails (image x) e ->
  forall st, exists st',
    for_each (done ++ x :: rest) (fun x => flag_perturbed flag_dir (image x) (message x)) st
    = (inl e, st') /\
    sent st' = sent st /\
    flag_log st' = flag_log st ++ log_text records /\
    predicted st' = predicted st ++ map (fun x => model_input (image x)) (done ++ [x]).
Proof.
  intros Hdone Hfail.
  induction Hdone as [|x0 record done records Hx _ IH]; intros st; cbn [for_each app].
  - exists (predicted_with (model_input (image x)) st).
    unfold bind. rewrite (flag_perturbed_fails (message x) st Hfail).
    unfold log_text. cbn [flat_map map]. rewrite app_nil_r. auto.
  - run (flag_perturbed_run st Hx).
    destruct (IH (record_written record (predicted_with (model_input (image x0)) st)))
      as (st' & Hrun & Hsent & Hlog & Hpred).
    exists st'. split; [exact Hrun|]. split; [exact Hsent|]. split.
    + rewrite Hlog, flag_log_record_written. unfold log_text. cbn [flat_map].
      now rewrite <- !app_assoc.
    + rewrite Hpred. cbn [predicted record_written predicted_with map].
      now rewrite <- app_assoc.
Qed.

(** X6: the rotation route is not all-or-nothing.  When the step for one
    angle raises, after the steps for the angles before it went through, the
    exception leaves the handler: the records of the earlier angles stay in
    the flag log, nothing is logged for the failing angle or the later ones,
    no body follows the 200 headers, and the model was called once for each
    angle up to the failing one. *)
Theorem rotation_stops_at_first_failure
    (req : request) (st : state) (n : Z) (msg d : json) (img : Image)
    (done : list Z) (deg : Z) (rest : list Z) (records : list json) (e : exn) :
  path req = lit "/api/auto/rotation" ->
  content_length req = Some n ->
  json_loads (rfile_read req n) = inr msg ->
  getitem msg (lit "data") = inr d ->
  decode_base64_to_image d = inr img ->
  rotation_angles = done ++ deg :: rest ->
  Forall2 (fun deg record =>
             perturbed_record (rotate (resize (convert_RGB img) (224, 224)%Z) deg)
               (rotation_message deg) record)
          done records ->
  perturbed_fails (rotate (resize (convert_RGB img) (224, 224)%Z) deg) e ->
  exists st',
    do_POST req st = (inl e, st') /\
    flag_log st' = flag_log st ++ log_text records /\
    length records = length done /\
    sent st' = sent (headers_sent st) /\
    length (predicted st') = length (predicted st) + length done + 1.
Proof.
  intros Hpath Hlen Hloads Hdata Hdecode Hsplit Hrecords Hfail.
  destruct (@for_each_stops Z (fun deg => rotate (resize (convert_RGB img) (224, 224)%Z) deg)
              rotation_message done deg rest records e Hrecords Hfail
              (dir_made (headers_sent st)))
    as (st1 & Hloop & Hsent & Hlog & Hpred).
  exists st1. split; [|split; [|split; [|split]]].
  - unfold do_POST. rewrite Hpath. decide_routes.
    run (_set_headers_run st). run (read_body_ok req (headers_sent st) Hlen).
    call Hloads. call Hdata. call Hdecode. fold flag_dir.
    run (makedirs_run (headers_sent st)).
    rewrite rotation_range, Hsplit. unfold bind at 1. now rewrite Hloop.
  - exact Hlog.
  - apply Forall2_length in Hrecords. now rewrite <- Hrecords.
  - exact Hsent.
  - rewrite Hpred, length_app, length_map, length_app. cbn [predicted dir_made headers_sent length].
    lia.
Qed.

(** X14: reading the flag log back line by line with [json.loads] gives the
    records that were flagged, in the order of the requests, after those the
    log held before: what [/api/flag/] writes with [json.dumps] is read back
    as the very dictionaries written, none of them having a key twice. *)
Theorem flagged_records_read_back
    (reqs : list request) (records old : list json) (st : state) :
  Forall2 flag_request reqs records ->
  flag_log st = log_text old ->
  Forall well_keyed old ->
  Forall well_keyed records ->
  map Json.json_loads (read_lines (flag_log (serve reqs st))) = map Some (old ++ records).
Proof.
  intros Hreqs Hlog Hold Hrecords.
  destruct (serve_flag_requests Hreqs st) as (-> & _).
  rewrite Hlog, !log_text_lines, <- flat_map_app, <- map_app.
  rewrite read_lines_records.
  - rewrite map_map. apply map_ext_in. intros r Hr. apply json_loads_dumps.
    assert (Forall well_keyed (old ++ records)) as Hall by (apply Forall_app; now split).
    rewrite Forall_forall in Hall. now apply Hall.
  - apply Forall_map, Forall_forall. intros r _. apply json_dumps_one_line.
Qed.

End Handler.

(** *** A small server to run the handler on *)

(** A [json.loads] that reads the texts [json.dumps] writes of the given
    values, and raises on any other text. *)
Definition loads_known (known : list json) (body : pystr) : res json :=
  match find (fun m => pystr_eqb body (json_dumps m)) known with
  | Some m => inr m
  | None => inl (Exn ValueError (lit "Expecting value"))
  end.

(** An [int] that reads the numerals [str] writes, and raises on any other
    text. *)
Definition example_int (text : pystr) : res Z :=
  match parse_int text with
  | Some (JInt n, []) => inr n
  | _ => inl (Exn ValueError (lit "invalid literal for int() with base 10: " ++ py_repr text))
  end.

Definition predict_msg : json := JDict [(lit "data", JInt 7)].
Definition flag_msg : json :=
  JDict [(lit "data", JDict [(lit "message", JStr (lit "wrong label"))])].
Definition rotation_msg : json := JDict [(lit "data", JStr (lit "data:image/png;base64,AAAA"))].

(** Images are modelled by what was done to them; the model wraps its input
    in a list. *)
Definition example_interface : Interface json json json :=
  {| input_interface :=
       {| inputs.preprocess := fun d => inr d;
          inputs.rebuild_flagged := fun _ msg => getitem msg (lit "data");
          inputs.save_to_file := fun dir (img : json) => inr (JList [JStr dir; img]) |};
     output_interface :=
       {| outputs.postprocess := fun y => inr y;
          outputs.rebuild_flagged := fun _ msg => getitem msg (lit "data") |};
     predict := fun x => inr (JList [x]);
     saliency := None |}.

Definition example_loads : pystr -> res json :=
  loads_known [predict_msg; flag_msg; rotation_msg].

Definition example_rotate (img : json) (deg : Z) : json := JList [img; JInt deg].

Definition example_POST : request -> M json unit :=
  do_POST example_int example_loads (fun d => inr d) (fun img => img) (fun img _ => img)
    example_rotate (fun img _ => img) (fun img => img)
    example_interface (lit "/tmp/gradio").

Definition request_of (p : pystr) (msg : json) : request :=
  {| path := p;
     content_length_header := Some (str_of_Z (Z.of_nat (length (json_dumps msg))));
     rfile := json_dumps msg |}.

Definition fresh : state json :=
  {| sent := []; files := []; dirs := []; predicted := [] |}.

Lemma predict_example :
  exists response st',
    example_POST (request_of (lit "/api/predict/") predict_msg) fresh = (inr tt, st') /\
    sent st' = sent (headers_sent fresh) ++ [Write (json_dumps response)] /\
    getitem response (lit "data") = inr (JList [JInt 7]) /\
    getitem response (lit "action") = inr (JStr (lit "output")) /\
    files st' = files fresh /\
    predicted st' = predicted fresh ++ [JInt 7].
Proof.
  eapply (@predict_answers_with_pipeline_output json json json example_int example_loads
            (fun d => inr d) (fun img => img) (fun img _ => img)
            example_rotate (fun img _ => img) (fun img => img)
            example_interface (lit "/tmp/gradio")
            (request_of (lit "/api/predict/") predict_msg) fresh
            _ predict_msg (JInt 7) (JInt 7) (JList [JInt 7]) (JList [JInt 7]));
    first [reflexivity | exact I].
Defined.

Lemma unknown_path_example :
  exists st',
    example_POST (request_of (lit "/api/predict") predict_msg) fresh = (inr tt, st') /\
    sent st' = sent fresh ++ [SendError 404 (lit "Path not found: /api/predict")] /\
    files st' = files fresh /\
    flag_log (lit "/tmp/gradio") st' = flag_log (lit "/tmp/gradio") fresh /\
    predicted st' = predicted fresh.
Proof.
  apply (@unknown_path_is_not_found json json json example_int example_loads
           (fun d => inr d) (fun img => img) (fun img _ => img)
           example_rotate (fun img _ => img) (fun img => img)
           example_interface (lit "/tmp/gradio")
           (request_of (lit "/api/predict") predict_msg) fresh);
    intros E; discriminate E.
Defined.

Definition example_serve : list request -> state json -> state json :=
  serve example_int example_loads (fun d => inr d) (fun img => img) (fun img _ => img)
    example_rotate (fun img _ => img) (fun img => img)
    example_interface (lit "/tmp/gradio").

Definition example_flag_record : json :=
  JDict [(lit "input", JDict [(lit "message", JStr (lit "wrong label"))]);
         (lit "output", JDict [(lit "message", JStr (lit "wrong label"))]);
         (lit "message", JStr (lit "wrong label"))].

Lemma flag_twice_example :
  read_lines
    (flag_log (lit "/tmp/gradio")
       (example_serve [request_of (lit "/api/flag/") flag_msg;
                       request_of (lit "/api/flag/") flag_msg] fresh))
  = [json_dumps example_flag_record; json_dumps example_flag_record].
Proof.
  refine (proj1 (proj2 (proj2 (proj2
            (@flag_appends_one_line_each json json json example_int example_loads
               (fun d => inr d) (fun img => img) (fun img _ => img)
               example_rotate (fun img _ => img) (fun img => img)
               example_interface (lit "/tmp/gradio")
               [request_of (lit "/api/flag/") flag_msg;
                request_of (lit "/api/flag/") flag_msg]
               [example_flag_record; example_flag_record] fresh _)))
            [] (Forall_nil _) eq_refl)).
  repeat apply Forall2_cons; try apply Forall2_nil;
    (split; [reflexivity|]);
    exists (Z.of_nat (length (json_dumps flag_msg))), flag_msg,
      (JDict [(lit "message", JStr (lit "wrong label"))]),
      (JDict [(lit "message", JStr (lit "wrong label"))]),
      (JDict [(lit "message", JStr (lit "wrong label"))]),
      (JStr (lit "wrong label"));
    repeat split; reflexivity.
Defined.

Definition example_rotation_record (deg : Z) : json :=
  let img := example_rotate (JStr (lit "data:image/png;base64,AAAA")) deg in
  JDict [(lit "input", JList [JStr (flag_dir (lit "/tmp/gradio")); img]);
         (lit "output", JDict [(lit "output", JList [img])]);
         (lit "message", JStr (rotation_message deg))].

Lemma rotation_example :
  exists st',
    example_POST (request_of (lit "/api/auto/rotation") rotation_msg) fresh = (inr tt, st') /\
    flag_log (lit "/tmp/gradio") st'
    = flag_log (lit "/tmp/gradio") fresh
      ++ log_text (map example_rotation_record rotation_angles) /\
    length (map example_rotation_record rotation_angles) = 9 /\
    map (fun r => getitem r (lit "message")) (map example_rotation_record rotation_angles)
    = map (fun m => inr (JStr (lit m)))
        ["rotation by -180 degrees"; "rotation by -135 degrees";
         "rotation by -90 degrees"; "rotation by -45 degrees";
         "rotation by 0 degrees"; "rotation by 45 degrees";
         "rotation by 90 degrees"; "rotation by 135 degrees";
         "rotation by 180 degrees"]%string /\
    sent st' = sent (headers_sent fresh) ++ [Write (lit "{}")] /\
    length (predicted st') = length (predicted fresh) + 9.
Proof.
  apply (@rotation_appends_nine_records json json json example_int example_loads
           (fun d => inr d) (fun img => img) (fun img _ => img)
           example_rotate (fun img _ => img) (fun img => img)
           example_interface (lit "/tmp/gradio")
           (request_of (lit "/api/auto/rotation") rotation_msg) fresh
           (Z.of_nat (length (json_dumps rotation_msg))) rotation_msg
           (JStr (lit "data:image/png;base64,AAAA"))
           (JStr (lit "data:image/png;base64,AAAA"))
           (map example_rotation_record rotation_angles));
    try reflexivity.
  repeat apply Forall2_cons; try apply Forall2_nil;
    do 4 eexists; repeat split; reflexivity.
Defined.

(** *** A second server: a saliency function, a model that rejects one image *)

Definition example_enhance (img : json) (factor : QArith_base.Q) : json :=
  JList [img; JInt (QArith_base.Qnum factor); JInt (Zpos (QArith_base.Qden factor))].

(** The model raises on the image rotated by 90 degrees. *)
Definition picky_predict (x : json) : res json :=
  match x with
  | JList [_; JInt 90] => inl (Exn ValueError (lit "bad shape"))
  | _ => inr (JList [x])
  end.

Definition picky_interface : Interface json json json :=
  {| input_interface := input_interface example_interface;
     output_interface := output_interface example_interface;
     predict := picky_predict;
     saliency := Some (fun x y => inr (JList [x; y])) |}.

Definition picky_POST : request -> M json unit :=
  do_POST example_int example_loads (fun d => inr d) (fun img => img) (fun img _ => img)
    example_rotate example_enhance (fun img => img)
    picky_interface (lit "/tmp/gradio").

Definition example_lighting_record (i : Z) : json :=
  let img := example_enhance (JStr (lit "data:image/png;base64,AAAA")) (QArith_base.Qmake i 4) in
  JDict [(lit "input", JList [JStr (flag_dir (lit "/tmp/gradio")); img]);
         (lit "output", JDict [(lit "output", JList [img])]);
         (lit "message", JStr (lighting_message i))].

Lemma lighting_example :
  exists st',
    picky_POST (request_of (lit "/api/auto/lighting") rotation_msg) fresh = (inr tt, st') /\
    flag_log (lit "/tmp/gradio") st'
    = flag_log (lit "/tmp/gradio") fresh
      ++ log_text (map example_lighting_record lighting_steps) /\
    length (map example_lighting_record lighting_steps) = 9 /\
    map (fun r => getitem r (lit "message")) (map example_lighting_record lighting_steps)
    = map (fun m => inr (JStr (lit m)))
        ["brighting adjustment by a factor of 0"; "brighting adjustment by a factor of 1";
         "brighting adjustment by a factor of 2"; "brighting adjustment by a factor of 3";
         "brighting adjustment by a factor of 4"; "brighting adjustment by a factor of 5";
         "brighting adjustment by a factor of 6"; "brighting adjustment by a factor of 7";
         "brighting adjustment by a factor of 8"]%string /\
    sent st' = sent (headers_sent fresh) ++ [Write (lit "{}")] /\
    length (predicted st') = length (predicted fresh) + 9.
Proof.
  apply (@lighting_appends_nine_records json json json example_int example_loads
           (fun d => inr d) (fun img => img) (fun img _ => img)
           example_rotate example_enhance (fun img => img)
           picky_interface (lit "/tmp/gradio")
           (request_of (lit "/api/auto/lighting") rotation_msg) fresh
           (Z.of_nat (length (json_dumps rotation_msg))) rotation_msg
           (JStr (lit "data:image/png;base64,AAAA"))
           (JStr (lit "data:image/png;base64,AAAA"))
           (map example_lighting_record lighting_steps));
    try reflexivity.
  repeat apply Forall2_cons; try apply Forall2_nil;
    do 4 eexists; repeat split; reflexivity.
Defined.

(** A body that is no JSON text. *)
Definition garbled_request (p : pystr) : request :=
  {| path := p; content_length_header := Some (lit "5"); rfile := lit "{da: " |}.

(** A request without [Content-Length]. *)
Definition headerless_request (p : pystr) : request :=
  {| path := p; content_length_header := None; rfile := lit "{}" |}.

Lemma unreadable_body_example :
  picky_POST (headerless_request (lit "/api/flag/")) fresh
  = (inl (Exn TypeError
            (lit "int() argument must be a string, a bytes-like object or a real number, not 'NoneType'")),
     headers_sent fresh) /\
  (content_length_header (headerless_request (lit "/api/flag/")) = None ->
   exn_cls (Exn TypeError
              (lit "int() argument must be a string, a bytes-like object or a real number, not 'NoneType'"))
   = TypeError).
Proof.
  apply (@unreadable_body_raises_after_headers json json json example_int example_loads
           (fun d => inr d) (fun img => img) (fun img _ => img)
           example_rotate example_enhance (fun img => img)
           picky_interface (lit "/tmp/gradio")
           (headerless_request (lit "/api/flag/")) fresh
           (Exn TypeError
              (lit "int() argument must be a string, a bytes-like object or a real number, not 'NoneType'"))).
  - right. left. reflexivity.
  - reflexivity.
Defined.

Lemma saliency_example :
  exists response st',
    picky_POST (request_of (lit "/api/predict/") predict_msg) fresh = (inr tt, st') /\
    sent st' = sent (headers_sent fresh) ++ [Write (json_dumps response)] /\
    getitem response (lit "saliency") = inr (JList [JInt 7; JList [JInt 7]]) /\
    getitem response (lit "data") = inr (JList [JInt 7]).
Proof.
  apply (@predict_saliency_entry json json json example_int example_loads
           (fun d => inr d) (fun img => img) (fun img _ => img)
           example_rotate example_enhance (fun img => img)
           picky_interface (lit "/tmp/gradio")
           (request_of (lit "/api/predict/") predict_msg) fresh
           (Z.of_nat (length (json_dumps predict_msg))) predict_msg
           (JInt 7) (JInt 7) (JList [JInt 7]) (JList [JInt 7]));
    try reflexivity.
  exists (JList [JInt 7; JList [JInt 7]]). reflexivity.
Defined.

Lemma predict_failure_example :
  let (r, st') := picky_POST (garbled_request (lit "/api/predict/")) fresh in
  files st' = files fresh /\
  length (predicted st') <= length (predicted fresh) + 1 /\
  match r with
  | inr _ => exists response, sent st' = sent (headers_sent fresh) ++ [Write (json_dumps response)]
  | inl _ => sent st' = sent (headers_sent fresh)
  end.
Proof.
  apply (@predict_writes_body_only_on_success json json json example_int example_loads
           (fun d => inr d) (fun img => img) (fun img _ => img)
           example_rotate example_enhance (fun img => img)
           picky_interface (lit "/tmp/gradio")
           (garbled_request (lit "/api/predict/")) fresh).
  reflexivity.
Defined.

Lemma rotation_failure_example :
  exists st',
    picky_POST (request_of (lit "/api/auto/rotation") rotation_msg) fresh
    = (inl (Exn ValueError (lit "bad shape")), st') /\
    flag_log (lit "/tmp/gradio") st'
    = flag_log (lit "/tmp/gradio") fresh
      ++ log_text (map example_rotation_record [-180; -135; -90; -45; 0; 45]%Z) /\
    length (map example_rotation_record [-180; -135; -90; -45; 0; 45]%Z) = 6 /\
    sent st' = sent (headers_sent fresh) /\
    length (predicted st') = length (predicted fresh) + 6 + 1.
Proof.
  apply (@rotation_stops_at_first_failure json json json example_int example_loads
           (fun d => inr d) (fun img => img) (fun img _ => img)
           example_rotate example_enhance (fun img => img)
           picky_interface (lit "/tmp/gradio")
           (request_of (lit "/api/auto/rotation") rotation_msg) fresh
           (Z.of_nat (length (json_dumps rotation_msg))) rotation_msg
           (JStr (lit "data:image/png;base64,AAAA"))
           (JStr (lit "data:image/png;base64,AAAA"))
           [-180; -135; -90; -45; 0; 45]%Z 90%Z [135; 180]%Z
           (map example_rotation_record [-180; -135; -90; -45; 0; 45]%Z)
           (Exn ValueError (lit "bad shape")));
    try reflexivity.
  - repeat apply Forall2_cons; try apply Forall2_nil;
      do 4 eexists; repeat split; reflexivity.
  - left. reflexivity.
Defined.

Lemma flag_read_back_example :
  map json_loads
    (read_lines
       (flag_log (lit "/tmp/gradio")
          (example_serve [request_of (lit "/api/flag/") flag_msg;
                          request_of (lit "/api/flag/") flag_msg] fresh)))
  = map Some ([] ++ [example_flag_record; example_flag_record]).
Proof.
  apply (@flagged_records_read_back json json json example_int example_loads
           (fun d => inr d) (fun img => img) (fun img _ => img)
           example_rotate (fun img _ => img) (fun img => img)
           example_interface (lit "/tmp/gradio")
           [request_of (lit "/api/flag/") flag_msg;
            request_of (lit "/api/flag/") flag_msg]
           [example_flag_record; example_flag_record] [] fresh).
  - repeat apply Forall2_cons; try apply Forall2_nil;
      (split; [reflexivity|]);
      exists (Z.of_nat (length (json_dumps flag_msg))), flag_msg,
        (JDict [(lit "message", JStr (lit "wrong label"))]),
        (JDict [(lit "message", JStr (lit "wrong label"))]),
        (JDict [(lit "message", JStr (lit "wrong label"))]),
        (JStr (lit "wrong label"));
      repeat split; reflexivity.
  - reflexivity.
  - constructor.
  - repeat constructor; cbn; intuition discriminate.
Defined.

End Server.


(** ** Templates on disk: [render_template_with_tags] and the config file *)

Module TemplateFiles.
Import PyStr Renderer.

Definition CONFIG_FILE : pystr := lit "static/config.json".

Definition newline : ascii := Json.newline.
Definition carriage_return : ascii := "013"%char.

(** What [open(path)] hands to the reader: in text mode with the default
    [newline=None] the line ends [\r\n] and [\r] of the file come out as
    [\n]. *)
Fixpoint universal_newlines (s : pystr) : pystr :=
  match s with
  | [] => []
  | c :: s' =>
      if Ascii.eqb c carriage_return
      then newline :: match s' with
                      | d :: s'' =>
                          if Ascii.eqb d newline then universal_newlines s''
                          else universal_newlines s'
                      | [] => []
                      end
      else c :: universal_newlines s'
  end.

(** [fin.readlines()]: the text cut after each newline, the newlines kept. *)
Fixpoint readlines (s : pystr) : list pystr :=
  match s with
  | [] => []
  | c :: s' =>
      if Ascii.eqb c newline then [c] :: readlines s'
      else match readlines s' with
           | [] => [[c]]
           | line :: rest => (c :: line) :: rest
           end
  end.

(** [open(name, "w")]: the file is created or emptied. *)
Fixpoint truncate_file (name : pystr) (fs : Server.filesystem) : Server.filesystem :=
  match fs with
  | [] => [(name, [])]
  | (p, content) :: rest =>
      if pystr_eqb p name then (p, []) :: rest
      else (p, content) :: truncate_file name rest
  end.

(** [for line in new_lines: fout.write(line)]; iterating over a string
    gives its characters. *)
Definition lines_of (t : text) : list pystr :=
  match t with
  | Lines ls => ls
  | Str s => map (fun c => [c]) s
  end.

Definition write_lines (name : pystr) (new_lines : list pystr) (fs : Server.filesystem)
  : Server.filesystem :=
  fold_left (fun fs line => Server.append_file name line fs) new_lines fs.

(** The files are the regular, readable files of the disk; [open] of a path
    that is none of them raises [FileNotFoundError], an [OSError]. *)
Definition render_template_with_tags (template_path : pystr) (ctx : context)
    (fs : Server.filesystem) : res unit * Server.filesystem :=
  match Server.read_file template_path fs with
  | None =>
      (inl (Exn OSError
              (lit "[Errno 2] No such file or directory: " ++ Json.py_repr template_path)),
       fs)
  | Some content =>
      let old_lines := readlines (universal_newlines content) in
      let new_lines := render_string_or_list_with_tags (Lines old_lines) ctx in
      (inr tt, write_lines template_path (lines_of new_lines) (truncate_file template_path fs))
  end.

Definition set_interface_types_in_config_file (temp_dir : pystr)
    (input_interface output_interface : pyval) (fs : Server.filesystem)
  : res unit * Server.filesystem :=
  let config_file := OsPath.join temp_dir CONFIG_FILE in
  render_template_with_tags config_file
    [(lit "input_interface_type", input_interface);
     (lit "output_interface_type", output_interface)] fs.

Definition set_share_url_in_config_file (temp_dir : pystr) (share_url : pyval)
    (fs : Server.filesystem) : res unit * Server.filesystem :=
  let config_file := OsPath.join temp_dir CONFIG_FILE in
  render_template_with_tags config_file [(lit "share_url", share_url)] fs.

(** A text without the character [c]. *)
Definition without (c : ascii) (s : pystr) : Prop := Forall (fun d => d <> c) s.

(** *** Tags do not reach over a line end *)

Lemma startswith_before (c : ascii) (old a b : pystr) :
  without c old -> startswith old (a ++ c :: b) = true -> startswith old a = true.
Proof.
  intros Hold. revert a. induction Hold as [|o old Ho _ IH]; intros a H; [reflexivity|].
  destruct a as [|d a]; cbn [app startswith] in *.
  - apply andb_true_iff in H as [H _]. apply Ascii.eqb_eq in H. congruence.
  - apply andb_true_iff in H as [H1 H2]. rewrite H1. cbn [andb]. now apply IH.
Qed.

Lemma startswith_longer (old a b : pystr) :
  startswith old a = true -> startswith old (a ++ b) = true.
Proof.
  intros H. apply startswith_spec in H as [t ->]. rewrite <- app_assoc. apply startswith_app.
Qed.

Lemma replace_from_before (c : ascii) (old new b : pystr) :
  old <> [] -> without c old ->
  forall n a, length a <= n ->
    replace_from old new 0 (a ++ c :: b)
    = replace_from old new 0 a ++ c :: replace_from old new 0 b.
Proof.
  intros Hne Hold. induction n as [|n IH]; intros a Hlen.
  - destruct a; [|cbn in Hlen; lia]. cbn [app].
    rewrite replace_from_nomatch; [reflexivity|].
    destruct (startswith old (c :: b)) eqn:E; [|reflexivity].
    apply (@startswith_before c old [] b Hold) in E.
    destruct old; [congruence | discriminate E].
  - destruct a as [|d a]; [apply (IH []); cbn; lia|].
    destruct (startswith old (d :: a)) eqn:E.
    + apply startswith_spec in E as [t Et]. rewrite Et, <- app_assoc.
      rewrite !(@replace_from_match old new _ Hne), <- app_assoc. f_equal.
      apply IH.
      assert (length (d :: a) = length old + length t) as Hl by (rewrite Et; apply length_app).
      destruct old; [congruence|]. cbn [length] in *. lia.
    + assert (startswith old ((d :: a) ++ c :: b) = false) as E'.
      { destruct (startswith old ((d :: a) ++ c :: b)) eqn:E'; [|reflexivity].
        apply (startswith_before _ _ Hold) in E'. congruence. }
      cbn [app] in *. rewrite !replace_from_nomatch by assumption.
      cbn [app]. f_equal. apply IH. cbn [length] in Hlen. lia.
Qed.

Lemma without_tag (c : ascii) (key : pystr) :
  c <> lbrace -> c <> rbrace -> without c key -> without c (tag key).
Proof.
  intros Hl Hr Hkey. rewrite tag_unfold. unfold without.
  repeat constructor; try congruence.
  apply Forall_app. split; [exact Hkey|]. repeat constructor; congruence.
Qed.

Lemma replace_tags_empty (ctx : context) : replace_tags ctx [] = [].
Proof.
  induction ctx as [|[k v] ctx IH]; cbn [replace_tags]; [reflexivity|].
  now rewrite str_replace_nonempty by apply tag_not_nil.
Qed.

(** No key holds the character [c]. *)
Definition keys_without (c : ascii) (ctx : context) : Prop :=
  Forall (fun kv => without c (fst kv)) ctx.

Lemma replace_tags_before (c : ascii) (ctx : context) :
  c <> lbrace -> c <> rbrace -> keys_without c ctx ->
  forall a b, replace_tags ctx (a ++ c :: b) = replace_tags ctx a ++ c :: replace_tags ctx b.
Proof.
  intros Hl Hr. induction 1 as [|[k v] ctx Hk _ IH]; intros a b; [reflexivity|].
  cbn [replace_tags fst] in *.
  rewrite !str_replace_nonempty by apply tag_not_nil.
  rewrite (@replace_from_before c (tag k) (py_str v) b (@tag_not_nil k)
             (without_tag Hl Hr Hk) (length a) a (le_n _)).
  apply IH.
Qed.

(** *** Reading lines *)

Lemma readlines_split (s : pystr) :
  (s = [] /\ readlines s = []) \/
  (s <> [] /\ readlines s = [s]) \/
  (exists x rest, s = x ++ newline :: rest /\ readlines s = (x ++ [newline]) :: readlines rest).
Proof.
  induction s as [|c s IH]; [now left|]. right. cbn [readlines].
  destruct (Ascii.eqb c newline) eqn:E.
  - apply Ascii.eqb_eq in E. subst c. right. now exists [], s.
  - destruct IH as [[-> ->] | [[Hne ->] | (x & rest & -> & ->)]].
    + left. split; [discriminate | reflexivity].
    + left. split; [discriminate | reflexivity].
    + right. now exists (c :: x), rest.
Qed.

(** Rendering line by line is rendering the whole text. *)
Lemma render_lines_whole (ctx : context) :
  keys_without newline ctx ->
  forall n s, length s <= n ->
    concat (map (replace_tags ctx) (readlines s)) = replace_tags ctx s.
Proof.
  intros Hctx. induction n as [|n IH]; intros s Hlen.
  - destruct s; [|cbn in Hlen; lia]. cbn. now rewrite replace_tags_empty.
  - destruct (readlines_split s) as [[-> ->] | [[Hne ->] | (x & rest & -> & ->)]].
    + cbn. now rewrite replace_tags_empty.
    + cbn [map concat]. apply app_nil_r.
    + cbn [map concat]. rewrite IH.
      * rewrite !(@replace_tags_before newline ctx) by (assumption || discriminate).
        rewrite replace_tags_empty, <- app_assoc. reflexivity.
      * rewrite length_app in Hlen. cbn [length] in Hlen. lia.
Qed.

(** *** Writing *)

Lemma read_truncated_same (name : pystr) (fs : Server.filesystem) :
  Server.read_file name (truncate_file name fs) = Some [].
Proof.
  induction fs as [|[p c] fs IH]; cbn [truncate_file Server.read_file].
  - now rewrite pystr_eqb_refl.
  - destruct (pystr_eqb p name) eqn:E; cbn [Server.read_file]; rewrite E; [reflexivity | exact IH].
Qed.

Lemma read_truncated_other (p name : pystr) (fs : Server.filesystem) :
  p <> name -> Server.read_file p (truncate_file name fs) = Server.read_file p fs.
Proof.
  intros Hne. induction fs as [|[q c] fs IH]; cbn [truncate_file Server.read_file].
  - rewrite pystr_eqb_neq; [reflexivity | congruence].
  - destruct (pystr_eqb q name) eqn:E; cbn [Server.read_file].
    + apply pystr_eqb_eq in E. subst q.
      rewrite pystr_eqb_neq by congruence. reflexivity.
    + destruct (pystr_eqb q p); [reflexivity | exact IH].
Qed.

Lemma read_written_same (name : pystr) (ls : list pystr) :
  forall fs content,
    Server.read_file name fs = Some content ->
    Server.read_file name (write_lines name ls fs) = Some (content ++ concat ls).
Proof.
  unfold write_lines.
  induction ls as [|l ls IH]; intros fs content H; cbn [fold_left concat].
  - now rewrite app_nil_r.
  - rewrite (IH _ (content ++ l)), <- app_assoc; [reflexivity|].
    rewrite Server.read_file_append_same, H. reflexivity.
Qed.

Lemma read_written_other (p name : pystr) (ls : list pystr) :
  p <> name ->
  forall fs, Server.read_file p (write_lines name ls fs) = Server.read_file p fs.
Proof.
  intros Hne. unfold write_lines.
  induction ls as [|l ls IH]; intros fs; cbn [fold_left]; [reflexivity|].
  rewrite IH. now apply Server.read_file_append_other.
Qed.

(** What a rendering leaves on disk. *)
Lemma render_template_run (path : pystr) (ctx : context) (fs : Server.filesystem)
    (content : pystr) :
  Server.read_file path fs = Some content ->
  keys_without newline ctx ->
  exists fs',
    render_template_with_tags path ctx fs = (inr tt, fs') /\
    Server.read_file path fs' = Some (replace_tags ctx (universal_newlines content)) /\
    (forall p, p <> path -> Server.read_file p fs' = Server.read_file p fs).
Proof.
  intros Hfile Hctx. unfold render_template_with_tags. rewrite Hfile.
  eexists. split; [reflexivity|]. cbn [render_string_or_list_with_tags lines_of]. split.
  - rewrite (@read_written_same path _ _ [] (read_truncated_same path fs)).
    rewrite render_lines_map. cbn [app].
    f_equal. now apply render_lines_whole with (n := length (universal_newlines content)).
  - intros p Hp. rewrite read_written_other by exact Hp. now apply read_truncated_other.
Qed.

(** *** Carriage returns *)

Lemma universal_newlines_without (s : pystr) :
  forall n, length s <= n -> without carriage_return (universal_newlines s).
Proof.
  intros n. revert s. induction n as [|n IH]; intros s Hlen.
  - destruct s; [constructor | cbn in Hlen; lia].
  - destruct s as [|c s]; [constructor|]. cbn [universal_newlines length] in *.
    destruct (Ascii.eqb c carriage_return) eqn:E.
    + constructor; [discriminate|].
      destruct s as [|d s]; [constructor|]. cbn [length] in Hlen.
      destruct (Ascii.eqb d newline); apply IH; cbn [length]; lia.
    + constructor; [|apply IH; lia].
      intros ->. now rewrite Ascii.eqb_refl in E.
Qed.

Lemma universal_newlines_id (s : pystr) :
  without carriage_return s -> universal_newlines s = s.
Proof.
  induction 1 as [|c s Hc _ IH]; [reflexivity|]. cbn [universal_newlines].
  destruct (Ascii.eqb c carriage_return) eqn:E.
  - apply Ascii.eqb_eq in E. contradiction.
  - now rewrite IH.
Qed.

Lemma replace_from_without (c : ascii) (old new : pystr) :
  without c new ->
  forall s k, without c s -> without c (replace_from old new k s).
Proof.
  intros Hnew. induction s as [|d s IH]; intros k Hs; [constructor|].
  inversion Hs as [|? ? Hd Hs']; subst. cbn [replace_from].
  destruct k as [|k]; [|now apply IH].
  destruct (startswith old (d :: s)).
  - apply Forall_app. split; [exact Hnew | now apply IH].
  - constructor; [exact Hd | now apply IH].
Qed.

Lemma replace_tags_without (c : ascii) (ctx : context) :
  Forall (fun kv => without c (py_str (snd kv))) ctx ->
  forall s, without c s -> without c (replace_tags ctx s).
Proof.
  induction 1 as [|[k v] ctx Hv _ IH]; intros s Hs; [exact Hs|].
  cbn [replace_tags snd] in *. apply IH.
  rewrite str_replace_nonempty by apply tag_not_nil.
  now apply replace_from_without.
Qed.

Lemma replace_tags_app (ctx1 ctx2 : context) (s : pystr) :
  replace_tags (ctx1 ++ ctx2) s = replace_tags ctx2 (replace_tags ctx1 s).
Proof.
  revert s. induction ctx1 as [|[k v] ctx1 IH]; intros s; cbn [app replace_tags]; auto.
Qed.

(** X7: rendering a template file line by line leaves in the file the text
    that the string case of the renderer returns for the whole content, the
    line ends of the file being read as [\n], provided no key holds a
    newline; so every tag of the context is replaced in the file, key after
    key.  The call returns and no other file is changed. *)
Theorem render_template_file_as_string (path : pystr) (ctx : context)
    (fs : Server.filesystem) (content : pystr) :
  Server.read_file path fs = Some content ->
  keys_without newline ctx ->
  exists fs' new,
    render_template_with_tags path ctx fs = (inr tt, fs') /\
    Server.read_file path fs' = Some new /\
    render_string_or_list_with_tags (Str (universal_newlines content)) ctx = Str new /\
    renders ctx (universal_newlines content) new /\
    (forall p, p <> path -> Server.read_file p fs' = Server.read_file p fs).
Proof.
  intros Hfile Hctx.
  destruct (render_template_run path fs Hfile Hctx) as (fs' & Hrun & Hread & Hother).
  exists fs', (replace_tags ctx (universal_newlines content)).
  repeat split; try assumption. apply replace_tags_renders.
Qed.

(** The context of the two passes over the config file, taken together. *)
Definition config_context (input_interface output_interface share_url : pyval) : context :=
  [(lit "input_interface_type", input_interface);
   (lit "output_interface_type", output_interface);
   (lit "share_url", share_url)].

Ltac literal_keys :=
  unfold keys_without, without;
  repeat first [apply Forall_nil | apply Forall_cons | discriminate].

(** X8: the two passes over the config file compose: after
    [set_interface_types_in_config_file] and then
    [set_share_url_in_config_file] the disk is as one rendering of the config
    file with the three keys, in that order, leaves it, provided the
    interface types hold no carriage return; both calls return. *)
Theorem config_file_passes_compose (temp_dir : pystr)
    (input_interface output_interface share_url : pyval)
    (fs : Server.filesystem) (content : pystr) :
  Server.read_file (OsPath.join temp_dir CONFIG_FILE) fs = Some content ->
  without carriage_return (py_str input_interface) ->
  without carriage_return (py_str output_interface) ->
  exists fs1 fs2 fs',
    set_interface_types_in_config_file temp_dir input_interface output_interface fs
    = (inr tt, fs1) /\
    set_share_url_in_config_file temp_dir share_url fs1 = (inr tt, fs2) /\
    render_template_with_tags (OsPath.join temp_dir CONFIG_FILE)
      (config_context input_interface output_interface share_url) fs = (inr tt, fs') /\
    (forall p, Server.read_file p fs2 = Server.read_file p fs') /\
    Server.read_file (OsPath.join temp_dir CONFIG_FILE) fs2
    = Some (replace_tags (config_context input_interface output_interface share_url)
              (universal_newlines content)).
Proof.
  intros Hfile Hin Hout.
  unfold set_interface_types_in_config_file, set_share_url_in_config_file.
  set (config_file := OsPath.join temp_dir CONFIG_FILE) in *.
  set (ctx1 := [(lit "input_interface_type", input_interface);
                (lit "output_interface_type", output_interface)]).
  set (ctx2 := [(lit "share_url", share_url)]).
  destruct (@render_template_run config_file ctx1 fs content Hfile)
    as (fs1 & Hrun1 & Hread1 & Hother1); [literal_keys|].
  destruct (@render_template_run config_file ctx2 fs1 _ Hread1)
    as (fs2 & Hrun2 & Hread2 & Hother2); [literal_keys|].
  destruct (@render_template_run config_file
              (config_context input_interface output_interface share_url) fs content Hfile)
    as (fs' & Hrun & Hread & Hother); [literal_keys|].
  assert (Server.read_file config_file fs2
          = Some (replace_tags (config_context input_interface output_interface share_url)
                    (universal_newlines content))) as Hboth.
  { rewrite Hread2, universal_newlines_id.
    - now rewrite <- replace_tags_app.
    - apply replace_tags_without.
      + subst ctx1. repeat constructor; assumption.
      + now apply universal_newlines_without with (n := length content). }
  exists fs1, fs2, fs'. repeat split; try assumption.
  intros p. destruct (pystr_eq_dec p config_file) as [->|Hp].
  - now rewrite Hboth, Hread.
  - now rewrite Hother2, Hother1, Hother.
Qed.

(** *** A page and a config file *)

Definition example_page : pystr :=
  lit "<h1>{{title}}</h1>" ++ [carriage_return; newline] ++ lit "<p>{{title}}: {{n}}</p>".

Definition example_page_context : context :=
  [(lit "title", PStr (lit "Demo")); (lit "n", PInt 3)].

Lemma render_template_file_example :
  exists fs' new,
    render_template_with_tags (lit "index.html") example_page_context
      [(lit "index.html", example_page)] = (inr tt, fs') /\
    Server.read_file (lit "index.html") fs' = Some new /\
    render_string_or_list_with_tags (Str (universal_newlines example_page))
      example_page_context = Str new /\
    renders example_page_context (universal_newlines example_page) new /\
    (forall p, p <> lit "index.html" ->
       Server.read_file p fs' = Server.read_file p [(lit "index.html", example_page)]).
Proof.
  apply (@render_template_file_as_string (lit "index.html") example_page_context
           [(lit "index.html", example_page)] example_page);
    [reflexivity | literal_keys].
Defined.

Definition example_config : pystr :=
  lit "{input: {{input_interface_type}}, output: {{output_interface_type}}," ++ [newline]
  ++ lit " share: {{share_url}}}" ++ [newline].

Lemma config_file_example :
  exists fs1 fs2 fs',
    set_interface_types_in_config_file (lit "/tmp/gradio")
      (PStr (lit "sketchpad")) (PStr (lit "label"))
      [(lit "/tmp/gradio/static/config.json", example_config)] = (inr tt, fs1) /\
    set_share_url_in_config_file (lit "/tmp/gradio") PNone fs1 = (inr tt, fs2) /\
    render_template_with_tags (OsPath.join (lit "/tmp/gradio") CONFIG_FILE)
      (config_context (PStr (lit "sketchpad")) (PStr (lit "label")) PNone)
      [(lit "/tmp/gradio/static/config.json", example_config)] = (inr tt, fs') /\
    (forall p, Server.read_file p fs2 = Server.read_file p fs') /\
    Server.read_file (OsPath.join (lit "/tmp/gradio") CONFIG_FILE) fs2
    = Some (replace_tags (config_context (PStr (lit "sketchpad")) (PStr (lit "label")) PNone)
              (universal_newlines example_config)).
Proof.
  apply (@config_file_passes_compose (lit "/tmp/gradio")
           (PStr (lit "sketchpad")) (PStr (lit "label")) PNone
           [(lit "/tmp/gradio/static/config.json", example_config)] example_config);
    [reflexivity | literal_keys | literal_keys].
Defined.

End TemplateFiles.

(** ** Tunnel set-up: [url_request] and [setup_tunnel] *)

Module Tunnel.
Import PyStr Json.

Definition LOCALHOST_NAME : pystr := lit "localhost".
Definition GRADIO_API_SERVER : pystr := lit "https://api.gradio.app/v1/tunnel-request".

(** What [urlopen] returns: the status and the body, decoded. *)
Record http_response : Type := {
  code : Z;
  body : pystr
}.

Section Setup.

(** [urllib.request.urlopen(req, timeout=t)] for the URL of [req]: the
    response, or the exception raised (unreachable host, time-out, an HTTP
    status that [urllib] turns into an error).  A response can carry any
    status of the 2xx class. *)
Variable urlopen : pystr -> Z -> res http_response.
Variable json_loads : pystr -> res json.
(** [gradio.tunneling.create_tunnel(payload, local_server, local_server_port)] *)
Variable create_tunnel : json -> pystr -> Z -> res pystr.

Definition url_request (url : pystr) : res http_response :=
  match urlopen url 10 with
  | inr res => inr res
  | inl e => inl (Exn RuntimeError (exn_str e))
  end.

(** [obj[0]] *)
Definition first_item (obj : json) : res json :=
  match obj with
  | JList (x :: _) => inr x
  | JList [] => inl (Exn OtherError (lit "list index out of range"))
  | JStr (c :: _) => inr (JStr [c])
  | JStr [] => inl (Exn OtherError (lit "string index out of range"))
  | JDict _ => inl (Exn KeyError (lit "0"))
  | _ => inl (Exn TypeError (lit "object is not subscriptable"))
  end.

(** The body of the [try]: the payload, then the tunnel. *)
Definition open_tunnel (response : http_response) (local_server_port : Z) : res pystr :=
  match json_loads (body response) with
  | inl e => inl e
  | inr parsed =>
      match first_item parsed with
      | inl e => inl e
      | inr payload => create_tunnel payload LOCALHOST_NAME local_server_port
      end
  end.

(** The result is the tunnel's public URL, or [None] when the function runs
    off its end.  A response object is always true, so the test is on the
    status alone. *)
Definition setup_tunnel (local_server_port : Z) : res (option pystr) :=
  match url_request GRADIO_API_SERVER with
  | inl e => inl e
  | inr response =>
      if (code response =? 200)%Z
      then match open_tunnel response local_server_port with
           | inr url => inr (Some url)
           | inl e => inl (Exn RuntimeError (exn_str e))
           end
      else inr None
  end.

(** The request is made with a time-out of ten seconds, and whatever it
    raises is raised again as a [RuntimeError] with the same text. *)
Lemma url_request_wraps (url : pystr) :
  (forall e, urlopen url 10 = inl e ->
             url_request url = inl (Exn RuntimeError (exn_str e))) /\
  (forall response, urlopen url 10 = inr response -> url_request url = inr response).
Proof.
  unfold url_request. split; intros x H; now rewrite H.
Qed.

(** A failed request, a payload that cannot be read and a tunnel that cannot
    be made all end in a [RuntimeError] with the text of the cause; a
    response with status 200 and a good payload gives the tunnel's URL. *)
Lemma setup_tunnel_status_200 (port : Z) (response : http_response) :
  urlopen GRADIO_API_SERVER 10 = inr response ->
  code response = 200%Z ->
  (forall url, open_tunnel response port = inr url ->
               setup_tunnel port = inr (Some url)) /\
  (forall e, open_tunnel response port = inl e ->
             setup_tunnel port = inl (Exn RuntimeError (exn_str e))).
Proof.
  intros Hopen Hcode. unfold setup_tunnel.
  rewrite (proj2 (url_request_wraps GRADIO_API_SERVER) _ Hopen), Hcode. cbn [Z.eqb Pos.eqb].
  split; intros x H; now rewrite H.
Qed.

Lemma setup_tunnel_request_fails (port : Z) (e : exn) :
  urlopen GRADIO_API_SERVER 10 = inl e ->
  setup_tunnel port = inl (Exn RuntimeError (exn_str e)).
Proof.
  intros H. unfold setup_tunnel.
  now rewrite (proj1 (url_request_wraps GRADIO_API_SERVER) _ H).
Qed.

(** A response with another status than 200 raises nothing: the function
    returns [None]. *)
Lemma setup_tunnel_other_status (port : Z) (response : http_response) :
  urlopen GRADIO_API_SERVER 10 = inr response ->
  code response <> 200%Z ->
  setup_tunnel port = inr None.
Proof.
  intros Hopen Hcode. unfold setup_tunnel.
  rewrite (proj2 (url_request_wraps GRADIO_API_SERVER) _ Hopen).
  apply Z.eqb_neq in Hcode. now rewrite Hcode.
Qed.

(** What made [setup_tunnel] fail: the request, or, after an answer with
    status 200, the reading of the payload or the making of the tunnel. *)
Definition cause_of_failure (port : Z) (cause : exn) : Prop :=
  urlopen GRADIO_API_SERVER 10 = inl cause \/
  exists response,
    urlopen GRADIO_API_SERVER 10 = inr response /\
    code response = 200%Z /\
    open_tunnel response port = inl cause.

(** X11: whatever goes wrong in [setup_tunnel], the exception that leaves it
    is a [RuntimeError] whose text is that of the cause: the request to the
    broker failed, or the broker answered with status 200 and its payload
    could not be read or the tunnel could not be made. *)
Theorem setup_tunnel_raises_runtime_errors_only (port : Z) (e : exn) :
  setup_tunnel port = inl e ->
  exists cause,
    e = Exn RuntimeError (exn_str cause) /\ cause_of_failure port cause.
Proof.
  unfold setup_tunnel, url_request, cause_of_failure.
  destruct (urlopen GRADIO_API_SERVER 10) as [cause|response] eqn:Hopen.
  - intros [= <-]. exists cause. split; [reflexivity | now left].
  - destruct (code response =? 200)%Z eqn:Hcode; [|discriminate].
    destruct (open_tunnel response port) as [cause|url] eqn:Htunnel; [|discriminate].
    intros [= <-]. exists cause. split; [reflexivity|]. right.
    exists response. apply Z.eqb_eq in Hcode. auto.
Qed.

(** X12: [setup_tunnel] returns a URL exactly when the broker, asked at
    [GRADIO_API_SERVER] with a time-out of ten seconds, answers with status
    200 and a body that reads as JSON, and [create_tunnel] returns that URL
    for the first item of the body, the host [localhost] and the given
    port. *)
Theorem setup_tunnel_returns_url_iff (port : Z) (url : pystr) :
  setup_tunnel port = inr (Some url) <->
  exists response parsed payload,
    urlopen GRADIO_API_SERVER 10 = inr response /\
    code response = 200%Z /\
    json_loads (body response) = inr parsed /\
    first_item parsed = inr payload /\
    create_tunnel payload LOCALHOST_NAME port = inr url.
Proof.
  unfold setup_tunnel, url_request, open_tunnel. split.
  - destruct (urlopen GRADIO_API_SERVER 10) as [cause|response] eqn:Hopen; [discriminate|].
    destruct (code response =? 200)%Z eqn:Hcode; [|discriminate].
    destruct (json_loads (body response)) as [e|parsed] eqn:Hloads; [discriminate|].
    destruct (first_item parsed) as [e|payload] eqn:Hfirst; [discriminate|].
    destruct (create_tunnel payload LOCALHOST_NAME port) as [e|u] eqn:Hmake; [discriminate|].
    intros [= ->]. exists response, parsed, payload. apply Z.eqb_eq in Hcode.
    repeat split; auto.
  - intros (response & parsed & payload & -> & -> & -> & -> & ->). reflexivity.
Qed.

End Setup.

(** C7, where the code departs from it: the broker answers with status 204
    (no content), [urlopen] returns the response, and [setup_tunnel] returns
    [None], with no tunnel and no error. *)
Theorem setup_tunnel_status_204_returns_none :
  setup_tunnel (fun _ _ => inr {| code := 204; body := [] |})
    (fun _ => inr JNull) (fun _ _ _ => inr (lit "https://0.gradio.app")) 7860
  = inr None.
Proof.
  apply setup_tunnel_other_status with (response := {| code := 204; body := [] |});
    [reflexivity | discriminate].
Qed.

Lemma setup_tunnel_error_example :
  exists cause,
    Exn RuntimeError (lit "list index out of range")
    = Exn RuntimeError (exn_str cause) /\
    cause_of_failure (fun _ _ => inr {| code := 200; body := lit "[]" |})
      (fun _ => inr (JList [])) (fun _ _ _ => inr (lit "https://0.gradio.app"))
      7860 cause.
Proof.
  apply (@setup_tunnel_raises_runtime_errors_only
           (fun _ _ => inr {| code := 200; body := lit "[]" |})
           (fun _ => inr (JList [])) (fun _ _ _ => inr (lit "https://0.gradio.app"))
           7860 (Exn RuntimeError (lit "list index out of range"))).
  reflexivity.
Defined.

End Tunnel.

(** ** Static files: [HTTPHandler.translate_path] *)

Module StaticFiles.
Import PyStr.
Import OsPath.

(** [c.isspace()] for a character below 256. *)
Definition is_space (c : ascii) : bool :=
  let n := N_of_ascii c in
  (((9 <=? n) && (n <=? 13)) || ((28 <=? n) && (n <=? 32)) || (n =? 133) || (n =? 160))%N.

Fixpoint lstrip (s : pystr) : pystr :=
  match s with
  | [] => []
  | c :: s' => if is_space c then lstrip s' else s
  end.

(** [s.rstrip()] *)
Definition rstrip (s : pystr) : pystr := rev (lstrip (rev s)).

(** [s.split(c, 1)[0]]: the text before the first [c]. *)
Fixpoint before (c : ascii) (s : pystr) : pystr :=
  match s with
  | [] => []
  | x :: s' => if Ascii.eqb x c then [] else x :: before c s'
  end.

Section Translate.

(** [urllib.parse.unquote]: whatever it decodes the path to. *)
Variable unquote : pystr -> pystr.
(** [os.getcwd()], which is also the handler's [directory]. *)
Variable cwd : pystr.
(** [self.server.base_path], the directory that is served. *)
Variable base_path : pystr.

(** The body of the loop over the words: a word with a directory part
    ([os.path.dirname(word)] is not empty exactly when the word holds a
    separator) or equal to [.] or [..] is ignored. *)
Definition add_word (path word : pystr) : pystr :=
  if existsb (Ascii.eqb sep) word || pystr_eqb word curdir || pystr_eqb word pardir
  then path
  else join path word.

(** [SimpleHTTPRequestHandler.translate_path(self, path)] *)
Definition simple_translate_path (path : pystr) : pystr :=
  let path := before "?"%char path in
  let path := before "#"%char path in
  let trailing_slash := ends_with_sep (rstrip path) in
  let path := unquote path in
  let path := normpath path in
  let words := filter nonempty (split_sep path) in
  let path := fold_left add_word words cwd in
  if trailing_slash then path ++ [sep] else path.

Definition translate_path (path : pystr) : res pystr :=
  let path := simple_translate_path path in
  match relpath cwd path cwd with
  | inl e => inl e
  | inr relpath => inr (join base_path relpath)
  end.

(** A path inside a root: the root joined with plain names, none of which
    leads up or restarts from the top. *)
Definition inside (root p : pystr) : Prop :=
  exists names, Forall plain_name names /\ p = join root (relative names).

End Translate.

Lemma existsb_sep_slash_free (w : pystr) :
  slash_free w -> existsb (Ascii.eqb sep) w = false.
Proof.
  intros Hw. destruct (existsb (Ascii.eqb sep) w) eqn:E; [|reflexivity].
  apply existsb_exists in E as (c & Hin & Hc). apply Ascii.eqb_eq in Hc. subst c.
  contradiction.
Qed.

(** The words are added below the directory, those that are not plain names
    being left out. *)
Lemma fold_add_word (words : list pystr) :
  Forall slash_free words ->
  forall names, Forall plain_name names ->
  exists more,
    Forall plain_name more /\
    fold_left add_word (filter nonempty words) (absolute names) = absolute (names ++ more).
Proof.
  induction 1 as [|w words Hw _ IH]; intros names Hnames.
  - exists []. split; [constructor | now rewrite app_nil_r].
  - cbn [filter]. destruct (nonempty w) eqn:Hne; [|apply IH, Hnames].
    cbn [fold_left]. unfold add_word at 2.
    rewrite (existsb_sep_slash_free Hw). cbn [orb].
    destruct (pystr_eqb w curdir) eqn:Ecur; [apply IH, Hnames|].
    destruct (pystr_eqb w pardir) eqn:Epar; [apply IH, Hnames|]. cbn [orb].
    assert (Hplain : plain_name w).
    { split; [intros ->; discriminate Hne|]. split; [exact Hw|].
      split; intros ->; [now rewrite pystr_eqb_refl in Ecur
                        | now rewrite pystr_eqb_refl in Epar]. }
    rewrite join_absolute by assumption.
    destruct (IH (names ++ [w])) as (more & Hmore & E).
    { apply Forall_app. split; [exact Hnames | now constructor]. }
    exists (w :: more). split; [now constructor|].
    rewrite E, <- app_assoc. reflexivity.
Qed.

Lemma join_relative_prefix (root : pystr) (names : list pystr) :
  Forall plain_name names -> startswith root (join root (relative names)) = true.
Proof.
  intros Hnames. unfold join.
  assert (E : startswith [sep] (relative names) = false).
  { destruct Hnames as [|w names Hw Hnames]; [reflexivity|].
    cbn [relative PyStr.join]. destruct Hw as (Hne & Hfree & _).
    destruct w as [|c w]; [congruence|].
    assert (Hc : Ascii.eqb sep c = false).
    { destruct (Ascii.eqb sep c) eqn:Ec; [|reflexivity].
      apply Ascii.eqb_eq in Ec. exfalso. apply Hfree. now left. }
    destruct names; cbn [app startswith]; now rewrite Hc. }
  rewrite E. destruct (_ || _); apply startswith_app.
Qed.

(** C8: whatever the request path is, and whatever it decodes to, the path
    it is translated to is the serve directory joined with plain names: no
    component is [..], none restarts from the root, so the file is inside
    the serve directory.  The working directory is given by its names from
    the root. *)
Theorem translate_path_stays_inside
    (unquote : pystr -> pystr) (cwd_names : list pystr) (base_path path : pystr) :
  Forall plain_name cwd_names ->
  exists fullpath,
    translate_path unquote (absolute cwd_names) base_path path = inr fullpath /\
    inside base_path fullpath /\
    startswith base_path fullpath = true.
Proof.
  intros Hcwd. unfold translate_path, simple_translate_path.
  set (p := normpath (unquote (before "#"%char (before "?"%char path)))).
  destruct (fold_add_word (split_sep_slash_free p) Hcwd) as (more & Hmore & E).
  rewrite E.
  set (slash := ends_with_sep (rstrip (before "#"%char (before "?"%char path)))).
  assert (R : relpath (absolute cwd_names)
                (if slash then absolute (cwd_names ++ more) ++ [sep]
                 else absolute (cwd_names ++ more))
                (absolute cwd_names) = inr (relative more)).
  { destruct slash.
    - apply relpath_below; auto.
    - rewrite <- (app_nil_r (absolute (cwd_names ++ more))).
      apply relpath_below; auto. }
  rewrite R. exists (join base_path (relative more)).
  split; [reflexivity|]. split.
  - now exists more.
  - now apply join_relative_prefix.
Qed.

Lemma translate_path_example :
  exists fullpath,
    translate_path (fun p => p) (absolute [lit "home"; lit "user"]) (lit "/tmp/gradio")
      (lit "/../../etc/passwd?x=1") = inr fullpath /\
    inside (lit "/tmp/gradio") fullpath /\
    startswith (lit "/tmp/gradio") fullpath = true.
Proof.
  apply (translate_path_stays_inside (fun p => p) (cwd_names := [lit "home"; lit "user"])
           (lit "/tmp/gradio") (lit "/../../etc/passwd?x=1")).
  repeat constructor; try (intros E; discriminate E);
    intros H; cbn in H; repeat (destruct H as [H|H]; [discriminate H|]); exact H.
Defined.

(** *** The translated path, written out *)

(** The words the loop keeps. *)
Definition kept (word : pystr) : bool :=
  negb (existsb (Ascii.eqb sep) word || pystr_eqb word curdir || pystr_eqb word pardir).

(** The names a request path leads through: the words kept of the
    normalised path, query and fragment cut off. *)
Definition served_names (unquote : pystr -> pystr) (path : pystr) : list pystr :=
  filter kept
    (filter nonempty
       (split_sep (normpath (unquote (before "#"%char (before "?"%char path)))))).

Lemma fold_add_word_kept (words : list pystr) :
  Forall slash_free words ->
  forall names, Forall plain_name names ->
    Forall plain_name (filter kept (filter nonempty words)) /\
    fold_left add_word (filter nonempty words) (absolute names)
    = absolute (names ++ filter kept (filter nonempty words)).
Proof.
  induction 1 as [|w words Hw _ IH]; intros names Hnames.
  - split; [constructor | now rewrite app_nil_r].
  - cbn [filter]. destruct (nonempty w) eqn:Hne; [|apply IH, Hnames].
    cbn [fold_left filter]. unfold add_word at 2.
    assert (kept w
            = negb (existsb (Ascii.eqb sep) w || pystr_eqb w curdir || pystr_eqb w pardir))
      as K by reflexivity.
    rewrite K.
    destruct (existsb (Ascii.eqb sep) w || pystr_eqb w curdir || pystr_eqb w pardir) eqn:E;
      cbn [negb]; [apply IH, Hnames|].
    apply orb_false_iff in E as [E Epar]. apply orb_false_iff in E as [_ Ecur].
    assert (Hplain : plain_name w).
    { split; [intros ->; discriminate Hne|]. split; [exact Hw|].
      split; intros ->; [now rewrite pystr_eqb_refl in Ecur
                        | now rewrite pystr_eqb_refl in Epar]. }
    rewrite join_absolute by assumption.
    destruct (IH (names ++ [w])) as (Hmore & Efold).
    { apply Forall_app. split; [exact Hnames | now constructor]. }
    split; [now constructor|].
    rewrite Efold, <- app_assoc. reflexivity.
Qed.

(** X10: the translated path is the serve directory joined with the names
    kept of the normalised request path.  It does not depend on the working
    directory, and the query, the fragment and a trailing slash of the
    request leave no trace in it; a request that keeps no name is translated
    to the serve directory joined with [.]. *)
Theorem translate_path_is_base_path_joined
    (unquote : pystr -> pystr) (cwd_names : list pystr) (base_path path : pystr) :
  Forall plain_name cwd_names ->
  translate_path unquote (absolute cwd_names) base_path path
  = inr (join base_path (relative (served_names unquote path))).
Proof.
  intros Hcwd. unfold translate_path, simple_translate_path, served_names.
  set (p := normpath (unquote (before "#"%char (before "?"%char path)))).
  destruct (fold_add_word_kept (split_sep_slash_free p) Hcwd) as (Hmore & E).
  rewrite E.
  set (more := filter kept (filter nonempty (split_sep p))) in *.
  set (slash := ends_with_sep (rstrip (before "#"%char (before "?"%char path)))).
  assert (R : relpath (absolute cwd_names)
                (if slash then absolute (cwd_names ++ more) ++ [sep]
                 else absolute (cwd_names ++ more))
                (absolute cwd_names) = inr (relative more)).
  { destruct slash.
    - apply relpath_below; auto.
    - rewrite <- (app_nil_r (absolute (cwd_names ++ more))).
      apply relpath_below; auto. }
  now rewrite R.
Qed.

Lemma translate_path_joined_example :
  translate_path (fun p => p) (absolute [lit "home"; lit "user"]) (lit "/tmp/gradio")
    (lit "/static/../static//js/all_io.js/?v=2#top")
  = inr (lit "/tmp/gradio/static/js/all_io.js").
Proof.
  apply (@translate_path_is_base_path_joined (fun p => p) [lit "home"; lit "user"]
           (lit "/tmp/gradio") (lit "/static/../static//js/all_io.js/?v=2#top")).
  repeat constructor; try (intros E; discriminate E);
    intros H; cbn in H; repeat (destruct H as [H|H]; [discriminate H|]); exact H.
Defined.

End StaticFiles.
